(** * CaptionMaker: scene classification and caption decoding

    A shallow embedding of the algorithmic core of the CaptionMaker
    repository:

    - [Scene]   : [SmartCaptionGenerator.categorize_scene],
                  [advanced_scene_categorization] and
                  [_extract_contextual_info] of [caption_generator.py];
    - [Decoder] : [ImageCaptionModel.generate_caption_simple] (greedy) and
                  [generate_caption_beam_search] of [model.py].

    Python floats are modelled as exact rationals ([Q]), and [np.log],
    which is not a rational function, is a parameter of beam search;
    Python [str] is [string], a Python list is a [list], and a [dict]
    whose iteration order matters is an association list in insertion
    order. *)

From Stdlib Require Import List String Ascii Bool Arith ZArith QArith Qminmax.
From Stdlib Require Import DecimalString Sorted Permutation Lia Lqa.
Import ListNotations.

Open Scope string_scope.
Open Scope list_scope.

(* ================================================================== *)
(** ** Python built-ins used by the source *)
(* ================================================================== *)

Module Py.

(** [k in s] on strings: [k] occurs in [s] as a contiguous substring.
    The comparison is by code point, hence case-sensitive. *)
Fixpoint str_in (k s : string) : bool :=
  prefix k s ||
  match s with
  | EmptyString => false
  | String _ s' => str_in k s'
  end.

(** [any(f(x) for x in l)] *)
Definition any {A : Type} (f : A -> bool) (l : list A) : bool := existsb f l.

(** [sum(g)] of a generator of integers. *)
Definition sum (l : list nat) : nat := fold_left Nat.add l 0%nat.

(** [enumerate(l)] *)
Fixpoint enumerate_from {A : Type} (i : nat) (l : list A) : list (nat * A) :=
  match l with
  | [] => []
  | x :: l' => (i, x) :: enumerate_from (S i) l'
  end.

Definition enumerate {A : Type} (l : list A) : list (nat * A) :=
  enumerate_from 0 l.

(** A [dict] with string keys, in insertion order. *)
Definition dict (V : Type) : Type := list (string * V).

(** [d.get(k)] *)
Fixpoint get {V : Type} (d : dict V) (k : string) : option V :=
  match d with
  | [] => None
  | (k', v) :: d' => if String.eqb k' k then Some v else get d' k
  end.

(** [d[k] = v]: an existing key keeps its position, a new key goes last. *)
Fixpoint set {V : Type} (d : dict V) (k : string) (v : V) : dict V :=
  match d with
  | [] => [(k, v)]
  | (k', v') :: d' =>
      if String.eqb k' k then (k', v) :: d' else (k', v') :: set d' k v
  end.

Definition keys {V : Type} (d : dict V) : list string := map fst d.

(** [max(xs, key=f)]: the first element whose key is maximal; a later
    element replaces the current best only when its key is strictly
    greater.  [lt a b] decides [a < b] on keys. *)
Fixpoint max_from {A K : Type} (lt : K -> K -> bool) (key : A -> K)
         (best : A) (l : list A) : A :=
  match l with
  | [] => best
  | x :: l' =>
      if lt (key best) (key x) then max_from lt key x l'
      else max_from lt key best l'
  end.

Definition max_key {A K : Type} (lt : K -> K -> bool) (key : A -> K)
           (l : list A) : option A :=
  match l with
  | [] => None
  | x :: l' => Some (max_from lt key x l')
  end.

(** [s.replace('_', ' ')] *)
Fixpoint replace_underscore (s : string) : string :=
  match s with
  | EmptyString => EmptyString
  | String c s' =>
      String (if Ascii.eqb c "_"%char then " "%char else c)
             (replace_underscore s')
  end.

(** Strict comparison of floats, as a boolean. *)
Definition Qltb (a b : Q) : bool :=
  if Qlt_le_dec a b then true else false.

End Py.

(* ================================================================== *)
(** ** caption_generator.py : SmartCaptionGenerator *)
(* ================================================================== *)

Module Scene.

Import Py.

(** [SCENE_CATEGORIES] of [config.py], restricted to the ['keywords']
    entries, i.e. [self.scene_keywords]. *)
Definition scene_keywords : dict (list string) :=
  [ ("people",
     ["person"; "man"; "woman"; "child"; "baby"; "face"; "human";
      "people"; "boy"; "girl"]);
    ("animal",
     ["dog"; "cat"; "bird"; "horse"; "cow"; "sheep"; "elephant"; "lion";
      "tiger"; "bear"; "rabbit"; "fish"; "pet"]);
    ("food",
     ["pizza"; "burger"; "sandwich"; "cake"; "bread"; "fruit"; "apple";
      "banana"; "food"; "meal"; "dish"]);
    ("vehicle",
     ["car"; "truck"; "bus"; "motorcycle"; "bicycle"; "train";
      "airplane"; "boat"; "ship"; "vehicle"]);
    ("nature",
     ["tree"; "flower"; "mountain"; "beach"; "ocean"; "forest"; "grass";
      "sky"; "cloud"; "sunset"; "landscape"]);
    ("architecture",
     ["building"; "house"; "church"; "tower"; "bridge"; "castle";
      "monument"; "structure"]);
    ("indoor",
     ["room"; "kitchen"; "bedroom"; "office"; "restaurant"; "store";
      "museum"; "interior"]);
    ("outdoor",
     ["park"; "street"; "road"; "garden"; "field"; "landscape";
      "outdoor"]) ].

(** *** categorize_scene *)

(** [any(keyword in pred for keyword in keywords)] *)
Definition matches (keywords : list string) (pred : string) : bool :=
  any (fun keyword => str_in keyword pred) keywords.

(** [sum(1 for pred in predictions if any(...))] *)
Definition match_score (keywords predictions : list string) : nat :=
  sum (map (fun _ => 1%nat) (filter (matches keywords) predictions)).

(** The first loop: one entry of [category_scores] per table entry. *)
Definition count_scores (table : dict (list string))
           (predictions : list string) : dict nat :=
  fold_left
    (fun category_scores '(category, keywords) =>
       set category_scores category (match_score keywords predictions))
    table [].

(** [category_scores.get], used as the key of [max]; every key that is
    looked up is present. *)
Definition score_of {V : Type} (dflt : V) (d : dict V) (k : string) : V :=
  match get d k with Some v => v | None => dflt end.

Definition categorize_scene_with (table : dict (list string))
           (predictions : list string) : string * Q :=
  let category_scores := count_scores table predictions in
  match max_key Nat.ltb (score_of 0%nat category_scores)
                (keys category_scores) with
  | Some best_category =>
      if (0 <? score_of 0%nat category_scores best_category)%nat
      then (best_category, 7 # 10)
      else ("general", 1 # 2)
  | None => ("general", 1 # 2)
  end.

Definition categorize_scene : list string -> string * Q :=
  categorize_scene_with scene_keywords.

(** *** advanced_scene_categorization *)

(** The weighted scores are sums of products of floats.  As exact
    rationals they can fall on the other side of a comparison than the
    doubles of the source do: for [['woman_face']] with confidence
    [0.05] the source adds three times [0.1] to
    [0.30000000000000004 > 0.3], where the exact sum is [3/10].  The
    properties stated of this method (C1, C4, C5, X9, X10, X11) hold
    on either side of such a comparison; the lemma
    [advanced_first_best] speaks of the exact sums only. *)

(** [position_weight = 1.0 - (i * 0.1)] *)
Definition position_weight (i : nat) : Q :=
  1 - inject_Z (Z.of_nat i) * (1 # 10).

(** [confidence_scores[i] if i < len(confidence_scores) else 0.1] *)
Definition confidence_weight (confidence_scores : list Q) (i : nat) : Q :=
  match nth_error confidence_scores i with
  | Some c => c
  | None => 1 # 10
  end.

(** Body of the innermost loop, for one keyword. *)
Definition keyword_step (confidence_scores : list Q) (i : nat)
           (pred : string) (weighted_score : Q) (keyword : string) : Q :=
  if str_in keyword pred
  then weighted_score
       + position_weight i * confidence_weight confidence_scores i * 2
  else weighted_score.

(** The two inner loops, for one category. *)
Definition weighted_score (keywords predictions : list string)
           (confidence_scores : list Q) : Q :=
  fold_left
    (fun acc '(i, pred) =>
       fold_left (keyword_step confidence_scores i pred) keywords acc)
    (enumerate predictions) 0.

Definition weighted_scores (table : dict (list string))
           (predictions : list string) (confidence_scores : list Q)
  : dict Q :=
  fold_left
    (fun category_scores '(category, keywords) =>
       set category_scores category
           (weighted_score keywords predictions confidence_scores))
    table [].

Definition advanced_scene_categorization_with (table : dict (list string))
           (predictions : list string) (confidence_scores : list Q)
  : string * Q :=
  let category_scores :=
    weighted_scores table predictions confidence_scores in
  match max_key Qltb (score_of 0 category_scores)
                (keys category_scores) with
  | Some best_category =>
      let max_score := score_of 0 category_scores best_category in
      if Qltb (3 # 10) max_score
      then (best_category, if Qltb 1 max_score then 1 else max_score)
      else ("general", 1 # 2)
  | None => ("general", 1 # 2)
  end.

Definition advanced_scene_categorization
  : list string -> list Q -> string * Q :=
  advanced_scene_categorization_with scene_keywords.

(** *** _extract_contextual_info *)

Record context : Type := mkContext {
  primary_objects : list string;
  secondary_objects : list string;
  environment : list string;
  activity_indicators : list string;
  mood_indicators : list string
}.

Definition object_keywords : list string :=
  ["person"; "dog"; "cat"; "car"; "building"; "tree"; "flower"; "food"].
Definition environment_keywords : list string :=
  ["outdoor"; "indoor"; "beach"; "forest"; "city"; "room"; "kitchen"].
Definition activity_keywords : list string :=
  ["playing"; "running"; "sitting"; "walking"; "eating"; "sleeping"].
Definition mood_keywords : list string :=
  ["sunset"; "sunny"; "cloudy"; "bright"; "dark"; "colorful"].

(** [l.append(x)] when [b] holds. *)
Definition append_if (b : bool) (l : list string) (x : string)
  : list string :=
  if b then l ++ [x] else l.

(** Body of the loop over [enumerate(predictions[:8])]. *)
Definition context_step (confidence_scores : list Q) (ctx : context)
           (ip : nat * string) : context :=
  let '(i, pred) := ip in
  let confidence := confidence_weight confidence_scores i in
  if Qltb (1 # 10) confidence then
    let label := replace_underscore pred in
    let is_object := matches object_keywords pred in
    let is_primary := Qltb (3 # 10) confidence in
    mkContext
      (append_if (is_object && is_primary) (primary_objects ctx) label)
      (append_if (is_object && negb is_primary)
                 (secondary_objects ctx) label)
      (append_if (matches environment_keywords pred)
                 (environment ctx) label)
      (append_if (matches activity_keywords pred)
                 (activity_indicators ctx) label)
      (append_if (matches mood_keywords pred) (mood_indicators ctx) label)
  else ctx.

Definition _extract_contextual_info (predictions : list string)
           (confidence_scores : list Q) : context :=
  fold_left (context_step confidence_scores)
            (enumerate (firstn 8 predictions))
            (mkContext [] [] [] [] []).

End Scene.

(* ================================================================== *)
(** ** model.py : ImageCaptionModel *)
(* ================================================================== *)

Module Decoder.

Import Py.

(** Exceptions the two decoding methods can raise. *)
Inductive error : Type :=
| NotLoaded      (* ValueError("Model and tokenizer must be loaded first") *)
| ArgmaxOfEmpty  (* ValueError raised by np.argmax on an empty array *)
| IndexError.    (* sequences[0] on an empty list *)

Inductive result (A : Type) : Type :=
| Ok (a : A)
| Raise (e : error).
Arguments Ok {A} a.
Arguments Raise {A} e.

Definition FeatureVector : Type := list Q.

(** The Keras tokenizer, an external collaborator: its [word_index]
    dictionary and its [texts_to_sequences] method on one text. *)
Record Tokenizer : Type := mkTokenizer {
  word_index : dict nat;
  texts_to_sequences : string -> list nat
}.

(** The trained network, an external collaborator:
    [model.predict([image_features, padded], verbose=0)[0]], the
    probability of every vocabulary id. *)
Definition Model : Type := FeatureVector -> list nat -> list Q.

Record ImageCaptionModel : Type := mkImageCaptionModel {
  max_length : nat;
  tokenizer : option Tokenizer;
  model : option Model
}.

(** [word_for_id]: the first word of [word_index] with the given index. *)
Fixpoint word_for_id_items (integer : nat) (items : dict nat)
  : option string :=
  match items with
  | [] => None
  | (word, index) :: items' =>
      if (index =? integer)%nat then Some word
      else word_for_id_items integer items'
  end.

Definition word_for_id (integer : nat) (tok : Tokenizer) : option string :=
  word_for_id_items integer (word_index tok).

(** [word_index.get(w, d)] *)
Definition get_default (d : dict nat) (w : string) (dflt : nat) : nat :=
  match get d w with Some i => i | None => dflt end.

Definition start_token (tok : Tokenizer) : nat :=
  get_default (word_index tok) "startseq" 1.
Definition end_token (tok : Tokenizer) : nat :=
  get_default (word_index tok) "endseq" 2.

(** *** numpy and Keras helpers *)

(** [np.argmax]: the first index holding the maximum. *)
Fixpoint argmax_from (best_i : nat) (best : Q) (i : nat) (l : list Q)
  : nat :=
  match l with
  | [] => best_i
  | x :: l' =>
      if Qltb best x then argmax_from i x (S i) l'
      else argmax_from best_i best (S i) l'
  end.

Definition argmax (l : list Q) : option nat :=
  match l with
  | [] => None
  | x :: l' => Some (argmax_from 0 x 1 l')
  end.

(** [np.argsort]: the indices in ascending order of value.  numpy
    leaves the order of equal values to its sorting routine; here they
    are kept in increasing index order (a stable sort). *)
Fixpoint insert_asc (iv : nat * Q) (l : list (nat * Q))
  : list (nat * Q) :=
  match l with
  | [] => [iv]
  | jw :: l' =>
      if Qltb (snd jw) (snd iv) then jw :: insert_asc iv l'
      else iv :: jw :: l'
  end.

Definition argsort (l : list Q) : list nat :=
  map fst (fold_right insert_asc [] (enumerate l)).

(** [l[-n:]] for [n >= 0]; note that [l[-0:]] is the whole list. *)
Definition slice_last {A : Type} (n : nat) (l : list A) : list A :=
  match n with
  | O => l
  | S _ => skipn (List.length l - n) l
  end.

(** [pad_sequences([s], maxlen=n)] with the Keras defaults
    [padding='pre'], [truncating='pre'], [value=0]. *)
Definition pad_sequences (maxlen : nat) (s : list nat) : list nat :=
  repeat 0%nat (maxlen - List.length s) ++ skipn (List.length s - maxlen) s.

(** [s.replace(old, '')] for a non-empty [old]: occurrences are removed
    left to right, without overlap.  [skip] counts the characters of the
    current occurrence still to drop. *)
Fixpoint remove_from (old : string) (skip : nat) (s : string) : string :=
  match s with
  | EmptyString => EmptyString
  | String c s' =>
      match skip with
      | S k => remove_from old k s'
      | O =>
          if prefix old s then remove_from old (String.length old - 1) s'
          else String c (remove_from old 0 s')
      end
  end.

Definition remove (old s : string) : string := remove_from old 0 s.

(** ASCII white space, as removed by [str.strip()]. *)
Definition is_space (c : ascii) : bool :=
  let n := nat_of_ascii c in
  ((9 <=? n) && (n <=? 13) || (28 <=? n) && (n <=? 32))%nat.

Fixpoint lstrip (s : string) : string :=
  match s with
  | EmptyString => EmptyString
  | String c s' => if is_space c then lstrip s' else s
  end.

Fixpoint rstrip (s : string) : string :=
  match s with
  | EmptyString => EmptyString
  | String c s' =>
      match rstrip s' with
      | EmptyString => if is_space c then EmptyString
                       else String c EmptyString
      | r => String c r
      end
  end.

Definition strip (s : string) : string := rstrip (lstrip s).

(** [' '.join(words)] *)
Fixpoint join (words : list string) : string :=
  match words with
  | [] => ""
  | [w] => w
  | w :: ws => w ++ " " ++ join ws
  end.

(** *** generate_caption_simple (greedy search) *)

Section Greedy.

Variable tok : Tokenizer.
Variable predict : Model.
Variable L : nat.                    (* self.max_length *)
Variable image_features : FeatureVector.

(** [n] iterations of the loop remain; the result is [in_text] when
    the loop is left. *)
Fixpoint greedy_loop (n : nat) (in_text : string) : result string :=
  match n with
  | O => Ok in_text
  | S n' =>
      let sequence := texts_to_sequences tok in_text in
      let sequence := pad_sequences L sequence in
      let prediction := predict image_features sequence in
      match argmax prediction with
      | None => Raise ArgmaxOfEmpty
      | Some prediction =>
          match word_for_id prediction tok with
          | None => Ok in_text
          | Some word =>
              if String.eqb word "endseq" then Ok in_text
              else greedy_loop n' (in_text ++ " " ++ word)
          end
      end
  end.

End Greedy.

Definition generate_caption_simple (self : ImageCaptionModel)
           (image_features : FeatureVector) : result string :=
  match model self, tokenizer self with
  | Some predict, Some tok =>
      match greedy_loop tok predict (max_length self) image_features
                        (max_length self) "startseq" with
      | Ok in_text => Ok (strip (remove "startseq" in_text))
      | Raise e => Raise e
      end
  | _, _ => Raise NotLoaded
  end.

(** *** generate_caption_beam_search *)

(** One entry [[seq, score]] of [sequences]. *)
Definition candidate : Type := list nat * Q.

(** [all_candidates.sort(key=lambda x: x[1], reverse=True)]: descending
    by score, stable. *)
Fixpoint insert_desc {A : Type} (key : A -> Q) (x : A) (l : list A)
  : list A :=
  match l with
  | [] => [x]
  | y :: l' =>
      if Qltb (key x) (key y) then y :: insert_desc key x l'
      else x :: y :: l'
  end.

Definition sort_desc {A : Type} (key : A -> Q) (l : list A) : list A :=
  fold_right (insert_desc key) [] l.

Section Beam.

(** [np.log] on floats is not a rational function; it is a parameter
    of the embedding. *)
Variable np_log : Q -> Q.
Variable tok : Tokenizer.
Variable predict : Model.
Variable L : nat.                    (* self.max_length *)
Variable image_features : FeatureVector.
Variable beam_width : nat.

(** The test that carries a candidate forward unchanged. *)
Definition finished (seq : list nat) : bool :=
  (L <=? List.length seq)%nat || (last seq 0%nat =? end_token tok)%nat.

(** Body of the loop over [sequences]: the candidates one entry
    contributes to [all_candidates]. *)
Definition expand (c : candidate) : list candidate :=
  let '(seq, score) := c in
  if finished seq then [(seq, score)]
  else
    let padded_seq := seq ++ repeat 0%nat (L - List.length seq) in
    let predictions := predict image_features padded_seq in
    let top_indices := slice_last beam_width (argsort predictions) in
    map (fun idx =>
           (seq ++ [idx],
            score + np_log (nth idx predictions 0 + (1 # 100000000))))
        top_indices.

(** One iteration of the outer loop, up to the [break] test. *)
Definition beam_step (sequences : list candidate) : list candidate :=
  let all_candidates := flat_map expand sequences in
  firstn beam_width (sort_desc snd all_candidates).

Definition all_ended (sequences : list candidate) : bool :=
  forallb (fun c => (last (fst c) 0%nat =? end_token tok)%nat) sequences.

Fixpoint beam_loop (n : nat) (sequences : list candidate)
  : list candidate :=
  match n with
  | O => sequences
  | S n' =>
      let sequences := beam_step sequences in
      if all_ended sequences then sequences
      else beam_loop n' sequences
  end.

(** The final loop over [best_sequence], with its [break]. *)
Fixpoint caption_words (best_sequence : list nat) : list string :=
  match best_sequence with
  | [] => []
  | word_id :: rest =>
      match word_for_id word_id tok with
      | None => []
      | Some word =>
          if String.eqb word "endseq" then []
          else if String.eqb word "startseq" then caption_words rest
               else word :: caption_words rest
      end
  end.

Definition beam_search : result string :=
  let sequences := beam_loop L [([start_token tok], 0)] in
  match sequences with
  | [] => Raise IndexError
  | (best_sequence, _) :: _ => Ok (join (caption_words best_sequence))
  end.

End Beam.

Definition generate_caption_beam_search (np_log : Q -> Q)
           (self : ImageCaptionModel) (image_features : FeatureVector)
           (beam_width : nat) : result string :=
  match model self, tokenizer self with
  | Some predict, Some tok =>
      beam_search np_log tok predict (max_length self) image_features
                  beam_width
  | _, _ => Raise NotLoaded
  end.

End Decoder.


(* ================================================================== *)
(** ** The decoders with their calls to the network made observable *)
(* ================================================================== *)

(** The two methods of [Decoder] are pure functions of the network's
    answers.  To speak about how often the network is called, the same
    loops are written once more with bookkeeping added: the tokens
    appended, the number of [model.predict] calls, and for beam search the
    number of calls along the lineage of every candidate.  The lemmas
    [generate_caption_simple_traced_outcome] and
    [generate_caption_beam_search_traced_outcome] show that the bookkeeping
    does not change the result. *)

Module DecoderTrace.

Import Py Decoder.

Record trace : Type := mkTrace {
  outcome : result string;   (* what the method returns or raises *)
  words : list string;       (* the tokens the caption is built from *)
  calls : nat;               (* model.predict calls, in total *)
  lineages : list nat        (* calls along the lineage of each candidate *)
}.

(** [in_text] after the given words have been appended to ['startseq']. *)
Definition in_text_of (ws : list string) : string :=
  fold_left (fun in_text word => (in_text ++ " " ++ word)%string)
            ws "startseq".

Section Greedy.

Variable tok : Tokenizer.
Variable predict : Model.
Variable L : nat.
Variable image_features : FeatureVector.

Fixpoint greedy_loop_traced (n : nat) (in_text : string)
         (ws : list string) (k : nat) : result string * list string * nat :=
  match n with
  | O => (Ok in_text, ws, k)
  | S n' =>
      let sequence := texts_to_sequences tok in_text in
      let sequence := pad_sequences L sequence in
      let prediction := predict image_features sequence in
      match argmax prediction with
      | None => (Raise ArgmaxOfEmpty, ws, S k)
      | Some prediction =>
          match word_for_id prediction tok with
          | None => (Ok in_text, ws, S k)
          | Some word =>
              if String.eqb word "endseq" then (Ok in_text, ws, S k)
              else greedy_loop_traced n' (in_text ++ " " ++ word)
                                      (ws ++ [word]) (S k)
          end
      end
  end.

End Greedy.

Definition generate_caption_simple_traced (self : ImageCaptionModel)
           (image_features : FeatureVector) : trace :=
  match model self, tokenizer self with
  | Some predict, Some tok =>
      match greedy_loop_traced tok predict (max_length self)
              image_features (max_length self) "startseq" [] 0 with
      | (Ok in_text, ws, k) =>
          mkTrace (Ok (strip (remove "startseq" in_text))) ws k [k]
      | (Raise e, ws, k) => mkTrace (Raise e) ws k [k]
      end
  | _, _ => mkTrace (Raise NotLoaded) [] 0 []
  end.

(** A beam candidate together with the number of [model.predict] calls
    that produced it. *)
Definition tcandidate : Type := candidate * nat.

Section Beam.

Variable np_log : Q -> Q.
Variable tok : Tokenizer.
Variable predict : Model.
Variable L : nat.
Variable image_features : FeatureVector.
Variable beam_width : nat.

Definition expand_traced (c : tcandidate) : list tcandidate :=
  let '(seq, score, k) := c in
  if finished tok L seq then [(seq, score, k)]
  else
    let padded_seq := seq ++ repeat 0%nat (L - List.length seq) in
    let predictions := predict image_features padded_seq in
    let top_indices := slice_last beam_width (argsort predictions) in
    map (fun idx =>
           (seq ++ [idx],
            score + np_log (nth idx predictions 0 + (1 # 100000000)),
            S k))
        top_indices.

(** The number of [model.predict] calls of one pass over [sequences]. *)
Definition calls_of_pass (sequences : list tcandidate) : nat :=
  List.length
    (filter (fun c => negb (finished tok L (fst (fst c)))) sequences).

Definition beam_step_traced (sequences : list tcandidate)
  : list tcandidate :=
  firstn beam_width
         (sort_desc (fun c => snd (fst c))
                    (flat_map expand_traced sequences)).

(** [history] collects [all_candidates] of every iteration. *)
Fixpoint beam_loop_traced (n : nat) (sequences history : list tcandidate)
         (k : nat) : list tcandidate * list tcandidate * nat :=
  match n with
  | O => (sequences, history, k)
  | S n' =>
      let all_candidates := flat_map expand_traced sequences in
      let k' := (k + calls_of_pass sequences)%nat in
      let sequences' := beam_step_traced sequences in
      if all_ended tok (map fst sequences')
      then (sequences', history ++ all_candidates, k')
      else beam_loop_traced n' sequences' (history ++ all_candidates) k'
  end.

Definition beam_search_traced : trace :=
  let start := ([start_token tok], 0, 0%nat) in
  let '(sequences, history, k) := beam_loop_traced L [start] [start] 0 in
  match sequences with
  | [] => mkTrace (Raise IndexError) [] k (map snd history)
  | (best_sequence, _, _) :: _ =>
      let ws := caption_words tok best_sequence in
      mkTrace (Ok (join ws)) ws k (map snd history)
  end.

End Beam.

Definition generate_caption_beam_search_traced (np_log : Q -> Q)
           (self : ImageCaptionModel) (image_features : FeatureVector)
           (beam_width : nat) : trace :=
  match model self, tokenizer self with
  | Some predict, Some tok =>
      beam_search_traced np_log tok predict (max_length self)
                         image_features beam_width
  | _, _ => mkTrace (Raise NotLoaded) [] 0 []
  end.

End DecoderTrace.

(* ================================================================== *)
(** ** Specification-side definitions and concrete inputs *)
(* ================================================================== *)

Module SceneSpec.

Import Py Scene.

(** The count the specification describes for one category: the number
    of predictions containing at least one keyword as a substring. *)
Definition spec_count (keywords predictions : list string) : nat :=
  List.length
    (filter (fun pred => existsb (fun k => str_in k pred) keywords)
            predictions).

(** ASCII lower-casing, used to phrase a case-insensitive match. *)
Definition lower_char (c : ascii) : ascii :=
  let n := nat_of_ascii c in
  if ((65 <=? n) && (n <=? 90))%nat then ascii_of_nat (n + 32) else c.

Fixpoint lower (s : string) : string :=
  match s with
  | EmptyString => EmptyString
  | String c s' => String (lower_char c) (lower s')
  end.

(** The case-insensitive count of the specification's wording. *)
Definition spec_count_ci (keywords predictions : list string) : nat :=
  spec_count (map lower keywords) (map lower predictions).

(** [l[i] = c] where it is used to vary one confidence: an index out of
    range leaves the list unchanged. *)
Fixpoint set_nth (i : nat) (c : Q) (l : list Q) : list Q :=
  match l, i with
  | [], _ => []
  | _ :: l', O => c :: l'
  | x :: l', S i' => x :: set_nth i' c l'
  end.


(** Inputs of the concrete scenarios. *)
Definition animal_table : dict (list string) := [("animal", ["dog"])].
Definition retriever_predictions : list string :=
  ["golden_retriever"; "dog"].
Definition retriever_confidences : list Q := [9 # 10; 5 # 100].

(** Twelve ranked labels, of which only the last (rank 11) matches. *)
Definition twelve_predictions : list string :=
  repeat "lamp" 11 ++ ["dog"].
Definition twelve_confidences : list Q := repeat (1 # 10) 12.

(** The buckets of a context, as one list. *)
Definition buckets (ctx : context) : list (list string) :=
  [primary_objects ctx; secondary_objects ctx; environment ctx;
   activity_indicators ctx; mood_indicators ctx].

(** Where an entry of a bucket comes from. *)
Definition from_rank (predictions : list string) (cs : list Q)
           (x : string) : Prop :=
  exists i pred,
    (i < 8)%nat /\ nth_error predictions i = Some pred /\
    x = replace_underscore pred /\ (1 # 10) < confidence_weight cs i.

Definition from_first_eight (predictions : list string) (cs : list Q)
           (ctx : context) : Prop :=
  forall bucket x, In bucket (buckets ctx) -> In x bucket ->
                   from_rank predictions cs x.

Definition ten_predictions : list string :=
  ["dog"; "cat"; "car"; "tree"; "beach"; "sunset"; "person"; "food";
   "kitchen"; "flower"].
Definition ten_confidences : list Q := repeat (1 # 2) 10.

End SceneSpec.

Module DecoderSpec.

Import Py Decoder DecoderTrace.

(** A distribution with all its mass on id [e]. *)
Definition hot (e i : nat) : Q := if (i =? e)%nat then 1 else 0.
Definition one_hot (n e : nat) : list Q := map (hot e) (seq 0 n).

(** The vocabulary has the two control tokens, each found under its id. *)
Definition has_start (tok : Tokenizer) : Prop :=
  word_for_id (start_token tok) tok = Some "startseq".
Definition has_end (tok : Tokenizer) : Prop :=
  word_for_id (end_token tok) tok = Some "endseq".

(** A beam candidate starts with the start token, has made one call per
    token after it, and is no longer than [max(1, L)]. *)
Definition well_shaped (tok : Tokenizer) (L : nat) (c : tcandidate)
  : Prop :=
  let '(seq, _, k) := c in
  (exists rest, seq = start_token tok :: rest /\ List.length rest = k) /\
  (List.length seq <= Nat.max 1 L)%nat.

(** What follows ['startseq'] in [in_text]: every word with a space
    before it. *)
Definition tail_text (ws : list string) : string :=
  fold_right (fun w acc => (" " ++ w ++ acc)%string) "" ws.

(** The two values [np.log] takes on a one-hot distribution. *)
Definition log_zero (np_log : Q -> Q) : Q := np_log (0 + (1 # 100000000)).
Definition log_one (np_log : Q -> Q) : Q := np_log (1 + (1 # 100000000)).

(** Under a network that always answers END: a candidate that cannot
    beat [[START, END]], and a frontier led by [[START, END]]. *)
Definition loser (np_log : Q -> Q) (e : nat) (c : candidate) : Prop :=
  let '(seq, s) := c in
  (last seq 0%nat = e -> s < log_one np_log) /\
  (last seq 0%nat <> e -> s < 0).

Definition end_first (np_log : Q -> Q) (tok : Tokenizer)
           (frontier : list candidate) : Prop :=
  exists s0 rest,
    frontier = ([start_token tok; end_token tok], s0) :: rest /\
    log_one np_log <= s0 /\
    Forall (loser np_log (end_token tok)) rest.

(** A plain word: not empty, without white space, and without an
    occurrence of ['startseq']. *)
Fixpoint no_space (s : string) : bool :=
  match s with
  | EmptyString => true
  | String c s' => negb (is_space c) && no_space s'
  end.

Definition plain_word (w : string) : bool :=
  negb (String.eqb w "") && no_space w && negb (str_in "startseq" w).

(** Besides ['startseq'], the vocabulary holds plain words only. *)
Definition plain_vocabulary (tok : Tokenizer) : bool :=
  forallb (fun '(w, _) => String.eqb w "startseq" || plain_word w)
          (word_index tok).

(** The partial sequences at which greedy search consults the network
    during [n] iterations of its loop, each as the ids chosen so far
    and as their words, starting from [ids] and [ws]. *)
Fixpoint greedy_fed (tok : Tokenizer) (predict : Model) (L : nat)
         (image_features : FeatureVector) (n : nat)
         (ids : list nat) (ws : list string)
  : list (list nat * list string) :=
  match n with
  | O => []
  | S n' =>
      (ids, ws) ::
      match argmax (predict image_features
                      (pad_sequences
                         L (texts_to_sequences tok (in_text_of ws)))) with
      | None => []
      | Some i =>
          match word_for_id i tok with
          | None => []
          | Some w =>
              if String.eqb w "endseq" then []
              else greedy_fed tok predict L image_features n'
                              (ids ++ [i]) (ws ++ [w])
          end
      end
  end.

(** The network answers alike on the two encodings of each partial
    sequence that greedy search passes through in its first [L - 1]
    iterations: the left-padded re-tokenised text that greedy search
    feeds it and the right-padded ids that beam search feeds it.
    Nothing is asked of its answers on any other input. *)
Definition same_answers (tok : Tokenizer) (predict : Model) (L : nat)
           (image_features : FeatureVector) : Prop :=
  forall ids ws,
    In (ids, ws) (greedy_fed tok predict L image_features (L - 1) [] []) ->
    predict image_features
            (pad_sequences L (texts_to_sequences tok (in_text_of ws)))
    = predict image_features
              ((start_token tok :: ids)
               ++ repeat 0%nat (L - S (List.length ids))).

(** Every distribution has one entry that both [np.argmax] and the last
    place of [np.argsort] select, and it is not the start token. *)
Definition single_top (tok : Tokenizer) (predict : Model)
           (image_features : FeatureVector) : Prop :=
  forall s,
  exists i,
    argmax (predict image_features s) = Some i /\
    slice_last 1 (argsort (predict image_features s)) = [i] /\
    word_for_id i tok <> Some "startseq".

(** The caption of greedy search when its loop is cut after [m]
    iterations; [generate_caption_simple] is the case [m = L]. *)
Definition greedy_within (tok : Tokenizer) (predict : Model) (L : nat)
           (image_features : FeatureVector) (m : nat) : result string :=
  match greedy_loop tok predict L image_features m "startseq" with
  | Ok in_text => Ok (strip (remove "startseq" in_text))
  | Raise e => Raise e
  end.

(** The partial sequences of beam search and of greedy search that
    stand for each other: every id has a plain word other than the end
    token. *)
Definition live_word (tok : Tokenizer) (i : nat) (w : string) : Prop :=
  word_for_id i tok = Some w /\ plain_word w = true /\ w <> "endseq".

(** A network that looks at the first place of its input. *)
Definition first_place_model : Model :=
  fun _ s => if (hd 1%nat s =? 0)%nat then one_hot 5 3 else one_hot 5 2.

(** A text split at single spaces, and a tokenizer method that looks the
    words up in [word_index] and drops unknown ones; used by the
    concrete vocabulary below. *)
Fixpoint split_spaces (cur : string) (s : string) : list string :=
  match s with
  | EmptyString => [cur]
  | String c s' =>
      if Ascii.eqb c " "%char then cur :: split_spaces "" s'
      else split_spaces (cur ++ String c "") s'
  end.

Definition lookup_words (idx : dict nat) (text : string) : list nat :=
  flat_map (fun w => match get idx w with Some i => [i] | None => [] end)
           (split_spaces "" text).

(** The vocabulary [{startseq: 1, endseq: 2, a: 3, dog: 4}]. *)
Definition small_index : dict nat :=
  [("startseq", 1%nat); ("endseq", 2%nat); ("a", 3%nat); ("dog", 4%nat)].
Definition small_tokenizer : Tokenizer :=
  mkTokenizer small_index (lookup_words small_index).

(** A network that counts the tokens of its input, wherever the padding
    is: it answers ["a"] after the start token alone, ["dog"] after two
    tokens and END after more. *)
Definition count_tokens (s : list nat) : nat :=
  List.length (filter (fun i => negb (i =? 0)%nat) s).

Definition a_dog_end : Model :=
  fun _ s =>
    match count_tokens s with
    | 1%nat => one_hot 5 3
    | 2%nat => one_hot 5 4
    | _ => one_hot 5 2
    end.

(** A network that answers ["a"] exactly when the start token is in its
    input, and END otherwise. *)
Definition a_after_start : Model :=
  fun _ s => if existsb (Nat.eqb 1) s then one_hot 5 3 else one_hot 5 2.

(** Networks that ignore their input. *)
Definition always_a : Model := fun _ _ => one_hot 5 3.
Definition always_end : Model := fun _ _ => one_hot 5 2.

(** A stand-in for [np.log] on rationals: the tangent [x - 1] of the
    logarithm at 1.  It is only used to run the beam search on concrete
    inputs. *)
Definition log_tangent (x : Q) : Q := x - 1.

Definition loaded (L : nat) (tok : Tokenizer) (predict : Model)
  : ImageCaptionModel :=
  mkImageCaptionModel L (Some tok) (Some predict).

End DecoderSpec.

(* ================================================================== *)
(** ** caption_generator.py : captions, hashtags, composition *)
(* ================================================================== *)

(** The functions below work on text.  A Python [str] is modelled by the
    bytes of its UTF-8 encoding; [len], [lower] and [title] are modelled
    on ASCII text, which is what the labels of the classifier (ImageNet
    class names) are. *)

Module Captions.

Import Py Scene SceneSpec Decoder.
Local Open Scope string_scope.

(** [s.lower()] on ASCII text. *)
Definition py_lower : string -> string := lower.

(** [s.replace(old, '')] *)
Definition drop (old s : string) : string := remove old s.

Definition is_upper (c : ascii) : bool :=
  let n := nat_of_ascii c in ((65 <=? n) && (n <=? 90))%nat.
Definition is_lower (c : ascii) : bool :=
  let n := nat_of_ascii c in ((97 <=? n) && (n <=? 122))%nat.
Definition upper_char (c : ascii) : ascii :=
  if is_lower c then ascii_of_nat (nat_of_ascii c - 32) else c.

(** [s.title()] on ASCII text: a letter is upper-cased after a
    character that is not a letter and lower-cased after a letter. *)
Fixpoint title_from (prev_cased : bool) (s : string) : string :=
  match s with
  | EmptyString => EmptyString
  | String c s' =>
      if is_lower c then
        String (if prev_cased then c else upper_char c) (title_from true s')
      else if is_upper c then
        String (if prev_cased then lower_char c else c) (title_from true s')
      else String c (title_from false s')
  end.

Definition title (s : string) : string := title_from false s.

(** [sep.join(words)] *)
Fixpoint join_with (sep : string) (words : list string) : string :=
  match words with
  | [] => ""
  | [w] => w
  | w :: ws => w ++ sep ++ join_with sep ws
  end.

(** [k in d] for a dict, and [x in l] for a list of strings. *)
Definition mem (k : string) (l : list string) : bool :=
  existsb (String.eqb k) l.

(** *** random *)

(** The draws of the random generator are an input: [random.choice(l)]
    uses the next draw to pick an element of the non-empty list [l]. *)
Definition rng : Type := list nat.

Definition choice (l : list string) (g : rng) : string * rng :=
  match g with
  | [] => (nth 0 l "", [])
  | r :: g' => (nth (r mod List.length l) l "", g')
  end.

(** *** config.py *)

(** [SCENE_CATEGORIES], restricted to the ['templates'] entries, i.e.
    [self.scene_templates]. *)
Definition scene_templates : dict (list string) :=
  [
    ("people",
     ["A captivating portrait showcasing genuine human emotion and natural expression"; "People sharing a beautiful moment together with authentic connections";
      "A stunning portrait that captures the essence of human personality and character"; "Individuals expressing themselves naturally in this candid and heartwarming scene"]);
    ("animal",
     ["A magnificent creature displaying its natural beauty and wild grace"; "An adorable animal captured in a perfect moment of natural behavior";
      "A stunning wildlife photograph showcasing the animal's unique characteristics and personality"; "A beautiful creature living freely in its natural environment with perfect timing"]);
    ("food",
     ["A mouth-watering culinary masterpiece presented with exquisite attention to detail"; "Delicious cuisine artfully arranged to showcase its appetizing colors and textures";
      "A gourmet creation that perfectly balances visual appeal with culinary excellence"; "Fresh ingredients transformed into an irresistible dish that delights all the senses"]);
    ("vehicle",
     ["A stunning example of automotive design and engineering excellence"; "Transportation technology showcased from a dynamic and compelling perspective";
      "A beautifully maintained vehicle displaying exceptional craftsmanship and style"; "Modern mobility captured with attention to design details and aesthetic appeal"]);
    ("nature",
     ["Nature's breathtaking beauty captured in a moment of perfect harmony and tranquility"; "A spectacular natural landscape displaying the raw power and elegance of our planet";
      "Mother Nature's artistry revealed through stunning colors, textures, and natural lighting"; "A serene natural scene that inspires peace and connection with the natural world"]);
    ("architecture",
     ["Magnificent architectural achievement showcasing exceptional design and structural elegance"; "A building that represents the perfect fusion of form, function, and artistic vision";
      "Architectural brilliance captured from a perspective that highlights its unique features"; "Structural artistry that demonstrates human creativity and engineering prowess"]);
    ("indoor",
     ["A thoughtfully designed interior space with sophisticated lighting and elegant details"; "An inviting indoor environment that perfectly balances comfort with aesthetic appeal";
      "Interior design excellence showcasing harmonious color schemes and spatial arrangement"; "A well-appointed indoor setting that creates the perfect atmosphere and ambiance"]);
    ("outdoor",
     ["A captivating outdoor scene bathed in natural light with perfect environmental harmony"; "An outdoor vista that showcases the beauty of open spaces and natural elements";
      "A scenic outdoor landscape featuring dynamic textures and compelling visual depth"; "An expansive outdoor setting that invites exploration and peaceful contemplation"])
  ].

(** The keys of [TONE_TEMPLATES]. *)
Definition tone_names : list string :=
  ["creative"; "professional"; "casual"; "poetic"; "social";
   "descriptive"].

(** *** analyze_image_content *)

(** One entry of [decode_predictions(...)[0]]: id, class name,
    confidence. *)
Definition decoded_prediction : Type := string * string * Q.

(** The classifier is an external collaborator.  [decoded] is [None]
    when [inception_full] is missing or a step of the analysis raises,
    and otherwise holds [decode_predictions(predictions, top=10)[0]]. *)
Definition analyze_image_content
           (decoded : option (list decoded_prediction))
  : string * Q * list string :=
  match decoded with
  | None => ("general", 1 # 2, ["subject"])
  | Some decoded_predictions =>
      let top_classes :=
        map (fun pred => py_lower (snd (fst pred))) decoded_predictions in
      let '(scene_type, scene_confidence) := categorize_scene top_classes in
      (scene_type, scene_confidence, top_classes)
  end.

(** [top_classes[0].replace('_', ' ') if top_classes else dflt] *)
Definition main_subject_of (top_classes : list string) (dflt : string)
  : string :=
  match top_classes with
  | [] => dflt
  | c :: _ => replace_underscore c
  end.

(** *** generate_smart_caption *)

(** The [except] branch is not modelled: no statement of the [try]
    body raises. *)
Definition generate_smart_caption
           (decoded : option (list decoded_prediction)) (tone : string)
           (g : rng) : (string * Q * string) * rng :=
  let '(scene_type, confidence, top_classes) :=
    analyze_image_content decoded in
  let '(caption, g) :=
    if mem scene_type (keys scene_templates) && mem tone tone_names then
      let base_templates := score_of [] scene_templates scene_type in
      let main_subject := main_subject_of top_classes "subject" in
      if String.eqb tone "creative" then
        let creative_words :=
          ["stunning"; "breathtaking"; "mesmerizing"; "captivating"] in
        let '(w, g) := choice creative_words g in
        ("A " ++ w ++ " " ++ main_subject
           ++ " that creates visual impact with artistic composition", g)
      else if String.eqb tone "professional" then
        ("Professional " ++ main_subject
           ++ " photography showcasing excellent technical execution and attention to detail",
         g)
      else if String.eqb tone "casual" then
        ("Really cool " ++ main_subject ++ "! Love how this was captured",
         g)
      else if String.eqb tone "poetic" then
        let poetic_phrases :=
          ["like a painted dream"; "poetry in visual form";
           "a moment frozen in beauty"] in
        let '(p, g) := choice poetic_phrases g in
        (title main_subject ++ " captured " ++ p, g)
      else if String.eqb tone "social" then
        let hashtags :=
          join_with " " ["#" ++ drop " " main_subject; "#photography";
                         "#beautiful"] in
        ("Amazing " ++ main_subject ++ " vibes! âœ¨ " ++ hashtags, g)
      else if String.eqb tone "descriptive" then
        ("A detailed capture of " ++ main_subject
           ++ " showcasing clear visual elements and composition", g)
      else (nth 0 base_templates "", g)
    else
      let main_subject := main_subject_of top_classes "composition" in
      ("A beautiful " ++ main_subject ++ " captured with artistic vision",
       g) in
  ((caption, confidence, scene_type), g).

(** *** generate_multiple_captions *)

(** The caption of one pass of the first loop. *)
Definition variation (tone main_subject : string)
           (top_classes : list string) (g : rng) : string * rng :=
  if String.eqb tone "creative" then
    let creative_words :=
      ["stunning"; "breathtaking"; "mesmerizing"; "captivating";
       "enchanting"] in
    let '(w, g) := choice creative_words g in
    let '(t, g) :=
      choice ["tells a story"; "captures the imagination";
              "evokes emotion"] g in
    ("A " ++ w ++ " " ++ main_subject ++ " that " ++ t, g)
  else if String.eqb tone "professional" then
    let professional_terms :=
      ["composition"; "lighting"; "perspective"; "technical execution"] in
    let '(t, g) := choice professional_terms g in
    ("Professional " ++ main_subject ++ " photography with excellent "
       ++ t, g)
  else if String.eqb tone "casual" then
    let casual_words := ["awesome"; "cool"; "amazing"; "sweet"; "nice"] in
    let '(w, g) := choice casual_words g in
    ("Really " ++ w ++ " " ++ main_subject ++ "! Love this shot", g)
  else if String.eqb tone "poetic" then
    let poetic_phrases :=
      ["like a painted dream"; "poetry in visual form";
       "a moment frozen in beauty"] in
    let '(p, g) := choice poetic_phrases g in
    (title main_subject ++ " captured " ++ p, g)
  else if String.eqb tone "social" then
    let emoji_sets := ["âœ¨ðŸ”¥"; "ðŸ’«â­"; "ðŸŒŸðŸ’Ž"; "ðŸŽ¨ðŸ“¸"] in
    let hashtags := "#photography #" ++ drop " " main_subject in
    let '(e, g) := choice emoji_sets g in
    (title main_subject ++ " vibes! " ++ e ++ " " ++ hashtags, g)
  else if String.eqb tone "descriptive" then
    let details :=
      if (1 <? List.length top_classes)%nat
      then join_with ", " (firstn 2 (skipn 1 top_classes))
      else "visual elements" in
    ("Detailed capture showing " ++ main_subject ++ " with " ++ details
       ++ " in clear focus", g)
  else
    ("Beautiful " ++ main_subject ++ " captured with artistic vision", g).

(** [for i in range(num_captions): ... captions.append(caption)] *)
Fixpoint variations (n : nat) (tone main_subject : string)
         (top_classes : list string) (captions : list string) (g : rng)
  : list string * rng :=
  match n with
  | O => (captions, g)
  | S n' =>
      let '(caption, g) := variation tone main_subject top_classes g in
      variations n' tone main_subject top_classes (captions ++ [caption])%list g
  end.

(** The caption the second loop appends. *)
Definition filler (tone main_subject : string) : string :=
  if String.eqb tone "creative" then
    "An artistic view of " ++ main_subject
      ++ " with imaginative composition"
  else if String.eqb tone "professional" then
    "Expertly captured " ++ main_subject ++ " with technical excellence"
  else
    "A captivating " ++ main_subject
      ++ " that draws the viewer's attention".

Section Unique.

(** [list(set(l))]: the order in which a set is listed is not fixed by
    the language; it is a parameter. *)
Variable list_of_set : list string -> list string.
Variable num_captions : nat.
Variable new_caption : string.

(** [while len(unique_captions) < num_captions: ...], run for at most
    [fuel] tests of its condition; [None] when the loop is still
    running after that. *)
Fixpoint unique_loop (fuel : nat) (unique_captions : list string)
  : option (list string) :=
  match fuel with
  | O => None
  | S fuel' =>
      if (List.length unique_captions <? num_captions)%nat
      then unique_loop fuel'
                       (list_of_set (unique_captions ++ [new_caption])%list)
      else Some unique_captions
  end.

End Unique.

(** The [except] branch is not modelled: no statement of the [try]
    body raises. *)
Definition generate_multiple_captions
           (list_of_set : list string -> list string) (fuel : nat)
           (decoded : option (list decoded_prediction))
           (num_captions : nat) (tone : string) (g : rng)
  : option (list string) :=
  let '(_, _, top_classes) := analyze_image_content decoded in
  let main_subject := main_subject_of top_classes "subject" in
  let '(captions, _) :=
    variations num_captions tone main_subject top_classes [] g in
  let unique_captions := list_of_set captions in
  match unique_loop list_of_set num_captions (filler tone main_subject)
                    fuel unique_captions with
  | Some unique_captions => Some (firstn num_captions unique_captions)
  | None => None
  end.

(** What [list(set(l))] is known to be: the elements of [l], each
    once. *)
Definition lists_a_set (list_of_set : list string -> list string) : Prop :=
  forall l, NoDup (list_of_set l) /\
            forall x, In x (list_of_set l) <-> In x l.

(** A listing of sets, used to run the function on concrete inputs. *)
Definition first_seen : list string -> list string := nodup string_dec.

(** *** _generate_hashtags *)

Definition base_tags : list string :=
  ["#photography"; "#beautiful"; "#amazing"].

Definition subject_tags (main_subject : string) : list string :=
  ["#" ++ drop " " main_subject; "#" ++ py_lower (drop " " main_subject)].

(** The loop over [predictions[:3]]. *)
Definition prediction_tags (predictions : list string) : list string :=
  fold_left
    (fun tags pred =>
       let clean_pred := py_lower (drop " " (drop "_" pred)) in
       if (3 <? String.length clean_pred)%nat
       then (tags ++ [("#" ++ clean_pred)%string])%list else tags)
    (firstn 3 predictions) [].

Definition hashtag_list (main_subject : string)
           (predictions : list string) : list string :=
  let all_tags :=
    (base_tags ++ subject_tags main_subject
     ++ prediction_tags predictions)%list in
  firstn 6 all_tags.

Definition _generate_hashtags (main_subject : string)
           (predictions : list string) : string :=
  join_with " " (hashtag_list main_subject predictions).

(** *** _infer_composition *)

(** The dict [_analyze_colors] returns. *)
Record colors : Type := mkColors {
  dominant : string;
  avg_rgb : list Q;
  saturation : string
}.

Definition _infer_composition (predictions : list string) (c : colors)
  : list string :=
  let composition_styles :=
    if any (fun pred => str_in "portrait" pred) predictions
    then ["portrait composition"]
    else if any (fun pred => str_in "landscape" pred) predictions
         then ["landscape composition"]
         else [] in
  let composition_styles :=
    if String.eqb (saturation c) "high"
    then (composition_styles ++ ["vibrant and colorful"])%list
    else composition_styles in
  let composition_styles :=
    if String.eqb (dominant c) "balanced"
    then (composition_styles ++ ["harmoniously balanced"])%list
    else composition_styles in
  match composition_styles with
  | [] => ["artistic composition"]
  | _ => composition_styles
  end.

(** The sizes of the buckets of a context after [n] predictions. *)
Definition bucket_sizes_within (n : nat) (ctx : context) : Prop :=
  (List.length (primary_objects ctx)
   + List.length (secondary_objects ctx) <= n)%nat /\
  (List.length (environment ctx) <= n)%nat /\
  (List.length (activity_indicators ctx) <= n)%nat /\
  (List.length (mood_indicators ctx) <= n)%nat.

End Captions.

(* ================================================================== *)
(** ** mock_tensorflow.py : decode_predictions *)
(* ================================================================== *)

Module MockTensorflow.

Import Py Decoder Captions.
Local Open Scope string_scope.

Definition imagenet_classes : list string :=
  [
    "tench"; "goldfish"; "great_white_shark"; "tiger_shark";
    "hammerhead"; "electric_ray"; "stingray"; "cock"; "hen"; "ostrich";
    "brambling"; "goldfinch"; "house_finch"; "junco"; "indigo_bunting";
    "robin"; "bulbul"; "jay"; "magpie"; "chickadee"; "water_ouzel";
    "kite"; "bald_eagle"; "vulture"; "great_grey_owl";
    "European_fire_salamander"; "common_newt"; "eft";
    "spotted_salamander"; "axolotl"; "bullfrog"; "tree_frog";
    "tailed_frog"; "loggerhead"; "leatherback_turtle"; "mud_turtle";
    "terrapin"; "box_turtle"; "banded_gecko"; "common_iguana";
    "American_chameleon"; "whiptail"; "agama"; "frilled_lizard";
    "alligator_lizard"; "Gila_monster"; "green_lizard";
    "African_chameleon"; "Komodo_dragon"; "African_crocodile";
    "American_alligator"; "triceratops"; "thunder_snake";
    "ringneck_snake"; "hognose_snake"; "green_snake"; "king_snake";
    "garter_snake"; "water_snake"; "vine_snake"; "night_snake";
    "boa_constrictor"; "rock_python"; "Indian_cobra"; "green_mamba";
    "sea_snake"; "horned_viper"; "diamondback"; "sidewinder";
    "trilobite"; "harvestman"; "scorpion";
    "black_and_gold_garden_spider"; "barn_spider"; "garden_spider";
    "black_widow"; "tarantula"; "wolf_spider"; "tick"; "centipede";
    "black_grouse"; "ptarmigan"; "ruffed_grouse"; "prairie_chicken";
    "peacock"; "quail"; "partridge"; "African_grey"; "macaw";
    "sulphur-crested_cockatoo"; "lorikeet"; "coucal"; "bee_eater";
    "hornbill"; "hummingbird"; "jacamar"; "toucan"; "drake";
    "red-breasted_merganser"; "goose"; "black_swan"; "tusker"; "echidna";
    "platypus"; "wallaby"; "koala"; "wombat"; "jellyfish"; "sea_anemone";
    "brain_coral"
  ].

(** [f'n{idx:08d}'] *)
Definition class_id (idx : nat) : string :=
  let digits := NilZero.string_of_uint (Nat.to_uint idx) in
  "n" ++ concat "" (repeat "0" (8 - String.length digits)) ++ digits.

(** [l[::-1]] *)
Definition reversed {A : Type} (l : list A) : list A := rev l.

(** The body of the loop over the batch, for one row [pred]. *)
Definition decode_row (top : nat) (pred : list Q)
  : list decoded_prediction :=
  let top_indices := reversed (slice_last top (argsort pred)) in
  map (fun idx =>
         let class_name :=
           nth (idx mod List.length imagenet_classes) imagenet_classes ""
         in
         (class_id idx, class_name, nth idx pred 0))
      top_indices.

Definition decode_predictions (preds : list (list Q)) (top : nat)
  : list (list decoded_prediction) :=
  map (decode_row top) preds.

End MockTensorflow.

(* ================================================================== *)
(** ** Properties of the scene classifier *)
(* ================================================================== *)

Import Py Scene SceneSpec.

Section PyFacts.

Context {A : Type}.

Lemma max_from_in (key : A -> nat) (l : list A) :
  forall best, In (max_from Nat.ltb key best l) (best :: l).
Proof.
  induction l as [|x l IH]; intros best; simpl.
  - now left.
  - destruct (key best <? key x)%nat.
    + right. apply IH.
    + destruct (IH best) as [H|H]; [now left | now right; right].
Qed.

Lemma max_from_ge (key : A -> nat) (l : list A) :
  forall best,
    (key best <= key (max_from Nat.ltb key best l))%nat /\
    forall x, In x l -> (key x <= key (max_from Nat.ltb key best l))%nat.
Proof.
  induction l as [|x l IH]; intros best; simpl.
  - split; [lia | tauto].
  - destruct (key best <? key x)%nat eqn:E.
    + apply Nat.ltb_lt in E. destruct (IH x) as [H1 H2]. split; [lia|].
      intros y [<-|Hy]; auto.
    + apply Nat.ltb_ge in E. destruct (IH best) as [H1 H2]. split; [lia|].
      intros y [<-|Hy]; [lia | auto].
Qed.

End PyFacts.

Lemma sum_ones {A : Type} (l : list A) :
  Py.sum (map (fun _ => 1%nat) l) = List.length l.
Proof.
  unfold Py.sum.
  assert (G : forall acc, fold_left Nat.add (map (fun _ : A => 1%nat) l) acc
                          = (acc + List.length l)%nat).
  { induction l as [|x l IH]; intros acc; simpl; [lia|]. rewrite IH. lia. }
  apply G.
Qed.

(** The code's count is the specification's count. *)
Lemma match_score_spec keywords predictions :
  match_score keywords predictions = spec_count keywords predictions.
Proof. unfold match_score, spec_count. now rewrite sum_ones. Qed.

Section DictFacts.

Context {V : Type}.

Lemma set_fresh (d : dict V) k v :
  ~ In k (keys d) -> set d k v = d ++ [(k, v)].
Proof.
  induction d as [|[k' v'] d IH]; simpl; intros H; [reflexivity|].
  destruct (String.eqb_spec k' k) as [->|Hne]; [tauto|].
  rewrite IH; tauto.
Qed.

Lemma fold_set_fresh {K : Type} (f : K -> V) (table : dict K) :
  forall d : dict V,
    NoDup (keys d ++ keys table) ->
    fold_left (fun acc '(c, x) => set acc c (f x)) table d
    = d ++ map (fun '(c, x) => (c, f x)) table.
Proof.
  induction table as [|[c x] table IH]; intros d H; simpl.
  - now rewrite app_nil_r.
  - simpl in H. rewrite set_fresh.
    + rewrite IH.
      * now rewrite <- app_assoc.
      * unfold keys in *. rewrite map_app. simpl. rewrite <- app_assoc.
        exact H.
    + apply NoDup_remove_2 in H. intros Hin. apply H. apply in_or_app.
      now left.
Qed.

Lemma get_map_in {K : Type} (f : K -> V) (table : dict K) c x :
  NoDup (keys table) -> In (c, x) table ->
  get (map (fun '(c, x) => (c, f x)) table) c = Some (f x).
Proof.
  induction table as [|[c' x'] table IH]; simpl; intros Hnd Hin; [tauto|].
  inversion Hnd as [|? ? Hnotin Hnd']; subst.
  destruct Hin as [E|Hin].
  - inversion E; subst. now rewrite String.eqb_refl.
  - destruct (String.eqb_spec c' c) as [->|Hne].
    + exfalso. apply Hnotin. unfold keys.
      change c with (fst (c, x)). now apply in_map.
    + now apply IH.
Qed.

Lemma keys_map {K : Type} (f : K -> V) (table : dict K) :
  keys (map (fun '(c, x) => (c, f x)) table) = keys table.
Proof.
  unfold keys. rewrite map_map. apply map_ext. now intros [c x].
Qed.

End DictFacts.

Lemma count_scores_map table predictions :
  NoDup (keys table) ->
  count_scores table predictions
  = map (fun '(c, kws) => (c, match_score kws predictions)) table.
Proof.
  intros H. unfold count_scores.
  exact (fold_set_fresh (fun kws => match_score kws predictions) table [] H).
Qed.

Lemma score_of_count table predictions c kws :
  NoDup (keys table) -> In (c, kws) table ->
  score_of 0%nat (count_scores table predictions) c
  = spec_count kws predictions.
Proof.
  intros Hnd Hin. unfold score_of. rewrite count_scores_map by assumption.
  rewrite (get_map_in (fun kws => match_score kws predictions) table c kws)
    by assumption.
  apply match_score_spec.
Qed.

Lemma key_has_entry {V : Type} (table : dict V) c :
  In c (keys table) -> exists x, In (c, x) table.
Proof.
  unfold keys. intros H. apply in_map_iff in H.
  destruct H as [[c' x] [E H]]. simpl in E. subst. now exists x.
Qed.

Lemma spec_count_nil keywords : spec_count keywords [] = 0%nat.
Proof. reflexivity. Qed.

(** What [categorize_scene] returns, in terms of the best key. *)
Lemma categorize_scene_cases table predictions :
  NoDup (keys table) ->
  (table = [] /\ categorize_scene_with table predictions = ("general", 1 # 2))
  \/ exists c kws,
      In (c, kws) table /\
      (forall c' kws', In (c', kws') table ->
         (spec_count kws' predictions <= spec_count kws predictions)%nat) /\
      categorize_scene_with table predictions
      = if (0 <? spec_count kws predictions)%nat then (c, 7 # 10)
        else ("general", 1 # 2).
Proof.
  intros Hnd. destruct table as [|[c0 k0] t] eqn:Et.
  - left. split; reflexivity.
  - right. rewrite <- Et in *. unfold categorize_scene_with.
    assert (Hk : keys (count_scores table predictions) = c0 :: keys t).
    { rewrite count_scores_map by assumption.
      rewrite (keys_map (fun kws => match_score kws predictions)).
      now rewrite Et. }
    rewrite Hk. simpl max_key.
    set (key := score_of 0%nat (count_scores table predictions)).
    set (best := max_from Nat.ltb key c0 (keys t)).
    assert (Hbest : In best (keys table)).
    { rewrite Et. apply (max_from_in key (keys t) c0). }
    destruct (key_has_entry table best Hbest) as [kws Hin].
    exists best, kws. split; [exact Hin|]. split.
    + intros c' kws' Hin'.
      rewrite <- (score_of_count table predictions c' kws' Hnd Hin').
      rewrite <- (score_of_count table predictions best kws Hnd Hin).
      fold key. destruct (max_from_ge key (keys t) c0) as [H1 H2].
      fold best in H1, H2.
      assert (Hc' : In c' (keys table)).
      { unfold keys. change c' with (fst (c', kws')). now apply in_map. }
      rewrite Et in Hc'. destruct Hc' as [<-|Hc']; [exact H1 | now apply H2].
    + now rewrite <- (score_of_count table predictions best kws Hnd Hin).
Qed.

(** C6 as stated fails: the label ["DOG"] contains the keyword ["dog"] of
    category animal when case is ignored, so the count the claim describes
    is 1 and the claim's answer is animal with confidence 0.7; the code
    compares case-sensitively, counts 0 and answers general, 0.5. *)
Lemma C6_counterexample :
  spec_count_ci ["dog"] ["DOG"] = 1%nat /\
  categorize_scene_with animal_table ["DOG"] = ("general", 1 # 2) /\
  categorize_scene ["DOG"] = ("general", 1 # 2).
Proof. repeat split; vm_compute; reflexivity. Qed.

(** C6, amended: for every prediction list and every keyword table (a
    dict, so with distinct category names), [categorize_scene] counts per
    category the predictions that contain at least one keyword as a
    case-sensitive substring.  If every count is 0 the answer is general
    with confidence 0.5; otherwise it is a category of maximal count with
    the fixed confidence 0.7.  On the empty prediction list the answer is
    general, 0.5.  The function is total: no input raises. *)
Theorem C6_categorize_scene_counts :
  forall table predictions,
    NoDup (keys table) ->
    ((forall c kws, In (c, kws) table -> spec_count kws predictions = 0%nat)
     -> categorize_scene_with table predictions = ("general", 1 # 2))
    /\
    ((exists c kws,
         In (c, kws) table /\ (0 < spec_count kws predictions)%nat)
     -> exists c kws,
         In (c, kws) table /\
         (0 < spec_count kws predictions)%nat /\
         (forall c' kws', In (c', kws') table ->
            (spec_count kws' predictions <= spec_count kws predictions)%nat)
         /\ categorize_scene_with table predictions = (c, 7 # 10))
    /\ categorize_scene_with table [] = ("general", 1 # 2).
Proof.
  intros table predictions Hnd. split; [|split].
  - intros Hzero.
    destruct (categorize_scene_cases table predictions Hnd)
      as [[_ H]|(c & kws & Hin & _ & H)]; [exact H|].
    rewrite H, (Hzero c kws Hin). reflexivity.
  - intros (c1 & k1 & Hin1 & Hpos).
    destruct (categorize_scene_cases table predictions Hnd)
      as [[E _]|(c & kws & Hin & Hmax & H)].
    + subst. destruct Hin1.
    + exists c, kws.
      assert (Hp : (0 < spec_count kws predictions)%nat)
        by (specialize (Hmax c1 k1 Hin1); lia).
      split; [exact Hin|]. split; [exact Hp|]. split; [exact Hmax|].
      rewrite H. apply Nat.ltb_lt in Hp. now rewrite Hp.
  - destruct (categorize_scene_cases table [] Hnd)
      as [[_ H]|(c & kws & _ & _ & H)]; [exact H|].
    now rewrite H, spec_count_nil.
Qed.

Lemma scene_keywords_distinct : NoDup (keys scene_keywords).
Proof.
  unfold keys, scene_keywords. simpl.
  repeat (constructor; [simpl; intuition discriminate|]). constructor.
Qed.

Lemma C6_witness :
  NoDup (keys scene_keywords) /\
  (exists c kws,
      In (c, kws) scene_keywords /\
      (0 < spec_count kws ["golden_retriever"; "dog"; "tabby_cat"])%nat) /\
  (exists c kws,
      In (c, kws) scene_keywords /\
      (0 < spec_count kws ["golden_retriever"; "dog"; "tabby_cat"])%nat /\
      (forall c' kws', In (c', kws') scene_keywords ->
         (spec_count kws' ["golden_retriever"; "dog"; "tabby_cat"]
          <= spec_count kws ["golden_retriever"; "dog"; "tabby_cat"])%nat)
      /\ categorize_scene ["golden_retriever"; "dog"; "tabby_cat"]
         = (c, 7 # 10)).
Proof.
  assert (Hpos : exists c kws,
             In (c, kws) scene_keywords /\
             (0 < spec_count kws ["golden_retriever"; "dog"; "tabby_cat"])%nat).
  { exists "animal", ["dog"; "cat"; "bird"; "horse"; "cow"; "sheep";
                      "elephant"; "lion"; "tiger"; "bear"; "rabbit"; "fish";
                      "pet"].
    split; [simpl; auto | vm_compute; lia]. }
  split; [exact scene_keywords_distinct|]. split; [exact Hpos|].
  exact (proj1 (proj2 (C6_categorize_scene_counts
                         scene_keywords
                         ["golden_retriever"; "dog"; "tabby_cat"]
                         scene_keywords_distinct)) Hpos).
Defined.

(** *** The weighted classifier *)

Lemma Qltb_true a b : Qltb a b = true <-> a < b.
Proof.
  unfold Qltb. destruct (Qlt_le_dec a b) as [H|H]; split; intros H';
    try assumption; try reflexivity; try discriminate.
  exfalso. exact (Qlt_not_le _ _ H' H).
Qed.

Lemma Qltb_false a b : Qltb a b = false <-> b <= a.
Proof.
  unfold Qltb. destruct (Qlt_le_dec a b) as [H|H]; split; intros H';
    try assumption; try reflexivity; try discriminate.
  exfalso. exact (Qlt_not_le _ _ H H').
Qed.

(** C1 as stated fails: ["golden_retriever"] does not contain ["dog"], so
    only the second prediction contributes and the score is not 1.89; the
    classifier does not answer animal. *)
Lemma C1_counterexample :
  ~ (weighted_score ["dog"] retriever_predictions retriever_confidences
     == 189 # 100
     /\ advanced_scene_categorization_with
          animal_table retriever_predictions retriever_confidences
        = ("animal", 1)).
Proof. intros [_ H]. vm_compute in H. discriminate H. Qed.

(** C1, amended: with the keyword table [{'animal': ['dog']}] and the
    predictions [[(l, 0.9), ("dog", 0.05)]], the weighted score of animal
    is [1.0*0.9*2 + 0.9*0.05*2 = 1.89] and the answer is animal with the
    score clamped to 1.0 whenever the first label [l] contains ["dog"].
    The label ["golden_retriever"] does not contain ["dog"]: there the
    score is [0.9*0.05*2 = 0.09], which does not exceed 0.3, and the
    answer is general with confidence 0.5. *)
Theorem C1_retriever_scenario :
  (forall l,
      str_in "dog" l = true ->
      weighted_score ["dog"] [l; "dog"] retriever_confidences == 189 # 100
      /\ advanced_scene_categorization_with
           animal_table [l; "dog"] retriever_confidences
         = ("animal", 1))
  /\ str_in "dog" "golden_retriever" = false
  /\ weighted_score ["dog"] retriever_predictions retriever_confidences
     == 9 # 100
  /\ advanced_scene_categorization_with
       animal_table retriever_predictions retriever_confidences
     = ("general", 1 # 2).
Proof.
  split; [|repeat split; vm_compute; reflexivity].
  intros l Hl.
  assert (Hs : weighted_score ["dog"] [l; "dog"] retriever_confidences
               = 0 + position_weight 0 * (9 # 10) * 2
                 + position_weight 1 * (5 # 100) * 2).
  { unfold weighted_score, enumerate. simpl. unfold keyword_step.
    rewrite Hl. reflexivity. }
  split.
  - rewrite Hs. vm_compute. reflexivity.
  - unfold advanced_scene_categorization_with, animal_table,
      weighted_scores. simpl. unfold score_of. simpl.
    rewrite Hs. vm_compute. reflexivity.
Qed.

Lemma C1_witness :
  str_in "dog" "sled_dog" = true /\
  weighted_score ["dog"] ["sled_dog"; "dog"] retriever_confidences
  == 189 # 100 /\
  advanced_scene_categorization_with
    animal_table ["sled_dog"; "dog"] retriever_confidences
  = ("animal", 1).
Proof.
  split; [reflexivity|].
  exact (proj1 C1_retriever_scenario "sled_dog" eq_refl).
Defined.


Lemma position_weight_nonneg i : (i <= 10)%nat <-> 0 <= position_weight i.
Proof.
  unfold position_weight, Qle, Qminus, Qplus, Qmult, Qopp, inject_Z.
  cbn [Qnum Qden]. change (Z.pos (1 * 10)) with 10%Z.
  change (Z.pos (1 * (1 * 10))) with 10%Z. lia.
Qed.



(** *** Monotonicity in one confidence *)

Lemma keyword_fold_le keywords cs cs' i pred :
  position_weight i * confidence_weight cs i
  <= position_weight i * confidence_weight cs' i ->
  forall acc acc',
    acc <= acc' ->
    fold_left (keyword_step cs i pred) keywords acc
    <= fold_left (keyword_step cs' i pred) keywords acc'.
Proof.
  intros Hw. induction keywords as [|k ks IH]; intros acc acc' Hacc; simpl.
  - exact Hacc.
  - apply IH. unfold keyword_step. destruct (str_in k pred); [|exact Hacc].
    apply Qplus_le_compat; [exact Hacc|].
    apply Qmult_le_compat_r; [exact Hw | discriminate].
Qed.

Lemma score_fold_le keywords cs cs' (l : list (nat * string)) :
  (forall i pred, In (i, pred) l ->
     position_weight i * confidence_weight cs i
     <= position_weight i * confidence_weight cs' i) ->
  forall acc acc',
    acc <= acc' ->
    fold_left (fun a '(i, pred) =>
                 fold_left (keyword_step cs i pred) keywords a) l acc
    <= fold_left (fun a '(i, pred) =>
                    fold_left (keyword_step cs' i pred) keywords a) l acc'.
Proof.
  induction l as [|[i pred] l IH]; intros Hw acc acc' Hacc; simpl.
  - exact Hacc.
  - apply IH.
    + intros j p Hin. apply (Hw j p). now right.
    + apply keyword_fold_le; [|exact Hacc]. apply (Hw i pred). now left.
Qed.

Lemma confidence_weight_set_nth i c cs j :
  confidence_weight (set_nth i c cs) j
  = if ((j =? i) && (i <? List.length cs))%nat then c
    else confidence_weight cs j.
Proof.
  unfold confidence_weight. revert i j.
  induction cs as [|x cs IH]; intros i j; simpl.
  - destruct i; now rewrite andb_false_r.
  - destruct i as [|i], j as [|j]; simpl; try reflexivity.
    rewrite IH. reflexivity.
Qed.

Lemma weighted_score_mono keywords predictions cs i c c' :
  (i <= 10)%nat -> c <= c' ->
  weighted_score keywords predictions (set_nth i c cs)
  <= weighted_score keywords predictions (set_nth i c' cs).
Proof.
  intros Hi Hc. unfold weighted_score.
  apply score_fold_le; [|apply Qle_refl].
  intros j pred _. rewrite !confidence_weight_set_nth.
  destruct ((j =? i) && (i <? List.length cs))%nat eqn:E; [|apply Qle_refl].
  apply andb_prop in E. destruct E as [E _]. apply Nat.eqb_eq in E. subst j.
  rewrite !(Qmult_comm (position_weight i)).
  apply Qmult_le_compat_r; [exact Hc|]. now apply position_weight_nonneg.
Qed.

Lemma score_of_weighted table predictions cs X kws :
  NoDup (keys table) -> In (X, kws) table ->
  score_of 0 (weighted_scores table predictions cs) X
  = weighted_score kws predictions cs.
Proof.
  intros Hnd Hin. unfold score_of, weighted_scores.
  rewrite (fold_set_fresh (fun kws => weighted_score kws predictions cs)
                          table [] Hnd).
  simpl app.
  now rewrite (get_map_in (fun kws => weighted_score kws predictions cs)
                          table X kws Hnd Hin).
Qed.

(** C4 as stated fails: the label at rank 11 matches the keyword, and
    raising its confidence from 0.1 to 0.2 lowers the category score,
    because the position weight at rank 11 is negative. *)
Lemma C4_counterexample :
  nth_error twelve_predictions 11 = Some "dog" /\
  matches ["dog"] "dog" = true /\
  (1 # 10) <= (2 # 10) /\
  weighted_score ["dog"] twelve_predictions
                 (set_nth 11 (2 # 10) twelve_confidences)
  < weighted_score ["dog"] twelve_predictions
                   (set_nth 11 (1 # 10) twelve_confidences).
Proof.
  split; [reflexivity|]. split; [reflexivity|].
  split; [discriminate|]. vm_compute. reflexivity.
Qed.

(** C4, amended: for every keyword table (a dict, with distinct category
    names), prediction list and confidence list, and every rank
    [i <= 10]: raising the confidence [c_i] while all labels, all other
    confidences and the table stay fixed never lowers the weighted score
    that [advanced_scene_categorization] accumulates for a category [X];
    this holds in particular when the label at rank [i] matches keywords
    of [X]. *)
Theorem C4_score_monotone :
  forall table X kws predictions confidence_scores i c c',
    NoDup (keys table) -> In (X, kws) table ->
    (i <= 10)%nat -> c <= c' ->
    score_of 0 (weighted_scores table predictions
                                (set_nth i c confidence_scores)) X
    <= score_of 0 (weighted_scores table predictions
                                   (set_nth i c' confidence_scores)) X.
Proof.
  intros table X kws predictions cs i c c' Hnd Hin Hi Hc.
  rewrite !(score_of_weighted table predictions _ X kws Hnd Hin).
  now apply weighted_score_mono.
Qed.

Lemma animal_table_distinct : NoDup (keys animal_table).
Proof. repeat constructor. simpl. tauto. Qed.

Lemma C4_witness :
  NoDup (keys animal_table) /\ In ("animal", ["dog"]) animal_table /\
  (1 <= 10)%nat /\ (5 # 100) <= (1 # 2) /\
  score_of 0 (weighted_scores animal_table retriever_predictions
                (set_nth 1 (5 # 100) retriever_confidences)) "animal"
  <= score_of 0 (weighted_scores animal_table retriever_predictions
                   (set_nth 1 (1 # 2) retriever_confidences)) "animal".
Proof.
  assert (H1 : In ("animal", ["dog"]) animal_table) by (simpl; auto).
  assert (H2 : (1 <= 10)%nat) by lia.
  assert (H3 : (5 # 100) <= (1 # 2)) by discriminate.
  split; [exact animal_table_distinct|]. split; [exact H1|].
  split; [exact H2|]. split; [exact H3|].
  exact (C4_score_monotone animal_table "animal" ["dog"]
           retriever_predictions retriever_confidences 1 (5 # 100) (1 # 2)
           animal_table_distinct H1 H2 H3).
Defined.

(** *** Contextual extraction *)

Lemma in_enumerate_from {A : Type} (l : list A) :
  forall k i x,
    In (i, x) (enumerate_from k l) ->
    (k <= i)%nat /\ nth_error l (i - k) = Some x.
Proof.
  induction l as [|y l IH]; intros k i x H; simpl in H; [tauto|].
  destruct H as [E|H].
  - inversion E; subst. rewrite Nat.sub_diag. split; [lia | reflexivity].
  - apply IH in H. destruct H as [Hk Hn]. split; [lia|].
    replace (i - k)%nat with (S (i - S k)) by lia. exact Hn.
Qed.

Lemma in_enumerate_firstn {A : Type} n (l : list A) i x :
  In (i, x) (enumerate (firstn n l)) ->
  (i < n)%nat /\ nth_error l i = Some x.
Proof.
  intros H. apply in_enumerate_from in H. destruct H as [_ H].
  rewrite Nat.sub_0_r in H.
  assert (Hi : (i < List.length (firstn n l))%nat).
  { apply nth_error_Some. rewrite H. discriminate. }
  rewrite length_firstn in Hi.
  split; [lia|]. rewrite nth_error_firstn in H.
  destruct (Nat.ltb_spec i n); [exact H | lia].
Qed.

Lemma in_append_if b l label x :
  In x (append_if b l label) -> In x l \/ (b = true /\ x = label).
Proof.
  unfold append_if. destruct b; [|tauto].
  intros H. apply in_app_or in H. destruct H as [H|[H|[]]]; auto.
Qed.

Lemma context_step_from predictions cs ctx i pred :
  (i < 8)%nat -> nth_error predictions i = Some pred ->
  from_first_eight predictions cs ctx ->
  from_first_eight predictions cs (context_step cs ctx (i, pred)).
Proof.
  intros Hi Hn Hctx. unfold context_step.
  destruct (Qltb (1 # 10) (confidence_weight cs i)) eqn:Hc; [|exact Hctx].
  apply Qltb_true in Hc.
  assert (Hnew : from_rank predictions cs (replace_underscore pred)).
  { exists i, pred. repeat split; assumption. }
  intros bucket x Hb Hx. unfold buckets in Hb. simpl in Hb.
  assert (Hold : forall l, In l (buckets ctx) -> In x l ->
                           from_rank predictions cs x).
  { intros l Hl Hxl. exact (Hctx l x Hl Hxl). }
  unfold buckets in Hold. simpl in Hold.
  destruct Hb as [<-|[<-|[<-|[<-|[<-|[]]]]]];
    apply in_append_if in Hx;
    (destruct Hx as [Hx|[_ ->]]; [|exact Hnew]);
    eapply Hold; try exact Hx; auto 10.
Qed.

Lemma fold_context_from predictions cs (l : list (nat * string)) :
  (forall i pred, In (i, pred) l ->
     (i < 8)%nat /\ nth_error predictions i = Some pred) ->
  forall ctx,
    from_first_eight predictions cs ctx ->
    from_first_eight predictions cs (fold_left (context_step cs) l ctx).
Proof.
  induction l as [|[i pred] l IH]; intros Hl ctx Hctx; simpl; [exact Hctx|].
  apply IH.
  - intros j p Hin. apply (Hl j p). now right.
  - destruct (Hl i pred) as [Hi Hn]; [now left|].
    now apply context_step_from.
Qed.

Lemma confidence_weight_firstn cs cs' i :
  (i < 8)%nat -> firstn 8 cs' = firstn 8 cs ->
  confidence_weight cs' i = confidence_weight cs i.
Proof.
  intros Hi H. unfold confidence_weight.
  assert (E : forall l : list Q,
             nth_error l i = nth_error (firstn 8 l) i).
  { intros l. rewrite nth_error_firstn.
    destruct (Nat.ltb_spec i 8); [reflexivity | lia]. }
  now rewrite (E cs'), (E cs), H.
Qed.

Lemma fold_context_ext cs cs' (l : list (nat * string)) :
  (forall i pred, In (i, pred) l ->
     confidence_weight cs' i = confidence_weight cs i) ->
  forall ctx,
    fold_left (context_step cs') l ctx = fold_left (context_step cs) l ctx.
Proof.
  induction l as [|[i pred] l IH]; intros H ctx; simpl; [reflexivity|].
  rewrite (H i pred) by now left.
  apply IH. intros j p Hin. apply (H j p). now right.
Qed.

(** C10: contextual extraction considers only the first 8 ranked
    predictions.  Two inputs that agree on their first 8 labels and first
    8 confidences give the same buckets, whatever follows at rank 8 and
    beyond, and every entry of every bucket is the label (underscores
    replaced by spaces) of a prediction at a rank below 8 whose
    confidence exceeds 0.1. *)
Theorem C10_first_eight_only :
  forall predictions confidence_scores,
    (forall predictions' confidence_scores',
        firstn 8 predictions' = firstn 8 predictions ->
        firstn 8 confidence_scores' = firstn 8 confidence_scores ->
        _extract_contextual_info predictions' confidence_scores'
        = _extract_contextual_info predictions confidence_scores)
    /\
    (forall bucket x,
        In bucket
           (buckets (_extract_contextual_info predictions confidence_scores))
        -> In x bucket ->
        exists i pred,
          (i < 8)%nat /\ nth_error predictions i = Some pred /\
          x = replace_underscore pred /\
          (1 # 10) < confidence_weight confidence_scores i).
Proof.
  intros predictions cs. split.
  - intros predictions' cs' H Hcs. unfold _extract_contextual_info.
    rewrite H. apply fold_context_ext. intros i pred Hin.
    apply in_enumerate_firstn in Hin. destruct Hin as [Hi _].
    now apply confidence_weight_firstn.
  - intros bucket x Hb Hx.
    refine (fold_context_from predictions cs
              (enumerate (firstn 8 predictions)) _ _ _ bucket x Hb Hx).
    + intros i pred Hin. now apply in_enumerate_firstn.
    + intros b y Hin Hy. unfold buckets in Hin. simpl in Hin.
      destruct Hin as [<-|[<-|[<-|[<-|[<-|[]]]]]]; destruct Hy.
Qed.

Lemma C10_witness :
  firstn 8 (firstn 8 ten_predictions ++ ["dog"; "sunset"])
  = firstn 8 ten_predictions /\
  firstn 8 (firstn 8 ten_confidences ++ [9 # 10; 1])
  = firstn 8 ten_confidences /\
  _extract_contextual_info (firstn 8 ten_predictions ++ ["dog"; "sunset"])
                           (firstn 8 ten_confidences ++ [9 # 10; 1])
  = _extract_contextual_info ten_predictions ten_confidences /\
  In (environment
        (_extract_contextual_info ten_predictions ten_confidences))
     (buckets (_extract_contextual_info ten_predictions ten_confidences)) /\
  In "beach"
     (environment
        (_extract_contextual_info ten_predictions ten_confidences)) /\
  exists i pred,
    (i < 8)%nat /\ nth_error ten_predictions i = Some pred /\
    "beach" = replace_underscore pred /\
    (1 # 10) < confidence_weight ten_confidences i.
Proof.
  assert (H1 : firstn 8 (firstn 8 ten_predictions ++ ["dog"; "sunset"])
               = firstn 8 ten_predictions) by reflexivity.
  assert (H1' : firstn 8 (firstn 8 ten_confidences ++ [9 # 10; 1])
                = firstn 8 ten_confidences) by reflexivity.
  assert (H2 : In (environment
                     (_extract_contextual_info ten_predictions
                                               ten_confidences))
                  (buckets (_extract_contextual_info ten_predictions
                                                     ten_confidences)))
    by (vm_compute; auto).
  assert (H3 : In "beach"
                  (environment
                     (_extract_contextual_info ten_predictions
                                               ten_confidences)))
    by (vm_compute; auto).
  split; [exact H1|]. split; [exact H1'|]. split.
  - exact (proj1 (C10_first_eight_only ten_predictions ten_confidences)
                 _ _ H1 H1').
  - split; [exact H2|]. split; [exact H3|].
    exact (proj2 (C10_first_eight_only ten_predictions ten_confidences)
                 _ "beach" H2 H3).
Defined.

(* ================================================================== *)
(** ** Properties of the decoders *)
(* ================================================================== *)

Import Decoder DecoderTrace DecoderSpec.

(** *** The bookkeeping does not change the result *)

Section TraceErasure.

Variable np_log : Q -> Q.
Variable tok : Tokenizer.
Variable predict : Model.
Variable L : nat.
Variable image_features : FeatureVector.
Variable beam_width : nat.

Lemma greedy_loop_traced_outcome n :
  forall in_text ws k,
    fst (fst (greedy_loop_traced tok predict L image_features
                                 n in_text ws k))
    = greedy_loop tok predict L image_features n in_text.
Proof.
  induction n as [|n IH]; intros in_text ws k; simpl; [reflexivity|].
  destruct (argmax _); [|reflexivity].
  destruct (word_for_id _ _); [|reflexivity].
  destruct (String.eqb _ _); [reflexivity|]. apply IH.
Qed.

Lemma insert_desc_map {A B : Type} (f : A -> B) (key : B -> Q) x l :
  map f (insert_desc (fun a => key (f a)) x l)
  = insert_desc key (f x) (map f l).
Proof.
  induction l as [|y l IH]; simpl; [reflexivity|].
  destruct (Qltb (key (f x)) (key (f y))); simpl; [now rewrite IH|].
  reflexivity.
Qed.

Lemma sort_desc_map {A B : Type} (f : A -> B) (key : B -> Q) l :
  map f (sort_desc (fun a => key (f a)) l) = sort_desc key (map f l).
Proof.
  unfold sort_desc. induction l as [|x l IH]; simpl; [reflexivity|].
  now rewrite insert_desc_map, IH.
Qed.

Lemma expand_traced_erase c :
  map fst (expand_traced np_log tok predict L image_features beam_width c)
  = expand np_log tok predict L image_features beam_width (fst c).
Proof.
  destruct c as [[seq score] k]. simpl.
  destruct (finished tok L seq); [reflexivity|].
  rewrite map_map. reflexivity.
Qed.

Lemma flat_map_expand_erase sequences :
  map fst (flat_map (expand_traced np_log tok predict L image_features
                                   beam_width) sequences)
  = flat_map (expand np_log tok predict L image_features beam_width)
             (map fst sequences).
Proof.
  induction sequences as [|c cs IH]; [reflexivity|].
  cbn [flat_map map]. rewrite map_app, expand_traced_erase.
  f_equal. exact IH.
Qed.

Lemma beam_step_traced_erase sequences :
  map fst (beam_step_traced np_log tok predict L image_features
                            beam_width sequences)
  = beam_step np_log tok predict L image_features beam_width
              (map fst sequences).
Proof.
  unfold beam_step_traced, beam_step.
  rewrite <- firstn_map.
  rewrite (sort_desc_map (@fst candidate nat) snd).
  now rewrite flat_map_expand_erase.
Qed.

Lemma beam_loop_traced_erase n :
  forall sequences history k,
    map fst (fst (fst (beam_loop_traced np_log tok predict L
                         image_features beam_width n sequences history k)))
    = beam_loop np_log tok predict L image_features beam_width n
                (map fst sequences).
Proof.
  induction n as [|n IH]; intros sequences history k; simpl;
    [reflexivity|].
  rewrite <- beam_step_traced_erase.
  destruct (all_ended tok _); [reflexivity | apply IH].
Qed.

Lemma beam_search_traced_outcome :
  outcome (beam_search_traced np_log tok predict L image_features
                              beam_width)
  = beam_search np_log tok predict L image_features beam_width.
Proof.
  unfold beam_search_traced, beam_search.
  pose proof (beam_loop_traced_erase L [([start_token tok], 0, 0%nat)]
                [([start_token tok], 0, 0%nat)] 0%nat) as H.
  simpl map in H.
  destruct (beam_loop_traced _ _ _ _ _ _ _ _ _ _) as [[sequences history] k].
  simpl in H.
  match goal with
  | |- _ = match ?X with _ => _ end =>
      replace X with (map fst sequences) by exact H
  end.
  destruct sequences as [|[[best s] j] rest]; reflexivity.
Qed.

End TraceErasure.

Lemma generate_caption_simple_traced_outcome self image_features :
  outcome (generate_caption_simple_traced self image_features)
  = generate_caption_simple self image_features.
Proof.
  unfold generate_caption_simple_traced, generate_caption_simple.
  destruct (model self) as [predict|]; [|reflexivity].
  destruct (tokenizer self) as [tok|]; [|reflexivity].
  rewrite <- (greedy_loop_traced_outcome tok predict (max_length self)
                image_features (max_length self) "startseq" [] 0%nat).
  destruct (greedy_loop_traced _ _ _ _ _ _ _ _) as [[r ws] k]. simpl.
  destruct r; reflexivity.
Qed.

Lemma generate_caption_beam_search_traced_outcome
      np_log self image_features beam_width :
  outcome (generate_caption_beam_search_traced np_log self image_features
                                               beam_width)
  = generate_caption_beam_search np_log self image_features beam_width.
Proof.
  unfold generate_caption_beam_search_traced, generate_caption_beam_search.
  destruct (model self) as [predict|]; [|reflexivity].
  destruct (tokenizer self) as [tok|]; [|reflexivity].
  apply beam_search_traced_outcome.
Qed.

(** *** Sorting and slicing *)

Section SortFacts.

Context {A : Type}.
Variable key : A -> Q.

Lemma in_insert_desc x l y :
  In y (insert_desc key x l) <-> y = x \/ In y l.
Proof.
  induction l as [|z l IH]; simpl.
  - intuition.
  - destruct (Qltb (key x) (key z)); simpl; rewrite ?IH; intuition.
Qed.

Lemma in_sort_desc l y : In y (sort_desc key l) <-> In y l.
Proof.
  unfold sort_desc. induction l as [|x l IH]; simpl; [tauto|].
  rewrite in_insert_desc, IH. intuition.
Qed.

Lemma length_insert_desc x l :
  List.length (insert_desc key x l) = S (List.length l).
Proof.
  induction l as [|z l IH]; simpl; [reflexivity|].
  destruct (Qltb (key x) (key z)); simpl; [now rewrite IH | reflexivity].
Qed.

Lemma length_sort_desc l :
  List.length (sort_desc key l) = List.length l.
Proof.
  unfold sort_desc. induction l as [|x l IH]; simpl; [reflexivity|].
  now rewrite length_insert_desc, IH.
Qed.

(** An element whose key is strictly above all others comes first. *)
Lemma sort_desc_winner l1 h l2 :
  (forall y, In y (l1 ++ l2) -> key y < key h) ->
  exists rest,
    sort_desc key (l1 ++ h :: l2) = h :: rest /\
    forall y, In y rest <-> In y (l1 ++ l2).
Proof.
  unfold sort_desc. induction l1 as [|x l1 IH]; intros Hlt; simpl.
  - exists (fold_right (insert_desc key) [] l2). split.
    + destruct (fold_right (insert_desc key) [] l2) as [|z r] eqn:E;
        [reflexivity|].
      simpl. assert (Hz : In z l2).
      { apply in_sort_desc. unfold sort_desc. rewrite E. now left. }
      apply Hlt in Hz.
      destruct (Qltb (key h) (key z)) eqn:E'; [|reflexivity].
      apply Qltb_true in E'. exfalso.
      exact (Qlt_irrefl _ (Qlt_trans _ _ _ Hz E')).
    + intros y. apply in_sort_desc.
  - destruct IH as [rest [E Hrest]].
    { intros y Hy. apply Hlt. now right. }
    rewrite E. simpl.
    assert (Hx : Qltb (key x) (key h) = true).
    { apply Qltb_true. apply Hlt. now left. }
    rewrite Hx. exists (insert_desc key x rest). split; [reflexivity|].
    intros y. rewrite in_insert_desc, Hrest. intuition.
Qed.

End SortFacts.

Lemma in_firstn {A : Type} n (l : list A) x : In x (firstn n l) -> In x l.
Proof.
  revert l. induction n as [|n IH]; intros [|y l]; simpl; try tauto.
  intros [H|H]; auto.
Qed.

Lemma length_enumerate_from {A : Type} (l : list A) k :
  List.length (enumerate_from k l) = List.length l.
Proof. revert k. induction l; intros k; simpl; auto. Qed.

Lemma length_insert_asc iv l :
  List.length (insert_asc iv l) = S (List.length l).
Proof.
  induction l as [|z l IH]; simpl; [reflexivity|].
  destruct (Qltb (snd z) (snd iv)); simpl; [now rewrite IH | reflexivity].
Qed.

Lemma length_argsort l : List.length (argsort l) = List.length l.
Proof.
  unfold argsort, enumerate. rewrite length_map.
  rewrite <- (length_enumerate_from l 0). generalize (enumerate_from 0 l).
  induction l0 as [|x l0 IH]; simpl; [reflexivity|].
  now rewrite length_insert_asc, IH.
Qed.

Lemma slice_last_nonempty {A : Type} n (l : list A) :
  (1 <= n)%nat -> l <> [] -> slice_last n l <> [].
Proof.
  intros Hn Hl. unfold slice_last. destruct n as [|n]; [lia|].
  intros E. apply (f_equal (@List.length A)) in E.
  rewrite length_skipn in E. destruct l; [congruence|].
  cbn [List.length] in E. lia.
Qed.

(** *** Greedy search: what the loop returns *)

Lemma in_text_of_snoc ws w :
  in_text_of (ws ++ [w]) = (in_text_of ws ++ " " ++ w)%string.
Proof. unfold in_text_of. now rewrite fold_left_app. Qed.

Section GreedyFacts.

Variable tok : Tokenizer.
Variable predict : Model.
Variable L : nat.
Variable image_features : FeatureVector.

Lemma greedy_loop_traced_bounds n :
  forall in_text ws k r ws' k',
    greedy_loop_traced tok predict L image_features n in_text ws k
    = (r, ws', k') ->
    (List.length ws' <= List.length ws + n)%nat /\
    (k' <= k + n)%nat /\
    (in_text = in_text_of ws ->
     forall t, r = Ok t -> t = in_text_of ws').
Proof.
  induction n as [|n IH]; intros in_text ws k r ws' k' H; simpl in H.
  - inversion H; subst. repeat split; try lia.
    intros E t Ht. inversion Ht. now subst.
  - destruct (argmax _) as [p|].
    2:{ inversion H; subst. repeat split; try lia. discriminate. }
    destruct (word_for_id p tok) as [w|].
    2:{ inversion H; subst. repeat split; try lia.
        intros E t Ht. inversion Ht. now subst. }
    destruct (String.eqb w "endseq").
    { inversion H; subst. repeat split; try lia.
      intros E t Ht. inversion Ht. now subst. }
    apply IH in H. destruct H as (H1 & H2 & H3).
    rewrite length_app in H1. simpl in H1.
    repeat split; try lia.
    intros E. apply H3. rewrite in_text_of_snoc. now rewrite E.
Qed.

(** The loop raises only when the network answers with an empty
    distribution. *)
Lemma greedy_loop_returns n :
  (forall s, predict image_features s <> []) ->
  forall in_text,
  exists t, greedy_loop tok predict L image_features n in_text = Ok t.
Proof.
  intros Hne. induction n as [|n IH]; intros in_text; cbn [greedy_loop].
  - now exists in_text.
  - destruct (predict image_features _) as [|x l] eqn:E.
    + exfalso. exact (Hne _ E).
    + cbn [argmax].
      destruct (word_for_id (argmax_from 0 x 1 l) tok) as [w|].
      * destruct (String.eqb w "endseq"); [now exists in_text | apply IH].
      * now exists in_text.
Qed.

Lemma greedy_loop_not_NotLoaded n :
  forall in_text,
    greedy_loop tok predict L image_features n in_text <> Raise NotLoaded.
Proof.
  induction n as [|n IH]; intros in_text; simpl; [discriminate|].
  destruct (argmax _); [|discriminate].
  destruct (word_for_id _ tok) as [w|]; [|discriminate].
  destruct (String.eqb w "endseq"); [discriminate | apply IH].
Qed.

End GreedyFacts.

(** *** Beam search: the shape of every candidate *)

Section BeamFacts.

Variable np_log : Q -> Q.
Variable tok : Tokenizer.
Variable predict : Model.
Variable L : nat.
Variable image_features : FeatureVector.
Variable beam_width : nat.

Lemma expand_traced_shaped c :
  (well_shaped tok L) c ->
  Forall (well_shaped tok L)
         (expand_traced np_log tok predict L image_features beam_width c).
Proof.
  destruct c as [[seq score] k]. intros [[rest [E Hk]] Hlen].
  unfold expand_traced. destruct (finished tok L seq) eqn:F.
  - constructor; [|constructor]. split; [now exists rest | exact Hlen].
  - apply Forall_forall. intros c Hc. apply in_map_iff in Hc.
    destruct Hc as [idx [<- _]]. unfold finished in F.
    apply orb_false_elim in F. destruct F as [F _].
    apply Nat.leb_gt in F. split.
    + exists (rest ++ [idx]). subst seq. split; [reflexivity|].
      rewrite length_app. cbn [List.length]. lia.
    + rewrite length_app. cbn [List.length]. lia.
Qed.

Lemma flat_map_expand_shaped sequences :
  Forall (well_shaped tok L) sequences ->
  Forall (well_shaped tok L)
         (flat_map (expand_traced np_log tok predict L image_features
                                  beam_width) sequences).
Proof.
  induction 1 as [|c cs Hc _ IH]; simpl; [constructor|].
  apply Forall_app. split; [now apply expand_traced_shaped | exact IH].
Qed.

Lemma beam_step_traced_shaped sequences :
  Forall (well_shaped tok L) sequences ->
  Forall (well_shaped tok L)
         (beam_step_traced np_log tok predict L image_features beam_width
                           sequences).
Proof.
  intros H. apply flat_map_expand_shaped in H.
  rewrite Forall_forall in *. intros c Hc. apply H.
  unfold beam_step_traced in Hc. apply in_firstn in Hc.
  now apply in_sort_desc in Hc.
Qed.

Lemma beam_loop_traced_shaped n :
  forall sequences history k sequences' history' k',
    beam_loop_traced np_log tok predict L image_features beam_width
                     n sequences history k
    = (sequences', history', k') ->
    Forall (well_shaped tok L) sequences -> Forall (well_shaped tok L) history ->
    Forall (well_shaped tok L) sequences' /\ Forall (well_shaped tok L) history'.
Proof.
  induction n as [|n IH]; intros sequences history k sequences' history' k'
                                 H Hs Hh; simpl in H.
  - inversion H; subst. now split.
  - assert (Hh' : Forall (well_shaped tok L)
                    (history ++ flat_map
                       (expand_traced np_log tok predict L image_features
                                      beam_width) sequences)).
    { apply Forall_app. split; [exact Hh|].
      now apply flat_map_expand_shaped. }
    pose proof (beam_step_traced_shaped sequences Hs) as Hs'.
    destruct (all_ended tok _).
    + inversion H; subst. now split.
    + exact (IH _ _ _ _ _ _ H Hs' Hh').
Qed.

(** With a positive beam width and non-empty distributions the frontier
    never becomes empty. *)
Lemma expand_traced_nonempty c :
  (1 <= beam_width)%nat ->
  (forall s, predict image_features s <> []) ->
  expand_traced np_log tok predict L image_features beam_width c <> [].
Proof.
  intros Hbw Hne. destruct c as [[seq score] k]. unfold expand_traced.
  destruct (finished tok L seq); [discriminate|].
  intros E. apply map_eq_nil in E. revert E.
  apply slice_last_nonempty; [exact Hbw|].
  intros E. apply (f_equal (@List.length nat)) in E.
  rewrite length_argsort in E. apply length_zero_iff_nil in E.
  exact (Hne _ E).
Qed.

Lemma beam_step_traced_nonempty sequences :
  (1 <= beam_width)%nat ->
  (forall s, predict image_features s <> []) ->
  sequences <> [] ->
  beam_step_traced np_log tok predict L image_features beam_width
                   sequences <> [].
Proof.
  intros Hbw Hne Hs E. apply (f_equal (@List.length tcandidate)) in E.
  unfold beam_step_traced in E.
  rewrite length_firstn, length_sort_desc in E.
  destruct sequences as [|c cs]; [congruence|]. simpl flat_map in E.
  rewrite length_app in E.
  pose proof (expand_traced_nonempty c Hbw Hne) as Hc.
  destruct (expand_traced _ _ _ _ _ _ c); [congruence|].
  simpl in E. lia.
Qed.

Lemma beam_loop_traced_nonempty n :
  (1 <= beam_width)%nat ->
  (forall s, predict image_features s <> []) ->
  forall sequences history k,
    sequences <> [] ->
    fst (fst (beam_loop_traced np_log tok predict L image_features
                               beam_width n sequences history k)) <> [].
Proof.
  intros Hbw Hne. induction n as [|n IH]; intros sequences history k Hs;
    simpl; [exact Hs|].
  pose proof (beam_step_traced_nonempty sequences Hbw Hne Hs) as Hs'.
  destruct (all_ended tok _); [exact Hs' | now apply IH].
Qed.

Lemma length_caption_words seq :
  (List.length (caption_words tok seq) <= List.length seq)%nat.
Proof.
  induction seq as [|i seq IH]; simpl; [lia|].
  destruct (word_for_id i tok) as [w|]; simpl; [|lia].
  destruct (String.eqb w "endseq"); simpl; [lia|].
  destruct (String.eqb w "startseq"); simpl; lia.
Qed.

End BeamFacts.

(** *** Strings: removing the start token *)

Lemma string_app_assoc (a b c : string) :
  ((a ++ b) ++ c = a ++ (b ++ c))%string.
Proof. induction a as [|x a IH]; simpl; [reflexivity | now rewrite IH]. Qed.

Lemma string_app_nil_r (a : string) : (a ++ "" = a)%string.
Proof. induction a as [|x a IH]; simpl; [reflexivity | now rewrite IH]. Qed.

Lemma in_text_of_tail ws :
  in_text_of ws = ("startseq" ++ tail_text ws)%string.
Proof.
  unfold in_text_of. generalize "startseq" as s.
  induction ws as [|w ws IH]; intros s; cbn [fold_left tail_text fold_right].
  - now rewrite string_app_nil_r.
  - rewrite IH. fold (tail_text ws). now rewrite !string_app_assoc.
Qed.

Lemma remove_leading_start (r : string) :
  remove "startseq" ("startseq" ++ r) = remove "startseq" r.
Proof. unfold remove. cbn. destruct r; reflexivity. Qed.

Lemma lstrip_remove_all_start ws :
  Forall (eq "startseq") ws ->
  lstrip (remove "startseq" (tail_text ws)) = "".
Proof.
  induction 1 as [|w ws <- _ IH]; [reflexivity|].
  cbn [tail_text fold_right]. fold (tail_text ws).
  assert (E : remove "startseq" (" " ++ "startseq" ++ tail_text ws)
              = String " " (remove "startseq" (tail_text ws))).
  { unfold remove. cbn. destruct (tail_text ws); reflexivity. }
  rewrite E. exact IH.
Qed.

Lemma strip_remove_all_start ws :
  Forall (eq "startseq") ws ->
  strip (remove "startseq" (in_text_of ws)) = "".
Proof.
  intros H. rewrite in_text_of_tail, remove_leading_start. unfold strip.
  now rewrite lstrip_remove_all_start.
Qed.

(** *** Failure modes *)

(** C7: each decoding method raises its "must be loaded first" error if
    and only if the model (stepping function) or the tokenizer
    (vocabulary) is absent, and in that case no call to the network has
    been made.  (The only other failures are [np.argmax] on an empty
    distribution in greedy mode and indexing an empty frontier in beam
    mode; they are different errors.) *)
Theorem C7_not_loaded :
  forall np_log self image_features beam_width,
    (generate_caption_simple self image_features = Raise NotLoaded
     <-> (model self = None \/ tokenizer self = None))
    /\
    (generate_caption_beam_search np_log self image_features beam_width
     = Raise NotLoaded
     <-> (model self = None \/ tokenizer self = None))
    /\
    (model self = None \/ tokenizer self = None ->
     calls (generate_caption_simple_traced self image_features) = 0%nat /\
     calls (generate_caption_beam_search_traced np_log self image_features
                                                beam_width) = 0%nat).
Proof.
  intros np_log self f bw.
  unfold generate_caption_simple, generate_caption_beam_search,
    generate_caption_simple_traced, generate_caption_beam_search_traced.
  destruct (model self) as [predict|], (tokenizer self) as [tok|];
    try (repeat split; auto; fail).
  split; [|split].
  - split; [|intros [H|H]; discriminate H].
    intros H. exfalso.
    pose proof (greedy_loop_not_NotLoaded tok predict (max_length self) f
                  (max_length self) "startseq") as Hn.
    destruct (greedy_loop _ _ _ _ _ _) as [t|e]; [discriminate|].
    inversion H; subst. now apply Hn.
  - split; [|intros [H|H]; discriminate H].
    unfold beam_search. destruct (beam_loop _ _ _ _ _ _ _ _) as [|[s q] r];
      discriminate.
  - intros [H|H]; discriminate H.
Qed.

Lemma C7_witness :
  (model (mkImageCaptionModel 5 (Some small_tokenizer) None) = None \/
   tokenizer (mkImageCaptionModel 5 (Some small_tokenizer) None) = None) /\
  generate_caption_simple
    (mkImageCaptionModel 5 (Some small_tokenizer) None) [] = Raise NotLoaded
  /\
  calls (generate_caption_simple_traced
           (mkImageCaptionModel 5 (Some small_tokenizer) None) []) = 0%nat /\
  calls (generate_caption_beam_search_traced log_tangent
           (mkImageCaptionModel 5 (Some small_tokenizer) None) [] 3) = 0%nat.
Proof.
  assert (H : model (mkImageCaptionModel 5 (Some small_tokenizer) None)
              = None \/
              tokenizer (mkImageCaptionModel 5 (Some small_tokenizer) None)
              = None) by (left; reflexivity).
  split; [exact H|]. split.
  - exact (proj2 (proj1 (C7_not_loaded log_tangent
             (mkImageCaptionModel 5 (Some small_tokenizer) None) [] 3)) H).
  - exact (proj2 (proj2 (C7_not_loaded log_tangent
             (mkImageCaptionModel 5 (Some small_tokenizer) None) [] 3)) H).
Defined.

(** *** Length and call budget *)

Lemma greedy_traced_budget self image_features :
  let g := generate_caption_simple_traced self image_features in
  (List.length (words g) <= max_length self)%nat /\
  (calls g <= max_length self)%nat /\
  Forall (fun k => (k <= max_length self)%nat) (lineages g) /\
  forall c, outcome g = Ok c ->
            c = strip (remove "startseq" (in_text_of (words g))).
Proof.
  unfold generate_caption_simple_traced.
  destruct (model self) as [predict|].
  2:{ simpl. repeat split; try lia; [constructor | discriminate]. }
  destruct (tokenizer self) as [tok|].
  2:{ simpl. repeat split; try lia; [constructor | discriminate]. }
  destruct (greedy_loop_traced _ _ _ _ _ _ _ _) as [[r ws] k] eqn:E.
  apply greedy_loop_traced_bounds in E. destruct E as (H1 & H2 & H3).
  simpl in H1, H2. specialize (H3 eq_refl).
  destruct r as [t|e]; simpl.
  - repeat split; try assumption.
    + constructor; [exact H2 | constructor].
    + intros c Hc. inversion Hc. now rewrite (H3 t eq_refl).
  - repeat split; try assumption.
    + constructor; [exact H2 | constructor].
    + discriminate.
Qed.

Lemma well_shaped_calls tok L c :
  well_shaped tok L c -> (snd c <= L)%nat.
Proof.
  destruct c as [[seq score] k]. intros [[rest [-> Hk]] Hlen].
  cbn [snd List.length] in *. lia.
Qed.

Lemma well_shaped_words tok L c :
  well_shaped tok L c ->
  ((0 < L)%nat \/ has_start tok) ->
  (List.length (caption_words tok (fst (fst c))) <= L)%nat.
Proof.
  destruct c as [[seq score] k]. intros [[rest [-> Hk]] Hlen] H.
  cbn [fst]. destruct H as [H|H].
  - pose proof (length_caption_words tok (start_token tok :: rest)).
    cbn [List.length] in *. lia.
  - unfold has_start in H.
    replace (caption_words tok (start_token tok :: rest))
      with (caption_words tok rest)
      by (cbn [caption_words]; rewrite H; reflexivity).
    pose proof (length_caption_words tok rest).
    cbn [List.length] in Hlen. lia.
Qed.

Lemma beam_traced_budget np_log tok predict L image_features beam_width :
  let b := beam_search_traced np_log tok predict L image_features
                              beam_width in
  Forall (fun k => (k <= L)%nat) (lineages b) /\
  (forall c, outcome b = Ok c -> c = join (words b)) /\
  ((0 < L)%nat \/ has_start tok -> (List.length (words b) <= L)%nat).
Proof.
  unfold beam_search_traced.
  assert (Hstart : well_shaped tok L ([start_token tok], 0, 0%nat)).
  { split; [now exists [] | cbn [List.length]; lia]. }
  destruct (beam_loop_traced _ _ _ _ _ _ _ _ _ _)
    as [[sequences history] k] eqn:E.
  apply beam_loop_traced_shaped in E;
    [|constructor; [exact Hstart | constructor] ..].
  destruct E as [Hs Hh].
  assert (Hl : Forall (fun k => (k <= L)%nat) (map snd history)).
  { apply Forall_map. revert Hh. apply Forall_impl.
    intros c. apply well_shaped_calls. }
  destruct sequences as [|[[best s] j] rest]; simpl.
  - repeat split; [exact Hl | discriminate | lia].
  - repeat split; [exact Hl | now intros c [= <-] |].
    inversion Hs as [|? ? Hbest _]; subst.
    exact (well_shaped_words tok L _ Hbest).
Qed.

(** C8: for every maximum length [L], feature vector, vocabulary and
    stepping function, the caption either method returns is built from at
    most [L] tokens, and the stepping function is called at most [L]
    times along the lineage of any candidate (the single sequence of
    greedy search; every candidate that beam search ever generates).
    For beam search with [L = 0] the token bound relies on the vocabulary
    containing the start token, as a vocabulary does. *)
Theorem C8_length_and_call_budget :
  forall np_log self image_features beam_width,
    let L := max_length self in
    let g := generate_caption_simple_traced self image_features in
    let b := generate_caption_beam_search_traced np_log self image_features
                                                 beam_width in
    ((List.length (words g) <= L)%nat /\
     (calls g <= L)%nat /\
     Forall (fun k => (k <= L)%nat) (lineages g) /\
     forall c, generate_caption_simple self image_features = Ok c ->
               c = strip (remove "startseq" (in_text_of (words g))))
    /\
    (Forall (fun k => (k <= L)%nat) (lineages b) /\
     (forall c,
         generate_caption_beam_search np_log self image_features beam_width
         = Ok c -> c = join (words b)) /\
     ((0 < L)%nat \/
      (forall tok, tokenizer self = Some tok -> has_start tok) ->
      (List.length (words b) <= L)%nat)).
Proof.
  intros np_log self f bw L g b. split.
  - rewrite <- generate_caption_simple_traced_outcome.
    exact (greedy_traced_budget self f).
  - rewrite <- (generate_caption_beam_search_traced_outcome np_log self f bw).
    subst b L. unfold generate_caption_beam_search_traced.
    destruct (model self) as [predict|].
    2:{ simpl. repeat split; [constructor | discriminate | lia]. }
    destruct (tokenizer self) as [tok|].
    2:{ simpl. repeat split; [constructor | discriminate | lia]. }
    destruct (beam_traced_budget np_log tok predict (max_length self) f bw)
      as (H1 & H2 & H3).
    repeat split; [exact H1 | exact H2 |].
    intros [H|H]; apply H3; [now left | right; now apply H].
Qed.

Lemma C8_witness :
  ((0 < max_length (loaded 2 small_tokenizer always_a))%nat \/
   (forall tok,
       tokenizer (loaded 2 small_tokenizer always_a) = Some tok ->
       has_start tok)) /\
  generate_caption_simple (loaded 2 small_tokenizer always_a) [] = Ok "a a"
  /\
  "a a" = strip (remove "startseq"
                   (in_text_of
                      (words (generate_caption_simple_traced
                                (loaded 2 small_tokenizer always_a) [])))) /\
  (List.length
     (words (generate_caption_beam_search_traced log_tangent
               (loaded 2 small_tokenizer always_a) [] 3)) <= 2)%nat.
Proof.
  assert (H0 : (0 < max_length (loaded 2 small_tokenizer always_a))%nat
               \/ (forall tok,
                      tokenizer (loaded 2 small_tokenizer always_a)
                      = Some tok -> has_start tok))
    by (left; simpl; lia).
  assert (H1 : generate_caption_simple (loaded 2 small_tokenizer always_a) []
               = Ok "a a") by (vm_compute; reflexivity).
  split; [exact H0|]. split; [exact H1|].
  pose proof (C8_length_and_call_budget log_tangent
                (loaded 2 small_tokenizer always_a) [] 3) as H.
  cbv zeta in H. destruct H as [(_ & _ & _ & Hg) (_ & _ & Hb)].
  split; [exact (Hg "a a" H1) | exact (Hb H0)].
Defined.

(** *** Empty captions *)

(** C2 as stated fails: with a network that always answers END the
    decoded sequence has no word, and both methods return the empty
    caption; neither raises. *)
Lemma C2_counterexample :
  words (generate_caption_simple_traced
           (loaded 5 small_tokenizer always_end) []) = [] /\
  generate_caption_simple (loaded 5 small_tokenizer always_end) [] = Ok ""
  /\
  words (generate_caption_beam_search_traced log_tangent
           (loaded 5 small_tokenizer always_end) [] 1) = [] /\
  generate_caption_beam_search log_tangent
    (loaded 5 small_tokenizer always_end) [] 1 = Ok "" /\
  ~ (exists e,
        generate_caption_simple (loaded 5 small_tokenizer always_end) []
        = Raise e \/
        generate_caption_beam_search log_tangent
          (loaded 5 small_tokenizer always_end) [] 1 = Raise e).
Proof.
  repeat split; try (vm_compute; reflexivity).
  intros [e [H|H]]; vm_compute in H; discriminate H.
Qed.

(** C2, amended: with model and tokenizer loaded, a network that answers
    with non-empty distributions and a beam width of at least 1, both
    methods return a caption and do not fail; when the decoded sequence
    contains zero words once the control tokens are stripped (greedy: every
    appended token is ['startseq']; beam search: no word is kept), the
    caption returned is the empty string.  There is no failure for an
    empty output. *)
Theorem C2_empty_caption_is_returned :
  forall np_log tok predict L image_features beam_width,
    (forall s, predict image_features s <> []) ->
    (1 <= beam_width)%nat ->
    let self := loaded L tok predict in
    (exists c,
        generate_caption_simple self image_features = Ok c /\
        (Forall (eq "startseq")
                (words (generate_caption_simple_traced self image_features))
         -> c = ""))
    /\
    (exists c,
        generate_caption_beam_search np_log self image_features beam_width
        = Ok c /\
        (words (generate_caption_beam_search_traced np_log self
                  image_features beam_width) = []
         -> c = "")).
Proof.
  intros np_log tok predict L f bw Hne Hbw self. split.
  - destruct (greedy_traced_budget self f) as (_ & _ & _ & Hc).
    rewrite generate_caption_simple_traced_outcome in Hc.
    destruct (greedy_loop_returns tok predict L f L Hne "startseq")
      as [t Ht].
    assert (E : generate_caption_simple self f
                = Ok (strip (remove "startseq" t))).
    { unfold generate_caption_simple, self, loaded. simpl. now rewrite Ht. }
    exists (strip (remove "startseq" t)). split; [exact E|].
    intros Hall. rewrite (Hc _ E). now apply strip_remove_all_start.
  - rewrite <- (generate_caption_beam_search_traced_outcome np_log self f bw).
    unfold generate_caption_beam_search_traced, self, loaded. simpl.
    unfold beam_search_traced.
    pose proof (beam_loop_traced_nonempty np_log tok predict L f bw L
                  Hbw Hne [([start_token tok], 0, 0%nat)]
                  [([start_token tok], 0, 0%nat)] 0%nat) as Hn.
    destruct (beam_loop_traced _ _ _ _ _ _ _ _ _ _)
      as [[sequences history] k].
    simpl in Hn. destruct sequences as [|[[best s] j] rest].
    + exfalso. now apply Hn.
    + simpl. exists (join (caption_words tok best)). split; [reflexivity|].
      now intros ->.
Qed.

Lemma always_end_nonempty : forall s : list nat, always_end [] s <> [].
Proof. intros s. discriminate. Qed.

Lemma C2_witness :
  (1 <= 3)%nat /\
  exists c,
    generate_caption_beam_search log_tangent
      (loaded 5 small_tokenizer always_end) [] 3 = Ok c /\
    (words (generate_caption_beam_search_traced log_tangent
              (loaded 5 small_tokenizer always_end) [] 3) = [] -> c = "").
Proof.
  assert (H : (1 <= 3)%nat) by lia.
  split; [exact H|].
  exact (proj2 (C2_empty_caption_is_returned log_tangent small_tokenizer
                  always_end 5 [] 3 always_end_nonempty H)).
Defined.

(** *** A network that always answers END *)

Section OneHot.

Variable e : nat.

Lemma one_hot_eq n : one_hot n e = map (hot e) (seq 0 n).
Proof. reflexivity. Qed.

Lemma hot_at : hot e e = 1.
Proof. unfold hot. now rewrite Nat.eqb_refl. Qed.

Lemma hot_off i : i <> e -> hot e i = 0.
Proof.
  intros H. unfold hot. destruct (Nat.eqb_spec i e); [contradiction|].
  reflexivity.
Qed.

Lemma nth_one_hot_at n : (e < n)%nat -> nth e (one_hot n e) 0 = 1.
Proof.
  intros H. rewrite one_hot_eq, <- (hot_off (S e)) by lia.
  rewrite map_nth, seq_nth by exact H. apply hot_at.
Qed.

Lemma nth_one_hot_off n i : i <> e -> nth i (one_hot n e) 0 = 0.
Proof.
  intros H. rewrite one_hot_eq, <- (hot_off (S e)) by lia.
  rewrite map_nth. destruct (Nat.lt_ge_cases i n) as [Hi|Hi].
  - rewrite seq_nth by exact Hi. simpl. now rewrite !hot_off by lia.
  - rewrite nth_overflow by (rewrite length_seq; exact Hi).
    reflexivity.
Qed.

(** [np.argmax] of the one-hot distribution is its hot index. *)
Lemma argmax_from_zeros m : forall k bi b,
  0 <= b -> (e < k)%nat ->
  argmax_from bi b k (map (hot e) (seq k m)) = bi.
Proof.
  induction m as [|m IH]; intros k bi b Hb Hk; simpl; [reflexivity|].
  rewrite hot_off by lia.
  assert (E : Qltb b 0 = false) by (now apply Qltb_false).
  rewrite E. apply IH; [exact Hb | lia].
Qed.

Lemma argmax_from_hot m : forall k bi,
  (k <= e < k + m)%nat ->
  argmax_from bi 0 k (map (hot e) (seq k m)) = e.
Proof.
  induction m as [|m IH]; intros k bi Hk; simpl; [lia|].
  destruct (Nat.eq_dec k e) as [Heq|Hne].
  - subst k. rewrite hot_at. change (Qltb 0 1) with true. cbn iota.
    apply argmax_from_zeros; [discriminate | lia].
  - rewrite hot_off by exact Hne. change (Qltb 0 0) with false. cbn iota.
    apply IH. lia.
Qed.

Lemma argmax_one_hot n : (e < n)%nat -> argmax (one_hot n e) = Some e.
Proof.
  intros H. rewrite one_hot_eq. destruct n as [|n]; [lia|].
  cbn [seq map argmax]. f_equal.
  destruct (Nat.eq_dec 0 e) as [Heq|Hne].
  - assert (E : hot e 0 = 1) by (unfold hot; now rewrite <- Heq).
    rewrite E. transitivity 0%nat; [|exact Heq].
    apply argmax_from_zeros; [discriminate | lia].
  - rewrite hot_off by exact Hne. apply argmax_from_hot. lia.
Qed.

(** [np.argsort] of the one-hot distribution ends with the hot index,
    and no other index in it is hot. *)
Lemma enumerate_from_map k m :
  enumerate_from k (map (hot e) (seq k m)) = map (fun i => (i, hot e i)) (seq k m).
Proof.
  revert k. induction m as [|m IH]; intros k; simpl; [reflexivity|].
  now rewrite IH.
Qed.

Lemma insert_asc_under iv m r :
  snd iv < snd m ->
  exists r', insert_asc iv (r ++ [m]) = r' ++ [m] /\
             forall z, In z r' <-> z = iv \/ In z r.
Proof.
  intros Hlt. induction r as [|z r IH]; simpl.
  - assert (E : Qltb (snd m) (snd iv) = false).
    { apply Qltb_false. now apply Qlt_le_weak. }
    rewrite E. exists [iv]. split; [reflexivity|]. simpl. intuition.
  - destruct (Qltb (snd z) (snd iv)).
    + destruct IH as [r' [E Hr']]. rewrite E. exists (z :: r').
      split; [reflexivity|]. intros y. simpl. rewrite Hr'. intuition.
    + exists (iv :: z :: r). split; [reflexivity|]. intros y. simpl.
      intuition.
Qed.

Lemma insert_asc_top iv r :
  (forall z, In z r -> snd z < snd iv) ->
  insert_asc iv r = r ++ [iv].
Proof.
  induction r as [|z r IH]; intros H; simpl; [reflexivity|].
  assert (E : Qltb (snd z) (snd iv) = true).
  { apply Qltb_true. apply H. now left. }
  rewrite E, IH; [reflexivity|]. intros y Hy. apply H. now right.
Qed.

Lemma in_sort_asc l z :
  In z (fold_right insert_asc [] l) <-> In z l.
Proof.
  induction l as [|x l IH]; simpl; [tauto|].
  assert (G : forall r, In z (insert_asc x r) <-> z = x \/ In z r).
  { induction r as [|y r IHr]; simpl; [intuition|].
    destruct (Qltb (snd y) (snd x)); simpl; rewrite ?IHr; intuition. }
  rewrite G, IH. intuition.
Qed.

Lemma sort_asc_top l1 m l2 :
  (forall z, In z (l1 ++ l2) -> snd z < snd m) ->
  exists r, fold_right insert_asc [] (l1 ++ m :: l2) = r ++ [m] /\
            forall z, In z r -> In z (l1 ++ l2).
Proof.
  induction l1 as [|x l1 IH]; intros H; simpl.
  - exists (fold_right insert_asc [] l2). split.
    + apply insert_asc_top. intros z Hz. apply H. now apply in_sort_asc.
    + intros z. apply in_sort_asc.
  - destruct IH as [r [E Hr]].
    { intros z Hz. apply H. now right. }
    rewrite E.
    destruct (insert_asc_under x m r) as [r' [E' Hr']].
    { apply H. now left. }
    exists r'. split; [exact E'|]. intros z Hz. apply Hr' in Hz.
    destruct Hz as [->|Hz]; [now left | right; now apply Hr].
Qed.

Lemma argsort_one_hot n :
  (e < n)%nat ->
  exists xs, argsort (one_hot n e) = xs ++ [e] /\
             forall x, In x xs -> x <> e.
Proof.
  intros H. unfold argsort, enumerate.
  rewrite one_hot_eq, enumerate_from_map.
  replace (seq 0 n) with (seq 0 e ++ e :: seq (S e) (n - S e)).
  2:{ change (e :: seq (S e) (n - S e)) with (seq e (S (n - S e))).
      rewrite <- seq_app. f_equal. lia. }
  rewrite map_app. cbn [map]. rewrite hot_at.
  set (h := fun i => (i, hot e i)).
  assert (Hoff : forall z,
             In z (map h (seq 0 e) ++ map h (seq (S e) (n - S e))) ->
             fst z <> e /\ snd z = 0).
  { intros z Hz. apply in_app_or in Hz.
    destruct Hz as [Hz|Hz]; apply in_map_iff in Hz;
      destruct Hz as [i [<- Hi]]; apply in_seq in Hi; simpl;
      (split; [lia | apply hot_off; lia]). }
  destruct (sort_asc_top (map h (seq 0 e)) (e, 1)
                         (map h (seq (S e) (n - S e)))) as [r [E Hr]].
  { intros z Hz. apply Hoff in Hz. destruct Hz as [_ ->]. reflexivity. }
  rewrite E, map_app. exists (map fst r). split; [reflexivity|].
  intros x Hx. apply in_map_iff in Hx. destruct Hx as [z [<- Hz]].
  apply Hr, Hoff in Hz. tauto.
Qed.

Lemma slice_last_snoc {A : Type} bw (xs : list A) (x : A) :
  (1 <= bw)%nat ->
  exists ys, slice_last bw (xs ++ [x]) = ys ++ [x] /\
             forall y, In y ys -> In y xs.
Proof.
  intros Hbw. unfold slice_last. destruct bw as [|bw]; [lia|].
  rewrite length_app. cbn [List.length].
  rewrite skipn_app.
  replace (List.length xs + 1 - S bw - List.length xs)%nat with 0%nat
    by lia.
  cbn [skipn]. exists (skipn (List.length xs + 1 - S bw) xs).
  split; [reflexivity|]. intros y Hy.
  rewrite <- (firstn_skipn (List.length xs + 1 - S bw) xs).
  apply in_or_app. now right.
Qed.

End OneHot.

Section AlwaysEnd.

Variable np_log : Q -> Q.
Variable tok : Tokenizer.
Variable predict : Model.
Variable L : nat.
Variable image_features : FeatureVector.
Variable beam_width : nat.
Variable n : nat.

Hypothesis Hstart : has_start tok.
Hypothesis Hend : has_end tok.
Hypothesis Hn : (end_token tok < n)%nat.
Hypothesis Hpredict :
  forall s, predict image_features s = one_hot n (end_token tok).

Lemma start_is_not_end : start_token tok <> end_token tok.
Proof.
  intros E. unfold has_start, has_end in *. rewrite E in Hstart.
  rewrite Hstart in Hend. discriminate Hend.
Qed.

Lemma caption_words_start_end :
  caption_words tok [start_token tok; end_token tok] = [].
Proof.
  cbn [caption_words]. unfold has_start, has_end in *.
  rewrite Hstart, Hend. reflexivity.
Qed.

Lemma caption_words_start : caption_words tok [start_token tok] = [].
Proof.
  cbn [caption_words]. unfold has_start in *. now rewrite Hstart.
Qed.

(** Greedy search stops at its first step. *)
Lemma greedy_always_end m in_text ws k :
  greedy_loop_traced tok predict L image_features m in_text ws k
  = (Ok in_text, ws, (k + Nat.min 1 m)%nat).
Proof.
  destruct m as [|m]; cbn [greedy_loop_traced Nat.min].
  - now rewrite Nat.add_0_r.
  - rewrite Hpredict, (argmax_one_hot _ _ Hn).
    unfold has_end in Hend. rewrite Hend.
    change ("endseq" =? "endseq")%string with true. cbn iota.
    now rewrite Nat.add_1_r.
Qed.

Hypothesis Hbw : (1 <= beam_width)%nat.
Hypothesis Hzero : log_zero np_log < 0.
Hypothesis Hone : 0 <= log_one np_log.

Let e := end_token tok.
Let expand := expand np_log tok predict L image_features beam_width.
Let beam_step := beam_step np_log tok predict L image_features beam_width.

(** The candidate an index gives rise to. *)
Lemma child_score score idx :
  (idx = e /\
   score + np_log (nth idx (one_hot n e) 0 + (1 # 100000000))
   = score + log_one np_log) \/
  (idx <> e /\
   score + np_log (nth idx (one_hot n e) 0 + (1 # 100000000))
   = score + log_zero np_log).
Proof.
  destruct (Nat.eq_dec idx e) as [->|Hne].
  - left. split; [reflexivity|]. unfold e.
    now rewrite (nth_one_hot_at _ _ Hn).
  - right. split; [exact Hne|]. now rewrite (nth_one_hot_off e n idx Hne).
Qed.

Lemma expand_loser c :
  loser np_log e c -> Forall (loser np_log e) (expand c).
Proof.
  destruct c as [seq s]. intros [H1 H2]. unfold expand, Decoder.expand.
  destruct (finished tok L seq) eqn:F.
  - constructor; [now split | constructor].
  - unfold finished in F. apply orb_false_elim in F.
    destruct F as [_ F]. apply Nat.eqb_neq in F. fold e in F.
    specialize (H2 F). rewrite Hpredict. fold e.
    apply Forall_forall. intros c Hc. apply in_map_iff in Hc.
    destruct Hc as [idx [<- _]]. unfold loser. rewrite last_last.
    destruct (child_score s idx) as [[Hi ->]|[Hi ->]]; split;
      intros Hidx; try contradiction; lra.
Qed.

Lemma expand_end_first s0 :
  expand ([start_token tok; e], s0) = [([start_token tok; e], s0)].
Proof.
  unfold expand, Decoder.expand, finished. cbn [last]. unfold e.
  now rewrite Nat.eqb_refl, orb_true_r.
Qed.

Lemma loser_below s0 c :
  log_one np_log <= s0 -> loser np_log e c -> snd c < s0.
Proof.
  destruct c as [seq s]. intros Hs [H1 H2]. simpl.
  destruct (Nat.eq_dec (last seq 0%nat) e) as [E|E].
  - specialize (H1 E). lra.
  - specialize (H2 E). lra.
Qed.

Lemma winner_frontier l1 h l2 s0 :
  h = ([start_token tok; e], s0) ->
  log_one np_log <= s0 ->
  Forall (loser np_log e) (l1 ++ l2) ->
  end_first np_log tok
            (firstn beam_width (sort_desc snd (l1 ++ h :: l2))).
Proof.
  intros -> Hs Hl. rewrite Forall_forall in Hl.
  destruct (sort_desc_winner snd l1 ([start_token tok; e], s0) l2)
    as [rest [E Hrest]].
  { intros c Hc. simpl. apply loser_below; [exact Hs | now apply Hl]. }
  match goal with
  | |- end_first _ _ (firstn _ ?X) =>
      replace X with (([start_token tok; e], s0) :: rest)
        by (symmetry; exact E)
  end.
  destruct beam_width as [|bw]; [lia|]. cbn [firstn].
  exists s0, (firstn bw rest). split; [reflexivity|]. split; [exact Hs|].
  apply Forall_forall. intros c Hc. apply Hl, Hrest.
  now apply in_firstn in Hc.
Qed.

Lemma beam_step_end_first frontier :
  end_first np_log tok frontier -> end_first np_log tok (beam_step frontier).
Proof.
  intros (s0 & rest & -> & Hs & Hrest).
  unfold beam_step, Decoder.beam_step. cbn [flat_map].
  fold expand. fold e. rewrite expand_end_first.
  apply (winner_frontier [] _ (flat_map expand rest) s0);
    [reflexivity | exact Hs |].
  cbn [app]. induction Hrest as [|c cs Hc _ IH]; cbn [flat_map];
    [constructor|].
  apply Forall_app. split; [now apply expand_loser | exact IH].
Qed.

Lemma beam_loop_end_first m :
  forall frontier,
    end_first np_log tok frontier ->
    end_first np_log tok
              (beam_loop np_log tok predict L image_features beam_width
                         m frontier).
Proof.
  induction m as [|m IH]; intros frontier H; cbn [beam_loop];
    [exact H|].
  apply beam_step_end_first in H. fold beam_step.
  destruct (all_ended tok (beam_step frontier)); [exact H | now apply IH].
Qed.

Lemma first_step_end_first :
  (2 <= L)%nat -> end_first np_log tok (beam_step [([start_token tok], 0)]).
Proof.
  intros HL. unfold beam_step, Decoder.beam_step. cbn [flat_map].
  rewrite app_nil_r. unfold Decoder.expand.
  assert (F : finished tok L [start_token tok] = false).
  { unfold finished. cbn [List.length last].
    apply orb_false_intro; [apply Nat.leb_gt; lia|].
    apply Nat.eqb_neq. exact start_is_not_end. }
  rewrite F, Hpredict.
  destruct (argsort_one_hot e n Hn) as [xs [Exs Hxs]]. fold e. rewrite Exs.
  destruct (slice_last_snoc beam_width xs e Hbw) as [ys [Eys Hys]].
  rewrite Eys, map_app. cbn [map].
  destruct (child_score 0 e) as [[_ ->]|[Hc _]];
    [|contradiction].
  apply (winner_frontier _ _ [] (0 + log_one np_log));
    [reflexivity | lra |].
  rewrite app_nil_r. apply Forall_forall. intros c Hc.
  apply in_map_iff in Hc. destruct Hc as [idx [<- Hidx]].
  apply Hys, Hxs in Hidx. unfold loser. cbn [app last].
  destruct (child_score 0 idx) as [[Hi _]|[_ ->]];
    [contradiction|].
  split; intros Hl; [contradiction | lra].
Qed.

Lemma beam_loop_short m :
  (L <= 1)%nat ->
  beam_loop np_log tok predict L image_features beam_width m
            [([start_token tok], 0)] = [([start_token tok], 0)].
Proof.
  intros HL.
  assert (E : beam_step [([start_token tok], 0)]
              = [([start_token tok], 0)]).
  { unfold beam_step, Decoder.beam_step. cbn [flat_map].
    unfold Decoder.expand.
    assert (F : finished tok L [start_token tok] = true).
    { unfold finished. cbn [List.length].
      apply orb_true_intro. left. apply Nat.leb_le. exact HL. }
    rewrite F. cbn [app sort_desc fold_right insert_desc].
    destruct beam_width as [|bw]; [lia|]. destruct bw; reflexivity. }
  induction m as [|m IH]; cbn [beam_loop]; [reflexivity|].
  fold beam_step. rewrite E.
  destruct (all_ended tok _); [reflexivity | exact IH].
Qed.

Lemma beam_loop_long m :
  (2 <= L)%nat -> (1 <= m)%nat ->
  end_first np_log tok
            (beam_loop np_log tok predict L image_features beam_width m
                       [([start_token tok], 0)]).
Proof.
  intros HL Hm. destruct m as [|m]; [lia|]. cbn [beam_loop].
  fold beam_step. pose proof (first_step_end_first HL) as H1.
  destruct (all_ended tok _); [exact H1 | now apply beam_loop_end_first].
Qed.

(** Beam search ends with a best sequence that holds no word. *)
Lemma beam_always_end :
  exists best s rest,
    beam_loop np_log tok predict L image_features beam_width L
              [([start_token tok], 0)] = (best, s) :: rest /\
    caption_words tok best = [].
Proof.
  destruct (le_lt_dec L 1) as [HL|HL].
  - exists [start_token tok], 0, []. split; [|exact caption_words_start].
    now apply beam_loop_short.
  - destruct (beam_loop_long L) as (s0 & rest & E & _ & _); [lia | lia|].
    exists [start_token tok; end_token tok], s0, rest.
    split; [exact E | exact caption_words_start_end].
Qed.

End AlwaysEnd.

(** C9: for every feature vector, when the stepping function always
    returns the one-hot distribution on the vocabulary's END id, both
    methods return the empty caption (no word at all), without failing and
    within the call budget: greedy search makes at most one call, and
    along the lineage of every beam candidate there are at most [L]
    calls.  The vocabulary holds START and END, the beam width is at
    least 1, and [np.log] of [0 + 1e-8] is negative while [np.log] of
    [1 + 1e-8] is not, as for the logarithm. *)
Theorem C9_always_end_gives_empty_caption :
  forall np_log tok predict L image_features beam_width n,
    has_start tok -> has_end tok ->
    (end_token tok < n)%nat ->
    (forall s, predict image_features s = one_hot n (end_token tok)) ->
    (1 <= beam_width)%nat ->
    log_zero np_log < 0 -> 0 <= log_one np_log ->
    let self := loaded L tok predict in
    let g := generate_caption_simple_traced self image_features in
    let b := generate_caption_beam_search_traced np_log self image_features
                                                 beam_width in
    (generate_caption_simple self image_features = Ok "" /\
     words g = [] /\ (calls g <= Nat.min 1 L)%nat /\ (calls g <= L)%nat)
    /\
    (generate_caption_beam_search np_log self image_features beam_width
     = Ok "" /\
     words b = [] /\ Forall (fun k => (k <= L)%nat) (lineages b)).
Proof.
  intros np_log tok predict L f bw n Hs He Hn Hp Hbw Hz Ho self g b.
  split.
  - rewrite <- generate_caption_simple_traced_outcome. fold g.
    subst g self. unfold generate_caption_simple_traced, loaded.
    cbn [model tokenizer max_length].
    rewrite (greedy_always_end tok predict L f n He Hn Hp).
    cbn [outcome words calls]. repeat split; try lia.
  - rewrite <- (generate_caption_beam_search_traced_outcome np_log self f bw).
    fold b. subst b self.
    unfold generate_caption_beam_search_traced, loaded.
    cbn [model tokenizer max_length].
    destruct (beam_traced_budget np_log tok predict L f bw) as (Hl & _ & _).
    destruct (beam_always_end np_log tok predict L f bw n
                Hs He Hn Hp Hbw Hz Ho) as (best & s & rest & E & Hw).
    pose proof (beam_loop_traced_erase np_log tok predict L f bw L
                  [([start_token tok], 0, 0%nat)]
                  [([start_token tok], 0, 0%nat)] 0%nat) as Her.
    cbn [map fst] in Her.
    unfold beam_search_traced in *.
    destruct (beam_loop_traced _ _ _ _ _ _ _ _ _ _)
      as [[sequences history] k].
    cbn [fst] in Her.
    assert (Hseq : map fst sequences = (best, s) :: rest)
      by (rewrite <- E; exact Her).
    destruct sequences as [|[[best' s'] j] sequences]; [discriminate|].
    cbn [map fst] in Hseq. inversion Hseq; subst best' s'.
    cbn [outcome words lineages] in *. rewrite Hw.
    repeat split. exact Hl.
Qed.

Lemma small_has_start : has_start small_tokenizer.
Proof. reflexivity. Qed.

Lemma small_has_end : has_end small_tokenizer.
Proof. reflexivity. Qed.

Lemma C9_witness :
  has_start small_tokenizer /\ has_end small_tokenizer /\
  (end_token small_tokenizer < 5)%nat /\
  (forall s, always_end [] s = one_hot 5 (end_token small_tokenizer)) /\
  (1 <= 3)%nat /\
  log_zero log_tangent < 0 /\ 0 <= log_one log_tangent /\
  generate_caption_simple (loaded 5 small_tokenizer always_end) [] = Ok ""
  /\
  generate_caption_beam_search log_tangent
    (loaded 5 small_tokenizer always_end) [] 3 = Ok "".
Proof.
  assert (H1 : (end_token small_tokenizer < 5)%nat) by (vm_compute; lia).
  assert (H2 : forall s,
             always_end [] s = one_hot 5 (end_token small_tokenizer))
    by (intros s; reflexivity).
  assert (H3 : (1 <= 3)%nat) by lia.
  assert (H4 : log_zero log_tangent < 0) by (vm_compute; reflexivity).
  assert (H5 : 0 <= log_one log_tangent) by (vm_compute; discriminate).
  repeat (split; [assumption || exact small_has_start
                  || exact small_has_end|]).
  pose proof (C9_always_end_gives_empty_caption log_tangent small_tokenizer
                always_end 5 [] 3 5 small_has_start small_has_end
                H1 H2 H3 H4 H5) as H.
  cbv zeta in H. destruct H as [(Hg & _) (Hb & _)].
  split; [exact Hg | exact Hb].
Defined.

(** *** Strings: a text of plain words *)

Lemma plain_word_parts w :
  plain_word w = true ->
  w <> "" /\ no_space w = true /\ str_in "startseq" w = false.
Proof.
  unfold plain_word. intros H. apply andb_prop in H. destruct H as [H H3].
  apply andb_prop in H. destruct H as [H1 H2].
  apply negb_true_iff in H1, H3. apply String.eqb_neq in H1. auto.
Qed.

Lemma remove_absent old s : str_in old s = false -> remove old s = s.
Proof.
  unfold remove. induction s as [|c s IH]; intros H; [reflexivity|].
  cbn [str_in] in H. apply orb_false_elim in H. destruct H as [H1 H2].
  cbn [remove_from]. rewrite H1. now rewrite IH.
Qed.

(** A match that starts inside [u] cannot run across a space. *)
Lemma prefix_across old : forall u r,
  no_space old = true ->
  prefix old (u ++ String " " r) = true -> prefix old u = true.
Proof.
  induction old as [|c old IH]; intros u r Hns H.
  - destruct u; reflexivity.
  - cbn [no_space] in Hns. apply andb_prop in Hns. destruct Hns as [Hc Hns].
    destruct u as [|d u]; cbn [append prefix] in *.
    + destruct (ascii_dec c " ") as [->|_]; [discriminate Hc | exact H].
    + destruct (ascii_dec c d); [|exact H]. now apply (IH u r).
Qed.

Lemma str_in_app_space old u r :
  no_space old = true -> old <> "" ->
  str_in old u = false -> str_in old r = false ->
  r = "" \/ (exists r', r = String " " r') ->
  str_in old (u ++ r) = false.
Proof.
  intros Hns Hne. induction u as [|d u IH]; intros Hu Hr Hform;
    [exact Hr|].
  cbn [str_in] in Hu. apply orb_false_elim in Hu. destruct Hu as [Hp Hu].
  change (String d u ++ r)%string with (String d (u ++ r)).
  cbn [str_in]. apply orb_false_intro; [|now apply IH].
  change (String d (u ++ r)) with (String d u ++ r)%string.
  destruct Hform as [->|[r' ->]].
  - now rewrite string_app_nil_r.
  - destruct (prefix old (String d u ++ String " " r')) eqn:E;
      [|reflexivity].
    apply prefix_across in E; [|exact Hns]. congruence.
Qed.

Lemma tail_text_form ws :
  tail_text ws = "" \/ exists r, tail_text ws = String " " r.
Proof. destruct ws as [|w ws]; [now left | right; now eexists]. Qed.

Lemma str_in_tail_text ws :
  Forall (fun w => plain_word w = true) ws ->
  str_in "startseq" (tail_text ws) = false.
Proof.
  induction 1 as [|w ws Hw _ IH]; [reflexivity|].
  apply plain_word_parts in Hw. destruct Hw as (_ & _ & Hw).
  cbn [tail_text fold_right]. fold (tail_text ws).
  change (" " ++ w ++ tail_text ws)%string
    with (String " " (w ++ tail_text ws)).
  cbn [str_in]. apply orb_false_intro.
  - destruct (w ++ tail_text ws)%string; reflexivity.
  - apply str_in_app_space; try assumption; try reflexivity;
      [discriminate | apply tail_text_form].
Qed.

Lemma lstrip_plain w r :
  w <> "" -> no_space w = true -> lstrip (w ++ r) = (w ++ r)%string.
Proof.
  destruct w as [|c w]; [congruence|]. intros _ H.
  cbn [no_space] in H. apply andb_prop in H. destruct H as [H _].
  apply negb_true_iff in H. cbn [append lstrip]. now rewrite H.
Qed.

Lemma rstrip_plain w :
  w <> "" -> no_space w = true -> rstrip w = w.
Proof.
  induction w as [|c w IH]; [congruence|]. intros _ H.
  cbn [no_space] in H. apply andb_prop in H. destruct H as [Hc Hw].
  apply negb_true_iff in Hc. cbn [rstrip].
  destruct w as [|d w].
  - cbn [rstrip]. now rewrite Hc.
  - rewrite IH by (discriminate || assumption). reflexivity.
Qed.

Lemma rstrip_app u r :
  r <> "" -> rstrip r = r -> rstrip (u ++ r) = (u ++ r)%string.
Proof.
  intros Hne Hr. induction u as [|c u IH]; [exact Hr|].
  cbn [append rstrip]. rewrite IH.
  destruct (u ++ r)%string eqn:E; [|reflexivity].
  destruct u; [cbn in E; congruence | discriminate E].
Qed.

Lemma rstrip_tail_text ws :
  Forall (fun w => plain_word w = true) ws ->
  rstrip (tail_text ws) = tail_text ws.
Proof.
  induction 1 as [|w ws Hw _ IH]; [reflexivity|].
  apply plain_word_parts in Hw. destruct Hw as (Hne & Hns & _).
  cbn [tail_text fold_right]. fold (tail_text ws).
  change (" " ++ w ++ tail_text ws)%string
    with (String " " (w ++ tail_text ws)).
  assert (E : rstrip (w ++ tail_text ws) = (w ++ tail_text ws)%string).
  { destruct (tail_text ws) eqn:Et.
    - rewrite string_app_nil_r. now apply rstrip_plain.
    - apply rstrip_app; [discriminate | exact IH]. }
  cbn [rstrip]. rewrite E.
  destruct (w ++ tail_text ws)%string eqn:E'; [|reflexivity].
  destruct w; [congruence | discriminate E'].
Qed.

Lemma tail_text_join ws :
  ws <> [] -> tail_text ws = (" " ++ join ws)%string.
Proof.
  induction ws as [|w ws IH]; [congruence|]. intros _.
  cbn [tail_text fold_right]. fold (tail_text ws).
  destruct ws as [|w' ws].
  - cbn [tail_text fold_right join]. now rewrite string_app_nil_r.
  - rewrite IH by discriminate. reflexivity.
Qed.

(** The caption of greedy search is the words joined by single spaces. *)
Lemma strip_remove_plain ws :
  Forall (fun w => plain_word w = true) ws ->
  strip (remove "startseq" (in_text_of ws)) = join ws.
Proof.
  intros H. rewrite in_text_of_tail, remove_leading_start.
  rewrite remove_absent by now apply str_in_tail_text.
  destruct ws as [|w ws]; [reflexivity|].
  pose proof (rstrip_tail_text (w :: ws) H) as Hr.
  rewrite tail_text_join in * by discriminate.
  unfold strip.
  change (" " ++ join (w :: ws))%string with (String " " (join (w :: ws))).
  change (lstrip (String " " (join (w :: ws))))
    with (lstrip (join (w :: ws))).
  inversion H as [|? ? Hw Hws]; subst.
  apply plain_word_parts in Hw. destruct Hw as (Hne & Hns & _).
  assert (El : lstrip (join (w :: ws)) = join (w :: ws)).
  { destruct ws; cbn [join]; [|now apply lstrip_plain].
    rewrite <- (string_app_nil_r w). now apply lstrip_plain. }
  rewrite El.
  change (" " ++ join (w :: ws))%string
    with (String " " (join (w :: ws))) in Hr.
  cbn [rstrip] in Hr.
  destruct (rstrip (join (w :: ws))) eqn:E.
  - change (is_space " ") with true in Hr. discriminate Hr.
  - now inversion Hr.
Qed.

(** *** Beam search of width 1 against greedy search *)

Lemma word_for_id_in i items w :
  word_for_id_items i items = Some w -> In (w, i) items.
Proof.
  induction items as [|[w' j] items IH]; simpl; [discriminate|].
  destruct (Nat.eqb_spec j i) as [->|_].
  - intros [= ->]. now left.
  - intros H. right. now apply IH.
Qed.

Section WidthOne.

Variable np_log : Q -> Q.
Variable tok : Tokenizer.
Variable predict : Model.
Variable L : nat.
Variable image_features : FeatureVector.

Hypothesis Hstart : has_start tok.
Hypothesis Hend : has_end tok.
Hypothesis Hplain : plain_vocabulary tok = true.
Hypothesis Htop : single_top tok predict image_features.

Let beam_loop1 :=
  beam_loop np_log tok predict L image_features 1.
Let expand1 := expand np_log tok predict L image_features 1.

Lemma plain_of_vocabulary i w :
  word_for_id i tok = Some w -> w <> "startseq" -> plain_word w = true.
Proof.
  intros Hw Hne. apply word_for_id_in in Hw.
  unfold plain_vocabulary in Hplain. rewrite forallb_forall in Hplain.
  specialize (Hplain _ Hw). cbn in Hplain.
  apply orb_prop in Hplain. destruct Hplain as [H|H]; [|exact H].
  apply String.eqb_eq in H. contradiction.
Qed.

Lemma live_word_not_control i w :
  live_word tok i w -> w <> "startseq" /\ w <> "endseq".
Proof.
  intros (_ & Hp & He). split; [|exact He].
  intros ->. discriminate Hp.
Qed.

Lemma caption_words_live ids ws rest :
  Forall2 (live_word tok) ids ws ->
  caption_words tok (ids ++ rest) = ws ++ caption_words tok rest.
Proof.
  induction 1 as [|i w ids ws Hw _ IH]; [reflexivity|].
  destruct (live_word_not_control i w Hw) as [Hs He].
  destruct Hw as (Hw & _). cbn [app caption_words]. rewrite Hw.
  apply String.eqb_neq in Hs, He. rewrite Hs, He, IH. reflexivity.
Qed.

Lemma caption_words_from_start ids ws rest :
  Forall2 (live_word tok) ids ws ->
  caption_words tok (start_token tok :: ids ++ rest)
  = ws ++ caption_words tok rest.
Proof.
  intros H. cbn [caption_words]. unfold has_start in Hstart.
  rewrite Hstart. change ("startseq" =? "endseq")%string with false.
  change ("startseq" =? "startseq")%string with true. cbn iota.
  now apply caption_words_live.
Qed.

Lemma live_words_plain ids ws :
  Forall2 (live_word tok) ids ws ->
  Forall (fun w => plain_word w = true) ws.
Proof.
  induction 1 as [|i w ids ws (_ & Hp & _) _ IH]; constructor; assumption.
Qed.

Lemma live_words_have_ids ids ws :
  Forall2 (live_word tok) ids ws ->
  Forall2 (fun i w => word_for_id i tok = Some w) ids ws.
Proof.
  induction 1 as [|i w ids ws (Hw & _) _ IH]; constructor; assumption.
Qed.

(** A live sequence is never closed by the end token. *)
Lemma live_last_not_end ids ws :
  Forall2 (live_word tok) ids ws ->
  last (start_token tok :: ids) 0%nat <> end_token tok.
Proof.
  intros H E.
  destruct (exists_last (l := start_token tok :: ids)) as [l [x El]];
    [discriminate|].
  rewrite El, last_last in E. subst x.
  destruct l as [|y l].
  - cbn [app] in El. inversion El as [[Es Eids]].
    unfold has_start, has_end in *. rewrite Es in Hstart.
    rewrite Hstart in Hend. discriminate Hend.
  - cbn [app] in El. inversion El as [[Ey Eids]]. subst ids.
    apply Forall2_app_inv_l in H.
    destruct H as (ws1 & ws2 & _ & H2 & _).
    inversion H2 as [|? w ? ? Hw _]; subst.
    destruct (live_word_not_control _ _ Hw) as [_ Hne].
    destruct Hw as (Hw & _). unfold has_end in Hend.
    rewrite Hend in Hw. inversion Hw. congruence.
Qed.

(** One pass over a frontier of one candidate. *)
Lemma beam_step_single c c' :
  expand1 c = [c'] ->
  beam_step np_log tok predict L image_features 1 [c] = [c'].
Proof.
  intros E. unfold beam_step. cbn [flat_map]. fold expand1.
  rewrite E. reflexivity.
Qed.

Lemma expand_open seq score :
  finished tok L seq = false ->
  exists i sc,
    expand1 (seq, score) = [(seq ++ [i], sc)] /\
    argmax (predict image_features
                    (seq ++ repeat 0%nat (L - List.length seq))) = Some i
    /\ word_for_id i tok <> Some "startseq".
Proof.
  intros F. unfold expand1, expand. rewrite F.
  destruct (Htop (seq ++ repeat 0%nat (L - List.length seq)))
    as (i & Ha & Hs & Hw).
  rewrite Hs. cbn [map]. now eexists i, _.
Qed.

Lemma expand_single c : exists ext sc, expand1 c = [(fst c ++ ext, sc)].
Proof.
  destruct c as [seq score]. cbn [fst].
  destruct (finished tok L seq) eqn:F.
  - exists [], score. unfold expand1, expand. rewrite F.
    now rewrite app_nil_r.
  - destruct (expand_open seq score F) as (i & sc & E & _).
    now exists [i], sc.
Qed.

(** The frontier stays a single candidate, which only grows. *)
Lemma beam_loop_prefix m :
  forall seq score,
  exists ext sc, beam_loop1 m [(seq, score)] = [(seq ++ ext, sc)].
Proof.
  induction m as [|m IH]; intros seq score.
  - exists [], score. cbn. now rewrite app_nil_r.
  - unfold beam_loop1. cbn [beam_loop].
    destruct (expand_single (seq, score)) as (ext & sc & E).
    pose proof (beam_step_single _ _ E) as Es. cbn [fst] in Es.
    match goal with
    | |- context [all_ended tok ?X] =>
        replace X with [(seq ++ ext, sc)] by (symmetry; exact Es)
    end.
    destruct (all_ended tok _).
    + now exists ext, sc.
    + destruct (IH (seq ++ ext) sc) as (ext' & sc' & E').
      exists (ext ++ ext'), sc'. rewrite app_assoc. exact E'.
Qed.

(** Beam search of width 1 walks the path of greedy search, one step
    short. *)
Lemma beam_follows_greedy m :
  forall ids ws score,
    Forall2 (live_word tok) ids ws ->
    (m + List.length ids = L)%nat ->
    (forall ids' ws',
        In (ids', ws')
           (greedy_fed tok predict L image_features (Nat.pred m) ids ws) ->
        predict image_features
                (pad_sequences L (texts_to_sequences tok (in_text_of ws')))
        = predict image_features
                  ((start_token tok :: ids')
                   ++ repeat 0%nat (L - S (List.length ids')))) ->
    exists ws' best sc,
      greedy_loop tok predict L image_features (Nat.pred m)
                  (in_text_of ws) = Ok (in_text_of ws') /\
      beam_loop1 m [(start_token tok :: ids, score)] = [(best, sc)] /\
      caption_words tok best = ws' /\
      Forall (fun w => plain_word w = true) ws'.
Proof.
  induction m as [|m IH]; intros ids ws score Hlive Hm Hsame.
  - exists ws, (start_token tok :: ids), score.
    repeat split; [|now apply (live_words_plain ids)].
    rewrite <- (app_nil_r ids).
    rewrite (caption_words_from_start ids ws [] Hlive).
    cbn [caption_words]. now rewrite app_nil_r.
  - cbn [Nat.pred]. unfold beam_loop1. cbn [beam_loop].
    destruct (finished tok L (start_token tok :: ids)) eqn:F.
    + (* the candidate is as long as it may get *)
      assert (Hm0 : m = 0%nat).
      { unfold finished in F. apply orb_prop in F. destruct F as [F|F].
        - apply Nat.leb_le in F. cbn [List.length] in F. lia.
        - apply Nat.eqb_eq in F.
          now apply (live_last_not_end ids ws Hlive) in F. }
      subst m.
      assert (E : expand1 (start_token tok :: ids, score)
                  = [(start_token tok :: ids, score)]).
      { unfold expand1, expand. now rewrite F. }
      pose proof (beam_step_single _ _ E) as Es.
      match goal with
      | |- context [all_ended tok ?X] =>
          replace X with [(start_token tok :: ids, score)]
            by (symmetry; exact Es)
      end.
      exists ws, (start_token tok :: ids), score.
      split; [reflexivity|]. split.
      { destruct (all_ended tok _); reflexivity. }
      split; [|now apply (live_words_plain ids)].
      rewrite <- (app_nil_r ids).
      rewrite (caption_words_from_start ids ws [] Hlive).
      cbn [caption_words]. now rewrite app_nil_r.
    + (* one more token *)
      assert (Hm1 : exists m', m = S m').
      { unfold finished in F. apply orb_false_elim in F.
        destruct F as [F _]. apply Nat.leb_gt in F.
        cbn [List.length] in F. destruct m; [lia | now eexists]. }
      destruct Hm1 as [m' ->].
      destruct (expand_open (start_token tok :: ids) score F)
        as (i & sc & E & Ha & Hns).
      pose proof (beam_step_single _ _ E) as Es.
      match goal with
      | |- context [all_ended tok ?X] =>
          replace X with [((start_token tok :: ids) ++ [i], sc)]
            by (symmetry; exact Es)
      end.
      cbn [greedy_loop].
      cbn [Nat.pred greedy_fed] in Hsame.
      pose proof (Hsame ids ws (or_introl eq_refl)) as Hhere.
      rewrite Hhere in Hsame. rewrite Hhere.
      cbn [List.length] in Hsame.
      cbn [List.length] in Ha. rewrite Ha.
      (* what beam search keeps once the next word is not live *)
      assert (Hcut : word_for_id i tok = None \/
                     word_for_id i tok = Some "endseq" ->
                     forall frontier : list candidate,
                       (exists ext sc',
                           frontier
                           = [(((start_token tok :: ids) ++ [i]) ++ ext,
                               sc')]) ->
                       exists best sc',
                         frontier = [(best, sc')] /\
                         caption_words tok best = ws).
      { intros Hw frontier (ext & sc' & ->). eexists _, _.
        split; [reflexivity|].
        change (((start_token tok :: ids) ++ [i]) ++ ext)
          with (start_token tok :: (ids ++ [i]) ++ ext).
        rewrite <- app_assoc.
        rewrite (caption_words_from_start ids ws ([i] ++ ext) Hlive).
        cbn [app caption_words].
        destruct Hw as [-> | ->]; now rewrite app_nil_r. }
      assert (Hfrontier :
                exists ext sc',
                  (if all_ended tok [((start_token tok :: ids) ++ [i], sc)]
                   then [((start_token tok :: ids) ++ [i], sc)]
                   else beam_loop np_log tok predict L image_features 1
                          (S m') [((start_token tok :: ids) ++ [i], sc)])
                  = [(((start_token tok :: ids) ++ [i]) ++ ext, sc')]).
      { destruct (all_ended tok _).
        - exists [], sc. now rewrite app_nil_r.
        - exact (beam_loop_prefix (S m') _ sc). }
      destruct (word_for_id i tok) as [w|] eqn:Hw.
      2:{ destruct (Hcut (or_introl eq_refl) _ Hfrontier)
            as (best & sc' & Eb & Hc).
          exists ws, best, sc'. repeat split; try assumption.
          now apply (live_words_plain ids). }
      destruct (String.eqb_spec w "endseq") as [->|Hne].
      { destruct (Hcut (or_intror eq_refl) _ Hfrontier)
          as (best & sc' & Eb & Hc).
        exists ws, best, sc'. repeat split; try assumption.
        now apply (live_words_plain ids). }
      assert (Hw_live : live_word tok i w).
      { split; [exact Hw|]. split; [|exact Hne].
        apply (plain_of_vocabulary i w Hw). congruence. }
      assert (Hlive' : Forall2 (live_word tok) (ids ++ [i]) (ws ++ [w])).
      { apply Forall2_app; [exact Hlive|]. now constructor. }
      assert (Hopen : all_ended tok [((start_token tok :: ids) ++ [i], sc)]
                      = false).
      { unfold all_ended. cbn [forallb fst]. rewrite last_last.
        rewrite andb_true_r. apply Nat.eqb_neq. intros Ei. subst i.
        unfold has_end in Hend. congruence. }
      rewrite Hopen.
      destruct (IH (ids ++ [i]) (ws ++ [w]) sc Hlive')
        as (ws' & best & sc' & Hg & Hb & Hc & Hp).
      { rewrite length_app. cbn [List.length]. lia. }
      { intros ids' ws' Hin. apply Hsame. right.
        rewrite Ha, Hw. apply String.eqb_neq in Hne. rewrite Hne.
        exact Hin. }
      exists ws', best, sc'. cbn [Nat.pred] in Hg.
      rewrite in_text_of_snoc in Hg. repeat split; assumption.
Qed.

End WidthOne.

(** Greedy search that appends fewer tokens than it has iterations stops
    by itself: cutting its last iteration changes nothing. *)
Lemma greedy_loop_cut tok predict L image_features m :
  forall in_text ws k t ws' k',
    greedy_loop_traced tok predict L image_features (S m) in_text ws k
    = (Ok t, ws', k') ->
    (List.length ws' < List.length ws + S m)%nat ->
    greedy_loop tok predict L image_features m in_text = Ok t.
Proof.
  induction m as [|m IH]; intros in_text ws k t ws' k' H Hlen.
  - cbn [greedy_loop_traced] in H. cbn [greedy_loop].
    destruct (argmax _) as [p|]; [|discriminate H].
    destruct (word_for_id p tok) as [w|]; [|now inversion H].
    destruct (String.eqb w "endseq"); [now inversion H|].
    inversion H; subst. rewrite length_app in Hlen. cbn in Hlen. lia.
  - remember (S m) as m1 eqn:Em1. cbn [greedy_loop_traced] in H.
    subst m1. cbn [greedy_loop].
    destruct (argmax _) as [p|]; [|discriminate H].
    destruct (word_for_id p tok) as [w|]; [|now inversion H].
    destruct (String.eqb w "endseq"); [now inversion H|].
    apply (IH _ _ _ _ _ _ H). rewrite length_app. cbn [List.length]. lia.
Qed.

(** C3 as stated fails.  With [max_length = 2] and a network that always
    answers ["a"], greedy search returns two words and beam search of
    width 1 returns one: the start token counts towards [max_length] in
    beam search only.  With a network that looks at the first place of
    its input the two differ as well, because greedy search pads on the
    left and beam search on the right. *)
Lemma C3_counterexample :
  generate_caption_simple (loaded 2 small_tokenizer always_a) []
  = Ok "a a" /\
  generate_caption_beam_search log_tangent
    (loaded 2 small_tokenizer always_a) [] 1 = Ok "a" /\
  generate_caption_simple (loaded 3 small_tokenizer first_place_model) []
  = Ok "a a" /\
  generate_caption_beam_search log_tangent
    (loaded 3 small_tokenizer first_place_model) [] 1 = Ok "" /\
  generate_caption_beam_search log_tangent
    (loaded 2 small_tokenizer always_a) [] 1
  <> generate_caption_simple (loaded 2 small_tokenizer always_a) [].
Proof.
  repeat split; try (vm_compute; reflexivity).
  intros H. vm_compute in H. discriminate H.
Qed.

(** C3, amended: beam search of width 1 returns the caption greedy search
    returns when its loop is cut after [L - 1] iterations, and hence the
    very caption of greedy search whenever that one appends at most
    [L - 1] tokens.  This holds for a vocabulary with START and END whose
    other words are plain (not empty, no white space, no ['startseq']
    inside), and a stepping function that answers alike on the two
    encodings of each partial sequence greedy search passes through in
    its first [L - 1] iterations (the left-padded text encoding that
    greedy search feeds it and the right-padded id encoding that beam
    search feeds it; its answers on other inputs are free), each answer
    having a single top entry (the one both [np.argmax] and the last
    place of [np.argsort] select) which is not START. *)
Theorem C3_width_one_is_greedy_cut :
  forall np_log tok predict L image_features,
    has_start tok -> has_end tok -> plain_vocabulary tok = true ->
    same_answers tok predict L image_features ->
    single_top tok predict image_features ->
    let self := loaded L tok predict in
    generate_caption_beam_search np_log self image_features 1
    = greedy_within tok predict L image_features (L - 1)
    /\
    ((List.length
        (words (generate_caption_simple_traced self image_features))
      <= L - 1)%nat ->
     generate_caption_beam_search np_log self image_features 1
     = generate_caption_simple self image_features).
Proof.
  intros np_log tok predict L f Hs He Hp Hsame Htop self.
  assert (H1 : generate_caption_beam_search np_log self f 1
               = greedy_within tok predict L f (L - 1)).
  { destruct (beam_follows_greedy np_log tok predict L f Hs He Hp
                Htop L [] [] 0 (Forall2_nil _))
      as (ws' & best & sc & Hg & Hb & Hc & Hpl);
      [cbn [List.length]; lia | |].
    { intros ids' ws' Hin. apply Hsame. now rewrite Nat.sub_1_r. }
    unfold generate_caption_beam_search, self, loaded.
    cbn [model tokenizer max_length]. unfold beam_search.
    match goal with
    | |- match ?X with _ => _ end = _ =>
        replace X with [(best, sc)] by (symmetry; exact Hb)
    end.
    unfold greedy_within. rewrite Nat.sub_1_r.
    change "startseq" with (in_text_of []) at 1. rewrite Hg, Hc.
    now rewrite strip_remove_plain. }
  split; [exact H1|].
  intros Hlen. rewrite H1. unfold greedy_within, generate_caption_simple.
  subst self. unfold loaded in *. cbn [model tokenizer max_length] in *.
  unfold generate_caption_simple_traced in Hlen.
  cbn [model tokenizer max_length] in Hlen.
  destruct L as [|m]; [reflexivity|].
  rewrite Nat.sub_1_r. cbn [Nat.pred].
  pose proof (greedy_loop_traced_outcome tok predict (S m) f (S m)
                "startseq" [] 0%nat) as Hout.
  destruct (greedy_loop_traced tok predict (S m) f (S m) "startseq" [] 0)
    as [[r ws] k] eqn:E.
  cbn [fst] in Hout. rewrite <- Hout.
  destruct r as [t|e].
  - cbn [words] in Hlen.
    rewrite (greedy_loop_cut tok predict (S m) f m "startseq" [] 0%nat
               t ws k E); [reflexivity|].
    cbn [List.length]. lia.
  - exfalso. clear Hlen H1.
    destruct (greedy_loop_returns tok predict (S m) f (S m)) with
      (in_text := "startseq") as [t Ht].
    { intros s Hs0. destruct (Htop s) as (i & Ha & _).
      rewrite Hs0 in Ha. discriminate Ha. }
    rewrite <- Hout in Ht. discriminate Ht.
Qed.

Lemma small_plain_vocabulary : plain_vocabulary small_tokenizer = true.
Proof. reflexivity. Qed.

Lemma a_dog_end_same_answers :
  same_answers small_tokenizer a_dog_end 5 [].
Proof.
  intros ids ws H. vm_compute in H.
  destruct H as [H|[H|[H|[]]]]; injection H as <- <-; reflexivity.
Qed.

Lemma a_dog_end_single_top : single_top small_tokenizer a_dog_end [].
Proof.
  intros s. unfold a_dog_end.
  destruct (count_tokens s) as [|[|[|n]]];
    [exists 2%nat | exists 3%nat | exists 4%nat | exists 2%nat];
    repeat split; try reflexivity; discriminate.
Qed.

Lemma a_after_start_same_answers :
  same_answers small_tokenizer a_after_start 3 [].
Proof.
  intros ids ws H. vm_compute in H.
  destruct H as [H|[H|[]]]; injection H as <- <-; reflexivity.
Qed.

Lemma a_after_start_single_top :
  single_top small_tokenizer a_after_start [].
Proof.
  intros s. unfold a_after_start.
  destruct (existsb (Nat.eqb 1) s); [exists 3%nat | exists 2%nat];
    repeat split; try reflexivity; discriminate.
Qed.

Lemma C3_witness :
  has_start small_tokenizer /\ has_end small_tokenizer /\
  plain_vocabulary small_tokenizer = true /\
  (* a caption of two words, which greedy search ends by itself *)
  (same_answers small_tokenizer a_dog_end 5 [] /\
   single_top small_tokenizer a_dog_end [] /\
   (List.length
      (words (generate_caption_simple_traced
                (loaded 5 small_tokenizer a_dog_end) [])) <= 5 - 1)%nat /\
   generate_caption_beam_search log_tangent
     (loaded 5 small_tokenizer a_dog_end) [] 1
   = greedy_within small_tokenizer a_dog_end 5 [] (5 - 1) /\
   generate_caption_beam_search log_tangent
     (loaded 5 small_tokenizer a_dog_end) [] 1
   = generate_caption_simple (loaded 5 small_tokenizer a_dog_end) [] /\
   generate_caption_simple (loaded 5 small_tokenizer a_dog_end) []
   = Ok "a dog") /\
  (* a caption that the cut after [L - 1] iterations shortens *)
  (same_answers small_tokenizer a_after_start 3 [] /\
   single_top small_tokenizer a_after_start [] /\
   generate_caption_beam_search log_tangent
     (loaded 3 small_tokenizer a_after_start) [] 1
   = greedy_within small_tokenizer a_after_start 3 [] (3 - 1) /\
   greedy_within small_tokenizer a_after_start 3 [] (3 - 1) = Ok "a a" /\
   generate_caption_simple (loaded 3 small_tokenizer a_after_start) []
   = Ok "a a a").
Proof.
  assert (Hlen : (List.length
                    (words (generate_caption_simple_traced
                              (loaded 5 small_tokenizer a_dog_end) []))
                  <= 5 - 1)%nat) by (vm_compute; lia).
  pose proof (C3_width_one_is_greedy_cut log_tangent small_tokenizer
                a_dog_end 5 [] small_has_start small_has_end
                small_plain_vocabulary a_dog_end_same_answers
                a_dog_end_single_top) as H.
  pose proof (C3_width_one_is_greedy_cut log_tangent small_tokenizer
                a_after_start 3 [] small_has_start small_has_end
                small_plain_vocabulary a_after_start_same_answers
                a_after_start_single_top) as H'.
  cbv zeta in H, H'. destruct H as [H1 H2]. destruct H' as [H1' _].
  split; [exact small_has_start|]. split; [exact small_has_end|].
  split; [exact small_plain_vocabulary|]. split.
  - split; [exact a_dog_end_same_answers|].
    split; [exact a_dog_end_single_top|].
    split; [exact Hlen|]. split; [exact H1|].
    split; [exact (H2 Hlen) | vm_compute; reflexivity].
  - split; [exact a_after_start_same_answers|].
    split; [exact a_after_start_single_top|].
    split; [exact H1'|]. split; vm_compute; reflexivity.
Defined.

(* ================================================================== *)
(** ** Further properties of the decoders *)
(* ================================================================== *)

Import Captions MockTensorflow.

(** *** The vocabulary: ids and words *)

Lemma get_in {V : Type} (d : dict V) k v : get d k = Some v -> In (k, v) d.
Proof.
  induction d as [|[k' v'] d IH]; simpl; [discriminate|].
  destruct (String.eqb_spec k' k) as [->|_].
  - intros [= ->]. now left.
  - intros H. right. now apply IH.
Qed.

Lemma in_get {V : Type} (d : dict V) k v :
  NoDup (keys d) -> In (k, v) d -> get d k = Some v.
Proof.
  induction d as [|[k' v'] d IH]; simpl; intros Hnd Hin; [tauto|].
  inversion Hnd as [|? ? Hnotin Hnd']; subst.
  destruct Hin as [E|Hin].
  - inversion E; subst. now rewrite String.eqb_refl.
  - destruct (String.eqb_spec k' k) as [->|_]; [|now apply IH].
    exfalso. apply Hnotin. unfold keys. change k with (fst (k, v)).
    now apply in_map.
Qed.

Lemma in_word_for_id items w i :
  NoDup (map snd items) -> In (w, i) items ->
  word_for_id_items i items = Some w.
Proof.
  induction items as [|[w' j] items IH]; simpl; intros Hnd Hin; [tauto|].
  inversion Hnd as [|? ? Hnotin Hnd']; subst.
  destruct Hin as [E|Hin].
  - inversion E; subst. now rewrite Nat.eqb_refl.
  - destruct (Nat.eqb_spec j i) as [->|_]; [|now apply IH].
    exfalso. apply Hnotin. change i with (snd (w, i)). now apply in_map.
Qed.

(** X1: in a vocabulary whose words and whose ids are pairwise distinct,
    looking a word up and mapping the id back are inverse to each other:
    [word_index.get(w)] is [i] exactly when [word_for_id(i)] is [w]. *)
Theorem X1_word_id_round_trip :
  forall tok w i,
    NoDup (keys (word_index tok)) ->
    NoDup (map snd (word_index tok)) ->
    (get (word_index tok) w = Some i <-> word_for_id i tok = Some w).
Proof.
  intros tok w i Hk Hi. unfold word_for_id. split; intros H.
  - apply in_word_for_id; [exact Hi | now apply get_in].
  - apply in_get; [exact Hk | now apply word_for_id_in].
Qed.

Lemma small_index_keys : NoDup (keys (word_index small_tokenizer)).
Proof.
  simpl. repeat (constructor; [simpl; intuition discriminate|]).
  constructor.
Qed.

Lemma small_index_ids : NoDup (map snd (word_index small_tokenizer)).
Proof.
  simpl. repeat (constructor; [simpl; intuition discriminate|]).
  constructor.
Qed.

Lemma X1_witness :
  NoDup (keys (word_index small_tokenizer)) /\
  NoDup (map snd (word_index small_tokenizer)) /\
  get (word_index small_tokenizer) "dog" = Some 4%nat /\
  word_for_id 4 small_tokenizer = Some "dog".
Proof.
  assert (H : get (word_index small_tokenizer) "dog" = Some 4%nat)
    by reflexivity.
  split; [exact small_index_keys|]. split; [exact small_index_ids|].
  split; [exact H|].
  exact (proj1 (X1_word_id_round_trip small_tokenizer "dog" 4
                  small_index_keys small_index_ids) H).
Defined.

(** X2: [word_for_id] answers [None] exactly for the ids that no word of
    the vocabulary carries, and any word it answers carries that id. *)
Theorem X2_word_for_id_unknown :
  forall tok i,
    (word_for_id i tok = None <-> ~ In i (map snd (word_index tok))) /\
    (forall w, word_for_id i tok = Some w -> In (w, i) (word_index tok)).
Proof.
  intros tok i. unfold word_for_id. split.
  - induction (word_index tok) as [|[w j] items IH]; simpl.
    + tauto.
    + destruct (Nat.eqb_spec j i) as [->|Hne].
      * split; [discriminate | intros H; exfalso; apply H; now left].
      * rewrite IH. split; [intros H [E|E]; [congruence | tauto]|].
        intros H E. apply H. now right.
  - intros w. apply word_for_id_in.
Qed.

(** *** Beam search: the frontier *)

(** X3: with a beam width of 0 and [max_length >= 1], beam search always
    ends in the [IndexError] of [sequences[0]]: the first pass cuts the
    frontier to [all_candidates[:0]], the empty list.  With
    [max_length = 0] the loop does not run and the start candidate is
    decoded. *)
Theorem X3_beam_width_zero :
  forall np_log tok predict L image_features,
    generate_caption_beam_search np_log (loaded (S L) tok predict)
                                 image_features 0
    = Raise IndexError
    /\
    generate_caption_beam_search np_log (loaded 0 tok predict)
                                 image_features 0
    = Ok (join (caption_words tok [start_token tok])).
Proof.
  intros np_log tok predict L f. split; reflexivity.
Qed.

Section FrontierOrder.

Context {A : Type}.
Variable key : A -> Q.

Lemma insert_desc_sorted x l :
  StronglySorted (fun a b => key b <= key a) l ->
  StronglySorted (fun a b => key b <= key a) (insert_desc key x l).
Proof.
  induction 1 as [|y l Hl IH Hy]; simpl.
  - constructor; constructor.
  - destruct (Qltb (key x) (key y)) eqn:E.
    + apply Qltb_true in E. constructor; [exact IH|].
      apply Forall_forall. intros z Hz. apply in_insert_desc in Hz.
      destruct Hz as [->|Hz]; [now apply Qlt_le_weak|].
      rewrite Forall_forall in Hy. now apply Hy.
    + apply Qltb_false in E. constructor; [now constructor|].
      constructor; [exact E|].
      rewrite Forall_forall in *. intros z Hz.
      apply Qle_trans with (key y); [now apply Hy | exact E].
Qed.

Lemma sort_desc_sorted l :
  StronglySorted (fun a b => key b <= key a) (sort_desc key l).
Proof.
  unfold sort_desc. induction l as [|x l IH]; simpl; [constructor|].
  now apply insert_desc_sorted.
Qed.

Lemma firstn_sorted (R : A -> A -> Prop) n l :
  StronglySorted R l -> StronglySorted R (firstn n l).
Proof.
  intros H. revert n. induction H as [|x l Hl IH Hx]; intros [|n]; simpl;
    try constructor.
  - apply IH.
  - rewrite Forall_forall in *. intros y Hy. apply Hx.
    now apply in_firstn in Hy.
Qed.

End FrontierOrder.

Section Frontier.

Variable np_log : Q -> Q.
Variable tok : Tokenizer.
Variable predict : Model.
Variable L : nat.
Variable image_features : FeatureVector.
Variable beam_width : nat.

Lemma beam_loop_is_a_step n sequences :
  exists previous,
    beam_loop np_log tok predict L image_features beam_width
              (S n) sequences
    = beam_step np_log tok predict L image_features beam_width previous.
Proof.
  revert sequences. induction n as [|n IH]; intros sequences.
  - exists sequences. cbn [beam_loop].
    destruct (all_ended tok _); reflexivity.
  - remember (S n) as m. cbn [beam_loop]. subst m.
    destruct (all_ended tok _); [now exists sequences | apply IH].
Qed.

Lemma beam_step_bounded sequences :
  (List.length (beam_step np_log tok predict L image_features beam_width
                          sequences) <= beam_width)%nat.
Proof. unfold beam_step. rewrite length_firstn. lia. Qed.

Lemma beam_step_sorted sequences :
  StronglySorted (fun a b : candidate => snd b <= snd a)
    (beam_step np_log tok predict L image_features beam_width sequences).
Proof.
  unfold beam_step. apply firstn_sorted. apply (sort_desc_sorted snd).
Qed.

End Frontier.

(** X4: after at least one pass of the beam-search loop the frontier
    holds at most [beam_width] candidates, in order of non-increasing
    score; the sequence taken as [sequences[0]] therefore has the highest
    score of the final frontier. *)
Theorem X4_frontier_bounded_and_ordered :
  forall np_log tok predict L image_features beam_width n sequences,
    let frontier :=
      beam_loop np_log tok predict L image_features beam_width
                (S n) sequences in
    (List.length frontier <= beam_width)%nat /\
    StronglySorted (fun a b : candidate => snd b <= snd a) frontier /\
    (forall best s rest,
        frontier = (best, s) :: rest ->
        forall c, In c rest -> snd c <= s).
Proof.
  intros np_log tok predict L f bw n sequences frontier.
  destruct (beam_loop_is_a_step np_log tok predict L f bw n sequences)
    as [previous E].
  fold frontier in E.
  assert (Hs : StronglySorted (fun a b : candidate => snd b <= snd a)
                              frontier)
    by (rewrite E; apply beam_step_sorted).
  split; [rewrite E; apply beam_step_bounded|]. split; [exact Hs|].
  intros best s rest Ef c Hc. rewrite Ef in Hs.
  inversion Hs as [|? ? _ Hall]; subst.
  rewrite Forall_forall in Hall. exact (Hall c Hc).
Qed.

(** *** The words of a caption *)





(** *** What the decoders ask of the network *)

Lemma length_pad_sequences maxlen s :
  List.length (pad_sequences maxlen s) = maxlen.
Proof.
  unfold pad_sequences. rewrite length_app, repeat_length, length_skipn.
  lia.
Qed.

Section SameOnFullWidth.

Variable np_log : Q -> Q.
Variable tok : Tokenizer.
Variable predict predict' : Model.
Variable L : nat.
Variable image_features : FeatureVector.
Variable beam_width : nat.

Hypothesis Hsame :
  forall s, List.length s = L ->
            predict image_features s = predict' image_features s.

Lemma greedy_loop_same n in_text :
  greedy_loop tok predict L image_features n in_text
  = greedy_loop tok predict' L image_features n in_text.
Proof.
  revert in_text. induction n as [|n IH]; intros in_text;
    cbn [greedy_loop]; [reflexivity|].
  rewrite (Hsame _ (length_pad_sequences L _)).
  destruct (argmax _); [|reflexivity].
  destruct (word_for_id _ tok) as [w|]; [|reflexivity].
  destruct (String.eqb w "endseq"); [reflexivity | apply IH].
Qed.

Lemma expand_same c :
  expand np_log tok predict L image_features beam_width c
  = expand np_log tok predict' L image_features beam_width c.
Proof.
  destruct c as [seq score]. unfold expand.
  destruct (finished tok L seq) eqn:F; [reflexivity|].
  unfold finished in F. apply orb_false_elim in F. destruct F as [F _].
  apply Nat.leb_gt in F. rewrite Hsame; [reflexivity|].
  rewrite length_app, repeat_length. lia.
Qed.

Lemma beam_step_same sequences :
  beam_step np_log tok predict L image_features beam_width sequences
  = beam_step np_log tok predict' L image_features beam_width sequences.
Proof.
  unfold beam_step. do 2 f_equal.
  induction sequences as [|c cs IH]; cbn [flat_map]; [reflexivity|].
  now rewrite expand_same, IH.
Qed.

Lemma beam_loop_same n sequences :
  beam_loop np_log tok predict L image_features beam_width n sequences
  = beam_loop np_log tok predict' L image_features beam_width n sequences.
Proof.
  revert sequences. induction n as [|n IH]; intros sequences;
    cbn [beam_loop]; [reflexivity|].
  rewrite beam_step_same. destruct (all_ended tok _); [reflexivity|].
  apply IH.
Qed.

End SameOnFullWidth.

(** X6: both decoders consult the network only on id sequences of
    exactly [max_length] entries: two networks that agree on all inputs
    of that length give the same result in greedy search and in beam
    search, whatever they answer on inputs of other lengths. *)
Theorem X6_network_sees_full_width_only :
  forall np_log tok predict predict' L image_features beam_width,
    (forall s, List.length s = L ->
               predict image_features s = predict' image_features s) ->
    generate_caption_simple (loaded L tok predict) image_features
    = generate_caption_simple (loaded L tok predict') image_features
    /\
    generate_caption_beam_search np_log (loaded L tok predict)
                                 image_features beam_width
    = generate_caption_beam_search np_log (loaded L tok predict')
                                   image_features beam_width.
Proof.
  intros np_log tok predict predict' L f bw H. split.
  - unfold generate_caption_simple, loaded.
    cbn [model tokenizer max_length].
    now rewrite (greedy_loop_same tok predict predict' L f H).
  - unfold generate_caption_beam_search, loaded.
    cbn [model tokenizer max_length]. unfold beam_search.
    now rewrite (beam_loop_same np_log tok predict predict' L f bw H).
Qed.

Lemma X6_witness :
  (forall s : list nat,
      List.length s = 3%nat ->
      always_a [] s
      = (fun (_ : FeatureVector) (s : list nat) =>
           if (List.length s =? 3)%nat then one_hot 5 3 else []) [] s) /\
  generate_caption_beam_search log_tangent
    (loaded 3 small_tokenizer always_a) [] 2
  = generate_caption_beam_search log_tangent
      (loaded 3 small_tokenizer
              (fun (_ : FeatureVector) (s : list nat) =>
                 if (List.length s =? 3)%nat then one_hot 5 3 else []))
      [] 2.
Proof.
  assert (H : forall s : list nat,
             List.length s = 3%nat ->
             always_a [] s
             = (fun (_ : FeatureVector) (s : list nat) =>
                  if (List.length s =? 3)%nat then one_hot 5 3 else [])
                 [] s).
  { intros s Hs. cbv beta. rewrite Hs. reflexivity. }
  split; [exact H|].
  exact (proj2 (X6_network_sees_full_width_only log_tangent small_tokenizer
                  always_a _ 3 [] 2 H)).
Defined.

(** *** Greedy search: calls and tokens *)

Lemma greedy_loop_traced_calls tok predict L image_features n :
  forall in_text ws k r ws' k',
    greedy_loop_traced tok predict L image_features n in_text ws k
    = (r, ws', k') ->
    (List.length ws <= List.length ws')%nat /\
    ((List.length ws' = List.length ws + n /\ k' = k + n)%nat \/
     (List.length ws' < List.length ws + n /\
      k' = k + (List.length ws' - List.length ws) + 1)%nat).
Proof.
  induction n as [|n IH]; intros in_text ws k r ws' k' H;
    cbn [greedy_loop_traced] in H.
  - inversion H; subst. split; [lia | left; lia].
  - destruct (argmax _) as [p|].
    2:{ inversion H; subst. split; [lia | right; lia]. }
    destruct (word_for_id p tok) as [w|].
    2:{ inversion H; subst. split; [lia | right; lia]. }
    destruct (String.eqb w "endseq").
    { inversion H; subst. split; [lia | right; lia]. }
    apply IH in H. rewrite length_app in H. cbn [List.length] in H.
    destruct H as [H0 [[H1 H2]|[H1 H2]]]; (split; [lia|]);
      [left | right]; lia.
Qed.

(** X7: in greedy search every call of the network appends exactly one
    token, except a last call that ends the loop (END, an id without a
    word, or an empty distribution): either all [max_length] calls
    appended a token, or fewer tokens were appended and there was exactly
    one call more than tokens. *)
Theorem X7_greedy_calls_and_tokens :
  forall tok predict L image_features,
    let g := generate_caption_simple_traced (loaded L tok predict)
                                            image_features in
    (List.length (words g) = L /\ calls g = L) \/
    ((List.length (words g) < L)%nat /\
     calls g = (List.length (words g) + 1)%nat).
Proof.
  intros tok predict L f. unfold generate_caption_simple_traced, loaded.
  cbn [model tokenizer max_length].
  destruct (greedy_loop_traced tok predict L f L "startseq" [] 0)
    as [[r ws] k] eqn:E.
  apply greedy_loop_traced_calls in E. cbn [List.length] in E.
  destruct E as [_ E].
  destruct r; cbn [words calls]; destruct E as [E|E]; [left|right|left|right];
    lia.
Qed.

(* ================================================================== *)
(** ** Further properties of the scene classifier *)
(* ================================================================== *)

(** *** Which category wins *)

Section FirstMax.

Context {A K : Type}.
Variable ltb : K -> K -> bool.
Variables lt le : K -> K -> Prop.
Variable key : A -> K.

Hypothesis ltb_true : forall a b, ltb a b = true -> lt a b.
Hypothesis ltb_false : forall a b, ltb a b = false -> le b a.
Hypothesis lt_trans : forall a b c, lt a b -> lt b c -> lt a c.
Hypothesis le_lt_trans : forall a b c, le a b -> lt b c -> lt a c.

Lemma max_from_first l :
  forall l1 best l2,
    (forall x, In x l1 -> lt (key x) (key best)) ->
    (forall x, In x l2 -> le (key x) (key best)) ->
    exists m1 m2,
      l1 ++ best :: l2 ++ l = m1 ++ max_from ltb key best l :: m2 /\
      (forall x, In x m1 -> lt (key x) (key (max_from ltb key best l))) /\
      (forall x, In x m2 -> le (key x) (key (max_from ltb key best l))).
Proof.
  induction l as [|x l IH]; intros l1 best l2 H1 H2; cbn [max_from].
  - exists l1, l2. rewrite app_nil_r. auto.
  - destruct (ltb (key best) (key x)) eqn:E.
    + apply ltb_true in E.
      destruct (IH (l1 ++ best :: l2) x []) as (m1 & m2 & Em & Hm1 & Hm2).
      * intros y Hy. apply in_app_or in Hy.
        destruct Hy as [Hy|[<-|Hy]]; [| exact E |].
        -- apply lt_trans with (key best); [now apply H1 | exact E].
        -- apply le_lt_trans with (key best); [now apply H2 | exact E].
      * intros y [].
      * exists m1, m2. split; [|now split].
        rewrite <- Em. cbn [app]. rewrite <- app_assoc. reflexivity.
    + apply ltb_false in E.
      destruct (IH l1 best (l2 ++ [x])) as (m1 & m2 & Em & Hm1 & Hm2).
      * exact H1.
      * intros y Hy. apply in_app_or in Hy.
        destruct Hy as [Hy|[<-|[]]]; [now apply H2 | exact E].
      * exists m1, m2. split; [|now split].
        rewrite <- Em. rewrite <- app_assoc. reflexivity.
Qed.

End FirstMax.

Lemma table_split {V : Type} (table : dict V) m1 c m2 :
  keys table = m1 ++ c :: m2 ->
  exists t1 v t2,
    table = t1 ++ (c, v) :: t2 /\ keys t1 = m1 /\ keys t2 = m2.
Proof.
  unfold keys. intros H. apply map_eq_app in H.
  destruct H as (t1 & t' & -> & H1 & H2). apply map_eq_cons in H2.
  destruct H2 as ([c' v] & t2 & -> & Hc & H2). cbn in Hc. subst c'.
  now exists t1, v, t2.
Qed.

Lemma in_keys {V : Type} (d : dict V) c v : In (c, v) d -> In c (keys d).
Proof. intros H. unfold keys. change c with (fst (c, v)). now apply in_map. Qed.

(** X8: [categorize_scene] returns the first category, in the order of
    the keyword table, among those with the highest count: every category
    before it has a strictly smaller count and none after it has a larger
    one; if that count is 0 the answer is general with confidence 0.5. *)
Theorem X8_categorize_scene_first_best :
  forall table predictions,
    NoDup (keys table) -> table <> [] ->
    exists t1 c kws t2,
      table = t1 ++ (c, kws) :: t2 /\
      (forall c' kws', In (c', kws') t1 ->
         (spec_count kws' predictions < spec_count kws predictions)%nat) /\
      (forall c' kws', In (c', kws') t2 ->
         (spec_count kws' predictions <= spec_count kws predictions)%nat) /\
      categorize_scene_with table predictions
      = if (0 <? spec_count kws predictions)%nat then (c, 7 # 10)
        else ("general", 1 # 2).
Proof.
  intros table predictions Hnd Hne.
  destruct table as [|[c0 k0] t] eqn:Et; [congruence|]. rewrite <- Et in *.
  unfold categorize_scene_with.
  assert (Hk : keys (count_scores table predictions) = c0 :: keys t).
  { rewrite count_scores_map by assumption.
    rewrite (keys_map (fun kws => match_score kws predictions)).
    now rewrite Et. }
  rewrite Hk. cbn [max_key].
  set (key := score_of 0%nat (count_scores table predictions)).
  destruct (max_from_first Nat.ltb Nat.lt Nat.le key
              (fun a b H => proj1 (Nat.ltb_lt a b) H)
              (fun a b H => proj1 (Nat.ltb_ge a b) H)
              Nat.lt_trans Nat.le_lt_trans (keys t) [] c0 [])
    as (m1 & m2 & Em & Hm1 & Hm2); try (intros x []).
  cbn [app] in Em. set (best := max_from Nat.ltb key c0 (keys t)) in *.
  assert (Ekeys : keys table = m1 ++ best :: m2) by (now rewrite Et).
  destruct (table_split table m1 best m2 Ekeys) as (t1 & kws & t2 & E & <- & <-).
  assert (Hin : In (best, kws) table).
  { rewrite E. apply in_or_app. right. now left. }
  exists t1, best, kws, t2. split; [exact E|].
  rewrite <- (score_of_count table predictions best kws Hnd Hin).
  fold key. repeat split.
  - intros c' kws' Hc.
    rewrite <- (score_of_count table predictions c' kws' Hnd).
    + apply Hm1. now apply (in_keys t1 c' kws').
    + rewrite E. apply in_or_app. now left.
  - intros c' kws' Hc.
    rewrite <- (score_of_count table predictions c' kws' Hnd).
    + apply Hm2. now apply (in_keys t2 c' kws').
    + rewrite E. apply in_or_app. right. now right.
Qed.

Lemma scene_keywords_nonempty : scene_keywords <> [].
Proof. discriminate. Qed.

Lemma X8_witness :
  NoDup (keys scene_keywords) /\ scene_keywords <> [] /\
  exists t1 c kws t2,
    scene_keywords = t1 ++ (c, kws) :: t2 /\
    (forall c' kws', In (c', kws') t1 ->
       (spec_count kws' ["sunset_landscape"]
        < spec_count kws ["sunset_landscape"])%nat) /\
    (forall c' kws', In (c', kws') t2 ->
       (spec_count kws' ["sunset_landscape"]
        <= spec_count kws ["sunset_landscape"])%nat) /\
    categorize_scene ["sunset_landscape"]
    = if (0 <? spec_count kws ["sunset_landscape"])%nat then (c, 7 # 10)
      else ("general", 1 # 2).
Proof.
  split; [exact scene_keywords_distinct|].
  split; [exact scene_keywords_nonempty|].
  exact (X8_categorize_scene_first_best scene_keywords ["sunset_landscape"]
           scene_keywords_distinct scene_keywords_nonempty).
Defined.

Lemma advanced_first_best :
  forall table predictions confidence_scores,
    NoDup (keys table) -> table <> [] ->
    exists t1 c kws t2,
      let score k := weighted_score k predictions confidence_scores in
      table = t1 ++ (c, kws) :: t2 /\
      (forall c' kws', In (c', kws') t1 -> score kws' < score kws) /\
      (forall c' kws', In (c', kws') t2 -> score kws' <= score kws) /\
      advanced_scene_categorization_with table predictions confidence_scores
      = if Qltb (3 # 10) (score kws)
        then (c, if Qltb 1 (score kws) then 1 else score kws)
        else ("general", 1 # 2).
Proof.
  intros table predictions cs Hnd Hne.
  destruct table as [|[c0 k0] t] eqn:Et; [congruence|]. rewrite <- Et in *.
  unfold advanced_scene_categorization_with.
  assert (Hw : weighted_scores table predictions cs
               = map (fun '(c, kws) =>
                        (c, weighted_score kws predictions cs)) table).
  { unfold weighted_scores.
    exact (fold_set_fresh (fun kws => weighted_score kws predictions cs)
                          table [] Hnd). }
  assert (Hk : keys (weighted_scores table predictions cs) = c0 :: keys t).
  { rewrite Hw, (keys_map (fun kws => weighted_score kws predictions cs)).
    now rewrite Et. }
  rewrite Hk. cbn [max_key].
  set (key := score_of 0 (weighted_scores table predictions cs)).
  destruct (max_from_first Qltb Qlt Qle key
              (fun a b H => proj1 (Qltb_true a b) H)
              (fun a b H => proj1 (Qltb_false a b) H)
              Qlt_trans Qle_lt_trans (keys t) [] c0 [])
    as (m1 & m2 & Em & Hm1 & Hm2); try (intros x []).
  cbn [app] in Em. set (best := max_from Qltb key c0 (keys t)) in *.
  assert (Ekeys : keys table = m1 ++ best :: m2) by (now rewrite Et).
  destruct (table_split table m1 best m2 Ekeys) as (t1 & kws & t2 & E & <- & <-).
  assert (Hin : In (best, kws) table).
  { rewrite E. apply in_or_app. right. now left. }
  exists t1, best, kws, t2. cbv zeta. split; [exact E|].
  rewrite <- (score_of_weighted table predictions cs best kws Hnd Hin).
  fold key. repeat split.
  - intros c' kws' Hc.
    rewrite <- (score_of_weighted table predictions cs c' kws' Hnd).
    + apply Hm1. now apply (in_keys t1 c' kws').
    + rewrite E. apply in_or_app. now left.
  - intros c' kws' Hc.
    rewrite <- (score_of_weighted table predictions cs c' kws' Hnd).
    + apply Hm2. now apply (in_keys t2 c' kws').
    + rewrite E. apply in_or_app. right. now right.
Qed.

(** A score that is never added to stays the initial 0. *)
Lemma keyword_fold_no_match cs i pred keywords :
  forall acc,
    matches keywords pred = false ->
    fold_left (keyword_step cs i pred) keywords acc = acc.
Proof.
  unfold matches, any.
  induction keywords as [|keyword keywords IH]; intros acc H;
    cbn [fold_left]; [reflexivity|].
  cbn [existsb] in H. apply orb_false_elim in H. destruct H as [Hk H].
  unfold keyword_step at 2. rewrite Hk. now apply IH.
Qed.

Lemma weighted_score_no_match keywords predictions cs :
  existsb (matches keywords) predictions = false ->
  weighted_score keywords predictions cs = 0.
Proof.
  unfold weighted_score, enumerate. generalize 0%nat (0 : Q).
  induction predictions as [|pred predictions IH]; intros k acc H;
    cbn [enumerate_from fold_left]; [reflexivity|].
  cbn [existsb] in H. apply orb_false_elim in H. destruct H as [Hp H].
  rewrite (keyword_fold_no_match cs k pred keywords acc Hp).
  now apply IH.
Qed.

(** X9: [advanced_scene_categorization] answers a category only if one of
    the keywords of that category occurs in one of the predictions; when
    no keyword of any category occurs in any prediction, it answers
    general with confidence 0.5.  A score that no match has added to is
    exactly the initial 0, which is below the threshold 0.3 whatever the
    rounding of the sums. *)
Theorem X9_advanced_needs_a_match :
  forall table predictions confidence_scores,
    NoDup (keys table) ->
    (forall c s,
        advanced_scene_categorization_with table predictions
                                           confidence_scores = (c, s) ->
        (c, s) <> ("general", 1 # 2) ->
        exists kws keyword pred,
          In (c, kws) table /\ In keyword kws /\ In pred predictions /\
          str_in keyword pred = true)
    /\
    ((forall c kws pred,
         In (c, kws) table -> In pred predictions ->
         matches kws pred = false) ->
     advanced_scene_categorization_with table predictions confidence_scores
     = ("general", 1 # 2)).
Proof.
  intros table predictions cs Hnd.
  destruct table as [|e t] eqn:Et.
  { split; [|reflexivity]. intros c s H Hne. cbn in H. congruence. }
  rewrite <- Et in *.
  assert (Hne : table <> []) by (rewrite Et; discriminate).
  destruct (advanced_first_best table predictions cs Hnd Hne)
    as (t1 & c0 & kws & t2 & E & _ & _ & Hr).
  cbv zeta in Hr.
  assert (Hin : In (c0, kws) table).
  { rewrite E. apply in_or_app. right. now left. }
  split.
  - intros c s H Hgen. rewrite Hr in H.
    destruct (Qltb (3 # 10) (weighted_score kws predictions cs)) eqn:E3;
      [|congruence].
    injection H as <- _.
    destruct (existsb (matches kws) predictions) eqn:Em.
    + apply existsb_exists in Em. destruct Em as (pred & Hp & Hm).
      unfold matches, any in Hm. apply existsb_exists in Hm.
      destruct Hm as (keyword & Hk & Hs).
      now exists kws, keyword, pred.
    + rewrite (weighted_score_no_match kws predictions cs Em) in E3.
      discriminate E3.
  - intros Hno. rewrite Hr.
    rewrite (weighted_score_no_match kws predictions cs); [reflexivity|].
    destruct (existsb (matches kws) predictions) eqn:Em; [|reflexivity].
    apply existsb_exists in Em. destruct Em as (pred & Hp & Hm).
    now rewrite (Hno c0 kws pred Hin Hp) in Hm.
Qed.

Lemma X9_witness :
  NoDup (keys scene_keywords) /\
  advanced_scene_categorization ["sunset_landscape"; "dog"]
                                [9 # 10; 1 # 20] = ("nature", 1) /\
  exists kws keyword pred,
    In ("nature", kws) scene_keywords /\ In keyword kws /\
    In pred ["sunset_landscape"; "dog"] /\ str_in keyword pred = true.
Proof.
  assert (H : advanced_scene_categorization ["sunset_landscape"; "dog"]
                                            [9 # 10; 1 # 20]
              = ("nature", 1)) by (vm_compute; reflexivity).
  split; [exact scene_keywords_distinct|]. split; [exact H|].
  refine (proj1 (X9_advanced_needs_a_match
                   scene_keywords ["sunset_landscape"; "dog"]
                   [9 # 10; 1 # 20] scene_keywords_distinct)
                "nature" 1 H _).
  intros E. discriminate E.
Defined.

(** X10: the answer of [advanced_scene_categorization] is either general
    with confidence 0.5, or a category of the keyword table with a
    confidence above 0.3 and at most 1.0; with no prediction at all, or
    with an empty table, it is general with confidence 0.5. *)
Theorem X10_advanced_answer_range :
  forall table predictions confidence_scores,
    NoDup (keys table) ->
    (advanced_scene_categorization_with table predictions confidence_scores
     = ("general", 1 # 2)
     \/ exists c s,
         advanced_scene_categorization_with table predictions
                                            confidence_scores = (c, s) /\
         In c (keys table) /\ (3 # 10) < s /\ s <= 1)
    /\ advanced_scene_categorization_with table [] confidence_scores
       = ("general", 1 # 2)
    /\ advanced_scene_categorization_with [] predictions confidence_scores
       = ("general", 1 # 2).
Proof.
  intros table predictions cs Hnd.
  destruct table as [|e t] eqn:Et.
  { repeat split; try left; reflexivity. }
  rewrite <- Et in *.
  assert (Hne : table <> []) by (rewrite Et; discriminate).
  split; [|split; [|reflexivity]].
  - destruct (advanced_first_best table predictions cs Hnd Hne)
      as (t1 & c & kws & t2 & E & _ & _ & Hr).
    cbv zeta in Hr. rewrite Hr.
    destruct (Qltb (3 # 10) (weighted_score kws predictions cs)) eqn:E3;
      [|now left].
    right. apply Qltb_true in E3. eexists _, _. split; [reflexivity|].
    split; [rewrite E; unfold keys; rewrite map_app; apply in_or_app;
            right; now left|].
    destruct (Qltb 1 (weighted_score kws predictions cs)) eqn:E1.
    + split; [reflexivity | apply Qle_refl].
    + apply Qltb_false in E1. now split.
  - destruct (advanced_first_best table [] cs Hnd Hne)
      as (t1 & c & kws & t2 & _ & _ & _ & Hr).
    exact Hr.
Qed.

Lemma X10_witness :
  NoDup (keys scene_keywords) /\
  advanced_scene_categorization [] [9 # 10] = ("general", 1 # 2).
Proof.
  split; [exact scene_keywords_distinct|].
  exact (proj1 (proj2 (X10_advanced_answer_range scene_keywords ["dog"]
                         [9 # 10] scene_keywords_distinct))).
Defined.

(** *** Missing confidences *)

Lemma confidence_weight_padded cs k i :
  confidence_weight (cs ++ repeat (1 # 10) k) i = confidence_weight cs i.
Proof.
  unfold confidence_weight.
  destruct (Nat.lt_ge_cases i (List.length cs)) as [H|H].
  - now rewrite nth_error_app1.
  - rewrite nth_error_app2 by exact H.
    replace (nth_error cs i) with (@None Q)
      by (symmetry; now apply nth_error_None).
    destruct (nth_error (repeat (1 # 10) k) (i - List.length cs)) eqn:E;
      [|reflexivity].
    apply nth_error_In, repeat_spec in E. now subst.
Qed.

Lemma keyword_step_padded cs k i pred :
  keyword_step (cs ++ repeat (1 # 10) k) i pred = keyword_step cs i pred.
Proof. unfold keyword_step. now rewrite confidence_weight_padded. Qed.

Lemma weighted_score_padded keywords predictions cs k :
  weighted_score keywords predictions (cs ++ repeat (1 # 10) k)
  = weighted_score keywords predictions cs.
Proof.
  unfold weighted_score. generalize (enumerate predictions) (0 : Q).
  induction l as [|[i pred] l IH]; intros acc; cbn [fold_left];
    [reflexivity|].
  now rewrite keyword_step_padded, IH.
Qed.

Lemma context_step_padded cs k ctx ip :
  context_step (cs ++ repeat (1 # 10) k) ctx ip = context_step cs ctx ip.
Proof.
  destruct ip as [i pred]. unfold context_step.
  now rewrite confidence_weight_padded.
Qed.

(** X11: a prediction whose rank lies beyond the confidence list is
    treated as having confidence 0.1: extending the confidence list by
    any number of entries 0.1 changes neither the answer of
    [advanced_scene_categorization] nor the buckets of
    [_extract_contextual_info]. *)
Theorem X11_missing_confidence_is_one_tenth :
  forall table predictions confidence_scores k,
    advanced_scene_categorization_with
      table predictions (confidence_scores ++ repeat (1 # 10) k)
    = advanced_scene_categorization_with table predictions
                                         confidence_scores
    /\
    _extract_contextual_info predictions
                             (confidence_scores ++ repeat (1 # 10) k)
    = _extract_contextual_info predictions confidence_scores.
Proof.
  intros table predictions cs k. split.
  - unfold advanced_scene_categorization_with.
    assert (E : weighted_scores table predictions (cs ++ repeat (1 # 10) k)
                = weighted_scores table predictions cs).
    { unfold weighted_scores. generalize (@nil (string * Q)).
      induction table as [|[c kws] table IH]; intros d; cbn [fold_left];
        [reflexivity|].
      now rewrite weighted_score_padded, IH. }
    now rewrite E.
  - unfold _extract_contextual_info.
    generalize (enumerate (firstn 8 predictions)) (mkContext [] [] [] [] []).
    induction l as [|ip l IH]; intros ctx; cbn [fold_left]; [reflexivity|].
    now rewrite context_step_padded, IH.
Qed.

(** *** Contextual extraction: what enters the buckets *)

Lemma enumerate_from_app {A : Type} (l1 l2 : list A) k :
  enumerate_from k (l1 ++ l2)
  = enumerate_from k l1 ++ enumerate_from (k + List.length l1) l2.
Proof.
  revert k. induction l1 as [|x l1 IH]; intros k; cbn.
  - now rewrite Nat.add_0_r.
  - rewrite IH. now rewrite Nat.add_succ_r.
Qed.

Lemma context_step_unscored cs ctx i pred :
  (List.length cs <= i)%nat -> context_step cs ctx (i, pred) = ctx.
Proof.
  intros H. unfold context_step, confidence_weight.
  replace (nth_error cs i) with (@None Q)
    by (symmetry; now apply nth_error_None).
  reflexivity.
Qed.

Lemma fold_context_unscored cs (l : list (nat * string)) :
  (forall i pred, In (i, pred) l -> (List.length cs <= i)%nat) ->
  forall ctx, fold_left (context_step cs) l ctx = ctx.
Proof.
  induction l as [|[i pred] l IH]; intros H ctx; cbn [fold_left];
    [reflexivity|].
  rewrite context_step_unscored by (apply (H i pred); now left).
  apply IH. intros j p Hin. apply (H j p). now right.
Qed.

(** X12: a prediction that has no confidence score never enters a
    bucket, because the default 0.1 does not exceed the gate 0.1:
    [_extract_contextual_info] gives the same buckets when the
    predictions are cut to the length of the confidence list, and no
    bucket has an entry when the confidence list is empty. *)
Theorem X12_unscored_predictions_are_ignored :
  forall predictions confidence_scores,
    _extract_contextual_info predictions confidence_scores
    = _extract_contextual_info
        (firstn (List.length confidence_scores) predictions)
        confidence_scores
    /\ _extract_contextual_info predictions [] = mkContext [] [] [] [] [].
Proof.
  assert (G : forall predictions cs,
             _extract_contextual_info predictions cs
             = _extract_contextual_info
                 (firstn (List.length cs) predictions) cs).
  { intros predictions cs. unfold _extract_contextual_info.
    set (n := List.length cs). set (P := firstn 8 predictions).
    assert (E : firstn 8 (firstn n predictions) = firstn n P).
    { unfold P. rewrite !firstn_firstn. now rewrite Nat.min_comm. }
    rewrite E. rewrite <- (firstn_skipn n P) at 1.
    unfold enumerate. rewrite enumerate_from_app, fold_left_app.
    apply fold_context_unscored. intros i pred Hin.
    apply in_enumerate_from in Hin. destruct Hin as [Hi Hn].
    cbn [Nat.add] in Hi. rewrite length_firstn in Hi.
    destruct (Nat.le_gt_cases (List.length P) n) as [Hle|Hgt].
    - rewrite skipn_all2 in Hn by exact Hle.
      destruct (i - _)%nat; discriminate Hn.
    - fold n. lia. }
  intros predictions cs. split; [apply G|].
  rewrite G. reflexivity.
Qed.

Lemma length_append_if b l x :
  (List.length (append_if b l x)
   = List.length l + (if b then 1 else 0))%nat.
Proof.
  unfold append_if. destruct b; [|lia]. rewrite length_app. reflexivity.
Qed.

Lemma context_step_sizes cs n ctx ip :
  bucket_sizes_within n ctx ->
  bucket_sizes_within (S n) (context_step cs ctx ip).
Proof.
  destruct ip as [i pred]. intros (H1 & H2 & H3 & H4). unfold context_step.
  destruct (Qltb (1 # 10) (confidence_weight cs i)).
  - unfold bucket_sizes_within.
    cbn [primary_objects secondary_objects environment activity_indicators
         mood_indicators].
    rewrite !length_append_if.
    destruct (matches object_keywords pred),
      (Qltb (3 # 10) (confidence_weight cs i)),
      (matches environment_keywords pred),
      (matches activity_keywords pred),
      (matches mood_keywords pred); cbn [andb negb]; lia.
  - unfold bucket_sizes_within. lia.
Qed.

Lemma fold_context_sizes cs (l : list (nat * string)) :
  forall n ctx,
    bucket_sizes_within n ctx ->
    bucket_sizes_within (n + List.length l)
                        (fold_left (context_step cs) l ctx).
Proof.
  induction l as [|ip l IH]; intros n ctx H; cbn [fold_left List.length].
  - now rewrite Nat.add_0_r.
  - rewrite Nat.add_succ_r. apply (IH (S n)). now apply context_step_sizes.
Qed.

(** X13: [_extract_contextual_info] puts a prediction into at most one of
    the primary and secondary objects: together these two buckets hold at
    most [min(8, len(predictions))] entries, and so does each of the
    environment, activity and mood buckets. *)
Theorem X13_bucket_sizes :
  forall predictions confidence_scores,
    let ctx := _extract_contextual_info predictions confidence_scores in
    let n := Nat.min 8 (List.length predictions) in
    (List.length (primary_objects ctx)
     + List.length (secondary_objects ctx) <= n)%nat /\
    (List.length (environment ctx) <= n)%nat /\
    (List.length (activity_indicators ctx) <= n)%nat /\
    (List.length (mood_indicators ctx) <= n)%nat.
Proof.
  intros predictions cs ctx n.
  pose proof (fold_context_sizes cs (enumerate (firstn 8 predictions)) 0
                (mkContext [] [] [] [] [])) as H.
  unfold enumerate in H. rewrite length_enumerate_from, length_firstn in H.
  apply H. unfold bucket_sizes_within. cbn. lia.
Qed.

Lemma replace_underscore_clean s :
  str_in "_" (replace_underscore s) = false.
Proof.
  induction s as [|c s IH]; [reflexivity|].
  cbn [replace_underscore str_in]. rewrite IH, orb_false_r.
  cbn [prefix].
  destruct (Ascii.eqb_spec c "_") as [->|Hne].
  - reflexivity.
  - destruct (ascii_dec "_" c) as [E|_]; [congruence | reflexivity].
Qed.

(** X14: no entry of any bucket of [_extract_contextual_info] contains an
    underscore: labels enter the buckets with every ['_'] replaced by a
    space. *)
Theorem X14_bucket_entries_have_no_underscore :
  forall predictions confidence_scores bucket x,
    In bucket
       (buckets (_extract_contextual_info predictions confidence_scores)) ->
    In x bucket -> str_in "_" x = false.
Proof.
  intros predictions cs bucket x Hb Hx.
  assert (H : from_rank predictions cs x).
  { refine (fold_context_from predictions cs
              (enumerate (firstn 8 predictions)) _ _ _ bucket x Hb Hx).
    - intros i pred Hin. now apply in_enumerate_firstn.
    - intros b y Hin Hy. unfold buckets in Hin. simpl in Hin.
      destruct Hin as [<-|[<-|[<-|[<-|[<-|[]]]]]]; destruct Hy. }
  destruct H as (i & pred & _ & _ & -> & _).
  apply replace_underscore_clean.
Qed.

Lemma X14_witness :
  In (primary_objects
        (_extract_contextual_info ["hot_dog"] [9 # 10]))
     (buckets (_extract_contextual_info ["hot_dog"] [9 # 10])) /\
  In "hot dog"
     (primary_objects (_extract_contextual_info ["hot_dog"] [9 # 10])) /\
  str_in "_" "hot dog" = false.
Proof.
  assert (H1 : In (primary_objects
                     (_extract_contextual_info ["hot_dog"] [9 # 10]))
                  (buckets (_extract_contextual_info ["hot_dog"] [9 # 10])))
    by (vm_compute; auto).
  assert (H2 : In "hot dog"
                  (primary_objects
                     (_extract_contextual_info ["hot_dog"] [9 # 10])))
    by (vm_compute; auto).
  split; [exact H1|]. split; [exact H2|].
  exact (X14_bucket_entries_have_no_underscore ["hot_dog"] [9 # 10]
           _ "hot dog" H1 H2).
Defined.

(* ================================================================== *)
(** ** Hashtags and composition *)
(* ================================================================== *)

Lemma prediction_tags_filter predictions :
  prediction_tags predictions
  = map (fun pred => ("#" ++ py_lower (drop " " (drop "_" pred)))%string)
        (filter (fun pred =>
                   (3 <? String.length
                           (py_lower (drop " " (drop "_" pred))))%nat)
                (firstn 3 predictions)).
Proof.
  unfold prediction_tags.
  assert (G : forall l acc,
             fold_left
               (fun tags pred =>
                  if (3 <? String.length
                             (py_lower (drop " " (drop "_" pred))))%nat
                  then tags
                       ++ [("#" ++ py_lower (drop " " (drop "_" pred)))%string]
                  else tags) l acc
             = acc
               ++ map (fun pred =>
                         ("#" ++ py_lower (drop " " (drop "_" pred)))%string)
                      (filter (fun pred =>
                                 (3 <? String.length
                                         (py_lower
                                            (drop " " (drop "_" pred))))%nat)
                              l)).
  { induction l as [|p l IH]; intros acc; cbn [fold_left filter].
    - now rewrite app_nil_r.
    - rewrite IH.
      destruct (3 <? String.length (py_lower (drop " " (drop "_" p))))%nat;
        [|reflexivity].
      cbn [map]. now rewrite <- app_assoc. }
  apply (G (firstn 3 predictions) []).
Qed.

(** X15: [_generate_hashtags] always returns the three base tags and the
    two subject tags, joined by spaces, followed by at most one more tag:
    that of the first of the first three predictions that keeps more than
    3 characters once underscores and spaces are dropped.  The other
    predictions never show, so the result has 5 or 6 tags. *)
Theorem X15_hashtags_shape :
  forall main_subject predictions,
    let long pred :=
      (3 <? String.length (py_lower (drop " " (drop "_" pred))))%nat in
    let tag pred :=
      ("#" ++ py_lower (drop " " (drop "_" pred)))%string in
    hashtag_list main_subject predictions
    = base_tags ++ subject_tags main_subject
      ++ firstn 1 (map tag (filter long (firstn 3 predictions)))
    /\ (5 <= List.length (hashtag_list main_subject predictions) <= 6)%nat
    /\ _generate_hashtags main_subject predictions
       = join_with " "
           (base_tags ++ subject_tags main_subject
            ++ firstn 1 (map tag (filter long (firstn 3 predictions)))).
Proof.
  intros main_subject predictions long tag.
  assert (E : hashtag_list main_subject predictions
              = base_tags ++ subject_tags main_subject
                ++ firstn 1 (map tag (filter long (firstn 3 predictions)))).
  { unfold hashtag_list. rewrite prediction_tags_filter. reflexivity. }
  split; [exact E|]. split.
  - rewrite E. rewrite !length_app, length_firstn. cbn [List.length
      base_tags subject_tags]. lia.
  - unfold _generate_hashtags. now rewrite E.
Qed.

(** X16: [_infer_composition] never returns an empty list, so taking its
    first entry cannot fail; it returns at most three styles, and never
    both the portrait and the landscape composition. *)
Theorem X16_composition_styles :
  forall predictions c,
    let styles := _infer_composition predictions c in
    styles <> [] /\
    (List.length styles <= 3)%nat /\
    ~ (In "portrait composition" styles /\
       In "landscape composition" styles).
Proof.
  intros predictions c styles. subst styles. unfold _infer_composition.
  destruct (any (fun pred => str_in "portrait" pred) predictions),
    (any (fun pred => str_in "landscape" pred) predictions),
    (String.eqb (saturation c) "high"),
    (String.eqb (dominant c) "balanced");
    cbn [app]; (split; [discriminate|]); (split; [cbn; lia|]);
    cbn [In]; intros [H1 H2]; intuition discriminate.
Qed.

(* ================================================================== *)
(** ** generate_multiple_captions: the loop that makes captions unique *)
(* ================================================================== *)

Section UniqueLoop.

Variable list_of_set : list string -> list string.
Variable num_captions : nat.
Variable new_caption : string.

Hypothesis Hset : lists_a_set list_of_set.

Let loop := unique_loop list_of_set num_captions new_caption.
Let next (u : list string) := list_of_set (u ++ [new_caption]).

Lemma next_nodup u : NoDup (next u).
Proof. apply Hset. Qed.

Lemma next_has_new u : In new_caption (next u).
Proof. apply Hset. apply in_or_app. right. now left. Qed.

Lemma length_next_old u :
  NoDup u -> In new_caption u -> List.length (next u) = List.length u.
Proof.
  intros Hu Hin. apply Permutation_length.
  apply NoDup_Permutation; [apply next_nodup | exact Hu|].
  intros x. unfold next. rewrite (proj2 (Hset _) x). split.
  - intros H. apply in_app_or in H. destruct H as [H|[<-|[]]]; assumption.
  - intros H. apply in_or_app. now left.
Qed.

Lemma length_next_new u :
  NoDup u -> ~ In new_caption u ->
  List.length (next u) = S (List.length u).
Proof.
  intros Hu Hin.
  replace (S (List.length u)) with (List.length (u ++ [new_caption]))
    by (rewrite length_app; cbn; lia).
  apply Permutation_length.
  apply NoDup_Permutation; [apply next_nodup | |].
  - apply NoDup_app; [exact Hu | repeat constructor; intros [] |].
    intros x Hx [<-|[]]. contradiction.
  - intros x. apply (proj2 (Hset _) x).
Qed.

(** Once the new caption is in the set and the set is too small, the
    loop cannot leave. *)
Lemma unique_loop_stuck fuel :
  forall u,
    NoDup u -> In new_caption u ->
    (List.length u < num_captions)%nat ->
    loop fuel u = None.
Proof.
  induction fuel as [|fuel IH]; intros u Hu Hin Hlen; [reflexivity|].
  unfold loop. cbn [unique_loop].
  apply Nat.ltb_lt in Hlen. rewrite Hlen. apply Nat.ltb_lt in Hlen.
  apply IH; [apply next_nodup | apply next_has_new|].
  fold (next u). now rewrite length_next_old.
Qed.

Lemma unique_loop_stuck_after_one fuel u :
  NoDup u -> ~ In new_caption u ->
  (S (List.length u) < num_captions)%nat ->
  loop fuel u = None.
Proof.
  intros Hu Hin Hlen. destruct fuel as [|fuel]; [reflexivity|].
  unfold loop. cbn [unique_loop].
  assert (H : (List.length u <? num_captions)%nat = true)
    by (apply Nat.ltb_lt; lia).
  rewrite H. apply unique_loop_stuck;
    [apply next_nodup | apply next_has_new|].
  fold (next u). now rewrite length_next_new.
Qed.

Lemma unique_loop_returns_iff u :
  NoDup u ->
  ((exists fuel r, loop fuel u = Some r) <->
   ((num_captions <= List.length u)%nat \/
    (~ In new_caption u /\ num_captions = S (List.length u)))).
Proof.
  intros Hu. split.
  - intros (fuel & r & H).
    destruct (le_lt_dec num_captions (List.length u)) as [Hle|Hlt];
      [now left|].
    destruct (in_dec string_dec new_caption u) as [Hin|Hin].
    + rewrite (unique_loop_stuck fuel u Hu Hin Hlt) in H. discriminate H.
    + destruct (Nat.eq_dec num_captions (S (List.length u))) as [E|E];
        [now right|].
      rewrite (unique_loop_stuck_after_one fuel u Hu Hin) in H by lia.
      discriminate H.
  - intros [Hle|[Hin E]].
    + exists 1%nat, u. unfold loop. cbn [unique_loop].
      apply Nat.ltb_ge in Hle. now rewrite Hle.
    + exists 2%nat, (next u). unfold loop. cbn [unique_loop].
      assert (H1 : (List.length u <? num_captions)%nat = true)
        by (apply Nat.ltb_lt; lia).
      rewrite H1. fold (next u).
      assert (H2 : (List.length (next u) <? num_captions)%nat = false).
      { apply Nat.ltb_ge. rewrite length_next_new by assumption. lia. }
      now rewrite H2.
Qed.

End UniqueLoop.

Lemma first_seen_lists_a_set : lists_a_set first_seen.
Proof.
  intros l. split; [apply NoDup_nodup|]. intros x. apply nodup_In.
Qed.

(** X17: the loop of [generate_multiple_captions] that fills the set of
    captions up to [num_captions] ever ends only in two cases: the set
    already holds [num_captions] captions, or it holds one less and the
    filler caption is not among them.  In every other case the filler is
    added again and again to a set that already contains it, and the loop
    runs forever. *)
Theorem X17_unique_loop_ends_iff :
  forall list_of_set num_captions new_caption unique_captions,
    lists_a_set list_of_set -> NoDup unique_captions ->
    ((exists fuel r,
         unique_loop list_of_set num_captions new_caption fuel
                     unique_captions = Some r)
     <->
     ((num_captions <= List.length unique_captions)%nat \/
      (~ In new_caption unique_captions /\
       num_captions = S (List.length unique_captions)))).
Proof.
  intros list_of_set num new u Hset Hu.
  exact (unique_loop_returns_iff list_of_set num new Hset u Hu).
Qed.

Lemma X17_witness :
  lists_a_set first_seen /\ NoDup ["a"; "b"] /\
  ((exists fuel r, unique_loop first_seen 3 "c" fuel ["a"; "b"] = Some r)
   <->
   ((3 <= List.length ["a"; "b"])%nat \/
    (~ In "c" ["a"; "b"] /\ 3%nat = S (List.length ["a"; "b"])))).
Proof.
  assert (H : NoDup ["a"; "b"]).
  { repeat (constructor; [simpl; intuition discriminate|]). constructor. }
  split; [exact first_seen_lists_a_set|]. split; [exact H|].
  exact (X17_unique_loop_ends_iff first_seen 3 "c" ["a"; "b"]
           first_seen_lists_a_set H).
Defined.

Lemma variations_fixed tone main_subject top_classes c :
  (forall g, variation tone main_subject top_classes g = (c, g)) ->
  forall n captions g,
    variations n tone main_subject top_classes captions g
    = (captions ++ repeat c n, g).
Proof.
  intros Hc. induction n as [|n IH]; intros captions g; cbn [variations].
  - now rewrite app_nil_r.
  - rewrite Hc, IH. cbn [repeat]. now rewrite <- app_assoc.
Qed.

Lemma mem_tone_false tone :
  mem tone tone_names = false ->
  String.eqb tone "creative" = false /\
  String.eqb tone "professional" = false /\
  String.eqb tone "casual" = false /\
  String.eqb tone "poetic" = false /\
  String.eqb tone "social" = false /\
  String.eqb tone "descriptive" = false.
Proof.
  unfold mem, tone_names. cbn [existsb]. intros H.
  repeat (apply orb_false_elim in H; destruct H as [? H]).
  repeat split; assumption.
Qed.

(** For a tone without random choice every pass of the first loop gives
    the same caption, which differs from the filler. *)
Lemma plain_tone_caption tone main_subject top_classes :
  tone = "descriptive" \/ mem tone tone_names = false ->
  exists c,
    (forall g, variation tone main_subject top_classes g = (c, g)) /\
    c <> filler tone main_subject.
Proof.
  intros [->|H].
  - eexists. split; [intros g; reflexivity|].
    unfold filler. cbn. discriminate.
  - apply mem_tone_false in H.
    destruct H as (H1 & H2 & H3 & H4 & H5 & H6).
    eexists. split.
    + intros g. unfold variation. rewrite H1, H2, H3, H4, H5, H6.
      reflexivity.
    + unfold filler. rewrite H1, H2. cbn. discriminate.
Qed.

(** X18: with the tone ["descriptive"], or any tone that is not one of
    the six known ones, and [num_captions >= 3], the uniqueness loop of
    [generate_multiple_captions] never ends, whatever the image analysis
    returned and whatever the random draws: the first loop produces one
    caption [num_captions] times, the set holds that caption and the
    filler, and the filler is added for ever. *)
Theorem X18_plain_tones_never_return :
  forall list_of_set fuel decoded num_captions tone g,
    lists_a_set list_of_set ->
    (3 <= num_captions)%nat ->
    tone = "descriptive" \/ mem tone tone_names = false ->
    generate_multiple_captions list_of_set fuel decoded num_captions tone g
    = None.
Proof.
  intros list_of_set fuel decoded num tone g Hset Hnum Htone.
  unfold generate_multiple_captions.
  destruct (analyze_image_content decoded) as [[scene confidence] top_classes].
  set (subject := main_subject_of top_classes "subject").
  destruct (plain_tone_caption tone subject top_classes Htone)
    as (c & Hc & Hne).
  rewrite (variations_fixed tone subject top_classes c Hc). cbn [app].
  set (u := list_of_set (repeat c num)).
  assert (Hu : NoDup u) by apply Hset.
  assert (Hin : forall x, In x u <-> x = c).
  { intros x. unfold u. rewrite (proj2 (Hset _) x). split.
    - apply repeat_spec.
    - intros ->. destruct num; [lia|]. now left. }
  assert (Hlen : List.length u = 1%nat).
  { change 1%nat with (List.length [c]). apply Permutation_length.
    apply NoDup_Permutation; [exact Hu | repeat constructor; intros []|].
    intros x. rewrite Hin. cbn. intuition. }
  rewrite (unique_loop_stuck_after_one list_of_set num
             (filler tone subject) Hset fuel u Hu); [reflexivity | |lia].
  rewrite Hin. congruence.
Qed.

Lemma X18_witness :
  lists_a_set first_seen /\ (3 <= 3)%nat /\
  ("descriptive" = "descriptive" \/
   mem "descriptive" tone_names = false) /\
  generate_multiple_captions
    first_seen 1000
    (Some [("n02099601", "golden_retriever", 9 # 10);
           ("n04409515", "tennis_ball", 1 # 20)])
    3 "descriptive" [] = None.
Proof.
  assert (H2 : (3 <= 3)%nat) by lia.
  assert (H3 : "descriptive" = "descriptive" \/
               mem "descriptive" tone_names = false) by (left; reflexivity).
  split; [exact first_seen_lists_a_set|]. split; [exact H2|].
  split; [exact H3|].
  exact (X18_plain_tones_never_return first_seen 1000 _ 3 "descriptive" []
           first_seen_lists_a_set H2 H3).
Defined.

(* ================================================================== *)
(** ** generate_smart_caption *)
(* ================================================================== *)

Lemma categorize_scene_no_match top_classes :
  (forall c kws, In (c, kws) scene_keywords ->
                 spec_count kws top_classes = 0%nat) ->
  categorize_scene top_classes = ("general", 1 # 2).
Proof.
  intros H. unfold categorize_scene.
  destruct (categorize_scene_cases scene_keywords top_classes
              scene_keywords_distinct)
    as [[_ E]|(c & kws & Hin & _ & E)]; [exact E|].
  now rewrite E, (H c kws Hin).
Qed.

(** X19: when the scene is general, the tone has no effect on
    [generate_smart_caption] and no random draw is made.  This is so when
    no lower-cased label contains a keyword of any category, and when the
    image analysis fails; the caption is then
    ["A beautiful <subject> captured with artistic vision"].  A tone that
    is not one of the six known ones gives the same caption for every
    scene. *)
Theorem X19_general_scene_ignores_tone :
  forall decoded_predictions tone g,
    let top_classes :=
      map (fun pred : decoded_prediction => py_lower (snd (fst pred)))
          decoded_predictions in
    let fallback :=
      ("A beautiful " ++ main_subject_of top_classes "composition"
         ++ " captured with artistic vision")%string in
    ((forall c kws, In (c, kws) scene_keywords ->
                    spec_count kws top_classes = 0%nat) ->
     generate_smart_caption (Some decoded_predictions) tone g
     = ((fallback, 1 # 2, "general"), g))
    /\
    generate_smart_caption None tone g
    = (("A beautiful subject captured with artistic vision", 1 # 2,
        "general"), g)
    /\
    (mem tone tone_names = false ->
     generate_smart_caption (Some decoded_predictions) tone g
     = ((fallback, snd (categorize_scene top_classes),
         fst (categorize_scene top_classes)), g)).
Proof.
  intros decoded tone g top_classes fallback. subst top_classes fallback.
  split; [|split].
  - intros H. unfold generate_smart_caption, analyze_image_content.
    match goal with
    | |- context [categorize_scene ?X] =>
        replace (categorize_scene X) with ("general", 1 # 2)
          by (symmetry; apply categorize_scene_no_match; exact H)
    end.
    reflexivity.
  - reflexivity.
  - intros H. unfold generate_smart_caption, analyze_image_content.
    unfold decoded_prediction in *.
    match goal with
    | |- context [categorize_scene ?X] =>
        destruct (categorize_scene X) as [scene confidence]
    end.
    rewrite H, andb_false_r. reflexivity.
Qed.

Lemma X19_witness :
  (forall c kws,
      In (c, kws) scene_keywords ->
      spec_count kws
        (map (fun pred : decoded_prediction => py_lower (snd (fst pred)))
             [("n04254120", "Soap_Dispenser", 9 # 10)]) = 0%nat) /\
  generate_smart_caption
    (Some [("n04254120", "Soap_Dispenser", 9 # 10)]) "poetic" [2%nat]
  = (("A beautiful soap dispenser captured with artistic vision", 1 # 2,
      "general"), [2%nat]).
Proof.
  assert (H : forall c kws,
             In (c, kws) scene_keywords ->
             spec_count kws
               (map (fun pred : decoded_prediction =>
                       py_lower (snd (fst pred)))
                    [("n04254120", "Soap_Dispenser", 9 # 10)]) = 0%nat).
  { intros c kws Hin. unfold scene_keywords in Hin. cbn [In] in Hin.
    repeat (destruct Hin as [Hin|Hin];
            [inversion Hin; subst; vm_compute; reflexivity|]).
    destruct Hin. }
  split; [exact H|].
  exact (proj1 (X19_general_scene_ignores_tone
                  [("n04254120", "Soap_Dispenser", 9 # 10)] "poetic"
                  [2%nat]) H).
Defined.

(* ================================================================== *)
(** ** mock_tensorflow.py : decode_predictions *)
(* ================================================================== *)

Section SortedFacts.

Context {A B : Type}.

Lemma sorted_skipn (R : A -> A -> Prop) n l :
  StronglySorted R l -> StronglySorted R (skipn n l).
Proof.
  revert l. induction n as [|n IH]; intros l H; [exact H|].
  destruct l as [|x l]; [constructor|]. cbn [skipn]. apply IH.
  now inversion H.
Qed.

Lemma sorted_snoc (R : A -> A -> Prop) l x :
  StronglySorted R l -> Forall (fun y => R y x) l ->
  StronglySorted R (l ++ [x]).
Proof.
  induction 1 as [|y l Hl IH Hy]; intros Hx; cbn [app].
  - repeat constructor.
  - inversion Hx; subst. constructor; [now apply IH|].
    apply Forall_app. split; [exact Hy | now repeat constructor].
Qed.

Lemma sorted_rev (R : A -> A -> Prop) l :
  StronglySorted R l -> StronglySorted (fun a b => R b a) (rev l).
Proof.
  induction 1 as [|x l Hl IH Hx]; cbn [rev]; [constructor|].
  apply sorted_snoc; [exact IH|].
  apply Forall_forall. intros y Hy. apply in_rev in Hy.
  rewrite Forall_forall in Hx. now apply Hx.
Qed.

Lemma sorted_map (R : A -> A -> Prop) (S : B -> B -> Prop) (f : A -> B) l :
  (forall a b, In a l -> In b l -> R a b -> S (f a) (f b)) ->
  StronglySorted R l -> StronglySorted S (map f l).
Proof.
  intros H Hl. induction Hl as [|x l Hl IH Hx]; cbn [map]; [constructor|].
  constructor.
  - apply IH. intros a b Ha Hb. apply H; now right.
  - apply Forall_forall. intros y Hy. apply in_map_iff in Hy.
    destruct Hy as [a [<- Ha]]. rewrite Forall_forall in Hx.
    apply H; [now left | now right | now apply Hx].
Qed.

End SortedFacts.

Lemma insert_asc_sorted iv l :
  StronglySorted (fun a b : nat * Q => snd a <= snd b) l ->
  StronglySorted (fun a b : nat * Q => snd a <= snd b) (insert_asc iv l).
Proof.
  induction 1 as [|jw l Hl IH Hj]; cbn [insert_asc].
  - repeat constructor.
  - destruct (Qltb (snd jw) (snd iv)) eqn:E.
    + apply Qltb_true in E. constructor; [exact IH|].
      apply Forall_forall. intros z Hz.
      assert (G : forall r, In z (insert_asc iv r) -> z = iv \/ In z r).
      { induction r as [|y r IHr]; cbn [insert_asc];
          [cbn; intuition congruence|].
        destruct (Qltb (snd y) (snd iv)); cbn [In]; intuition congruence. }
      apply G in Hz. destruct Hz as [->|Hz]; [now apply Qlt_le_weak|].
      rewrite Forall_forall in Hj. now apply Hj.
    + apply Qltb_false in E. constructor; [now constructor|].
      constructor; [exact E|]. rewrite Forall_forall in *. intros z Hz.
      apply Qle_trans with (snd jw); [exact E | now apply Hj].
Qed.

Lemma argsort_pairs_sorted (l : list (nat * Q)) :
  StronglySorted (fun a b : nat * Q => snd a <= snd b)
                 (fold_right insert_asc [] l).
Proof.
  induction l as [|x l IH]; cbn [fold_right]; [constructor|].
  now apply insert_asc_sorted.
Qed.

Lemma argsort_entries pred :
  exists pairs,
    argsort pred = map fst pairs /\
    StronglySorted (fun a b : nat * Q => snd a <= snd b) pairs /\
    forall p, In p pairs -> nth_error pred (fst p) = Some (snd p).
Proof.
  exists (fold_right insert_asc [] (enumerate pred)).
  split; [reflexivity|]. split; [apply argsort_pairs_sorted|].
  intros [i v] Hp. apply (proj1 (in_sort_asc _ _)) in Hp.
  apply in_enumerate_from in Hp.
  destruct Hp as [_ Hp]. now rewrite Nat.sub_0_r in Hp.
Qed.

Lemma slice_last_skipn {A : Type} n (l : list A) :
  exists k, slice_last n l = skipn k l.
Proof.
  unfold slice_last. destruct n; [now exists 0%nat | now eexists].
Qed.

Lemma length_slice_last {A : Type} n (l : list A) :
  List.length (slice_last n l)
  = if (n =? 0)%nat then List.length l else Nat.min n (List.length l).
Proof.
  unfold slice_last. destruct n as [|n]; [reflexivity|].
  rewrite length_skipn. cbn [Nat.eqb]. lia.
Qed.

(** X20: one row of the mock [decode_predictions] lists at most [top]
    classes ([min(top, len(pred))] of them; all of them when [top] is 0,
    since [[-0:]] is the whole list), in order of non-increasing
    confidence; every entry names a class of the table and carries the
    confidence [pred[idx]] of the index its id is printed from. *)
Theorem X20_decode_row_is_ranked :
  forall top pred,
    let row := decode_row top pred in
    List.length row
    = (if (top =? 0)%nat then List.length pred
       else Nat.min top (List.length pred)) /\
    StronglySorted (fun a b : decoded_prediction => snd b <= snd a) row /\
    Forall (fun entry : decoded_prediction =>
              In (snd (fst entry)) imagenet_classes /\
              exists idx,
                fst (fst entry) = class_id idx /\
                nth_error pred idx = Some (snd entry)) row.
Proof.
  intros top pred row. subst row. unfold decode_row, reversed.
  destruct (argsort_entries pred) as (pairs & Ea & Hs & Hp).
  split; [|split].
  - rewrite length_map, length_rev, length_slice_last, length_argsort.
    reflexivity.
  - destruct (slice_last_skipn top (argsort pred)) as [k Ek].
    rewrite Ek, Ea, skipn_map, <- map_rev.
    rewrite map_map. apply sorted_skipn with (n := k) in Hs.
    apply sorted_rev in Hs.
    revert Hs. apply sorted_map. intros a b Ha Hb Hab. cbn [snd].
    apply (proj2 (in_rev _ _)) in Ha. apply (proj2 (in_rev _ _)) in Hb.
    assert (Hin : forall p, In p (skipn k pairs) -> In p pairs).
    { intros p H. rewrite <- (firstn_skipn k pairs). apply in_or_app.
      now right. }
    apply Hin, Hp in Ha. apply Hin, Hp in Hb.
    rewrite (nth_error_nth _ _ 0 Ha), (nth_error_nth _ _ 0 Hb). exact Hab.
  - apply Forall_forall. intros entry He. apply in_map_iff in He.
    destruct He as [idx [<- Hidx]]. cbn [fst snd]. split.
    + apply nth_In. apply Nat.mod_upper_bound. discriminate.
    + exists idx. split; [reflexivity|].
      apply (proj2 (in_rev _ _)) in Hidx.
      destruct (slice_last_skipn top (argsort pred)) as [k Ek].
      rewrite Ek in Hidx.
      assert (Hin : In idx (argsort pred)).
      { rewrite <- (firstn_skipn k (argsort pred)). apply in_or_app.
        now right. }
      rewrite Ea in Hin. apply in_map_iff in Hin.
      destruct Hin as [p [<- Hpin]]. apply Hp in Hpin.
      now rewrite Hpin, (nth_error_nth _ _ 0 Hpin).
Qed.

(* ================================================================== *)
(** ** What the caption functions return *)
(* ================================================================== *)

(** X21: the scene and confidence that [generate_smart_caption] returns
    are those of [categorize_scene]: general with confidence 0.5, or one
    of the categories of the keyword table with confidence 0.7; no other
    confidence is ever reported. *)
Theorem X21_smart_caption_confidence :
  forall decoded tone g,
    let '((_, confidence, scene_type), _) :=
      generate_smart_caption decoded tone g in
    (scene_type = "general" /\ confidence = 1 # 2) \/
    (In scene_type (keys scene_keywords) /\ confidence = 7 # 10).
Proof.
  intros decoded tone g. unfold generate_smart_caption.
  assert (H : let '(scene_type, confidence, _) :=
                analyze_image_content decoded in
              (scene_type = "general" /\ confidence = 1 # 2) \/
              (In scene_type (keys scene_keywords) /\ confidence = 7 # 10)).
  { unfold analyze_image_content. destruct decoded as [dp|]; [|now left].
    unfold categorize_scene.
    match goal with
    | |- context [categorize_scene_with scene_keywords ?X] =>
        destruct (categorize_scene_cases scene_keywords X
                    scene_keywords_distinct)
          as [[_ E]|(c & kws & Hin & _ & E)]; rewrite E
    end; [now left|].
    destruct (0 <? _)%nat; [right | now left].
    split; [|reflexivity]. now apply (in_keys scene_keywords c kws). }
  destruct (analyze_image_content decoded) as [[scene confidence] top].
  destruct (_ && _).
  - repeat match goal with
           | |- context [if ?b then _ else _] => destruct b
           | |- context [choice ?l ?g] => destruct (choice l g)
           end; exact H.
  - exact H.
Qed.

Lemma nodup_firstn {A : Type} n (l : list A) :
  NoDup l -> NoDup (firstn n l).
Proof.
  intros H. revert n. induction H as [|x l Hx Hl IH]; intros [|n];
    cbn [firstn]; try constructor.
  - intros Hin. apply Hx. now apply in_firstn in Hin.
  - apply IH.
Qed.

Lemma unique_loop_result list_of_set num_captions new_caption :
  lists_a_set list_of_set ->
  forall fuel u r,
    NoDup u ->
    unique_loop list_of_set num_captions new_caption fuel u = Some r ->
    NoDup r /\ (num_captions <= List.length r)%nat.
Proof.
  intros Hset. induction fuel as [|fuel IH]; intros u r Hu H;
    cbn [unique_loop] in H; [discriminate H|].
  destruct (List.length u <? num_captions)%nat eqn:E.
  - apply IH in H; [exact H | apply Hset].
  - inversion H; subst. apply Nat.ltb_ge in E. now split.
Qed.

(** X22: whenever [generate_multiple_captions] returns, it returns exactly
    [num_captions] captions and no caption twice. *)
Theorem X22_multiple_captions_are_distinct :
  forall list_of_set fuel decoded num_captions tone g captions,
    lists_a_set list_of_set ->
    generate_multiple_captions list_of_set fuel decoded num_captions tone g
    = Some captions ->
    List.length captions = num_captions /\ NoDup captions.
Proof.
  intros list_of_set fuel decoded num tone g captions Hset H.
  unfold generate_multiple_captions in H.
  destruct (analyze_image_content decoded) as [[scene confidence] top].
  destruct (variations num tone _ top [] g) as [cs g'].
  destruct (unique_loop list_of_set num _ fuel (list_of_set cs))
    as [u|] eqn:E; [|discriminate H].
  inversion H; subst.
  apply (unique_loop_result list_of_set num _ Hset) in E; [|apply Hset].
  destruct E as [Hu Hlen]. split; [|now apply nodup_firstn].
  rewrite length_firstn. lia.
Qed.

Lemma X22_witness :
  lists_a_set first_seen /\
  generate_multiple_captions
    first_seen 10 (Some [("n02109961", "sled_dog", 9 # 10)])
    3 "casual" [0; 0; 1]%nat
  = Some ["Really awesome sled dog! Love this shot";
          "Really cool sled dog! Love this shot";
          "A captivating sled dog that draws the viewer's attention"] /\
  List.length ["Really awesome sled dog! Love this shot";
               "Really cool sled dog! Love this shot";
               "A captivating sled dog that draws the viewer's attention"]
  = 3%nat.
Proof.
  assert (H : generate_multiple_captions
                first_seen 10 (Some [("n02109961", "sled_dog", 9 # 10)])
                3 "casual" [0; 0; 1]%nat
              = Some ["Really awesome sled dog! Love this shot";
                      "Really cool sled dog! Love this shot";
                      "A captivating sled dog that draws the viewer's attention"])
    by (vm_compute; reflexivity).
  split; [exact first_seen_lists_a_set|]. split; [exact H|].
  exact (proj1 (X22_multiple_captions_are_distinct first_seen 10 _ 3
                  "casual" [0; 0; 1]%nat _ first_seen_lists_a_set H)).
Defined.

(** *** Greedy search: the caption is stripped *)

Lemma lstrip_head s c r : lstrip s = String c r -> is_space c = false.
Proof.
  induction s as [|d s IH]; cbn [lstrip]; [discriminate|].
  destruct (is_space d) eqn:E; [exact IH|]. intros [= <- _]. exact E.
Qed.

Lemma rstrip_head s c r :
  rstrip s = String c r -> exists r', s = String c r'.
Proof.
  destruct s as [|d s]; cbn [rstrip]; [discriminate|].
  destruct (rstrip s).
  - destruct (is_space d); [discriminate|]. intros [= <- _]. now eexists.
  - intros [= <- _]. now eexists.
Qed.

Lemma rstrip_last s r c :
  rstrip s = (r ++ String c "")%string -> is_space c = false.
Proof.
  revert r. induction s as [|d s IH]; intros r; cbn [rstrip].
  - destruct r; discriminate.
  - destruct (rstrip s) as [|e t] eqn:E.
    + destruct (is_space d) eqn:Ed; [destruct r; discriminate|].
      destruct r as [|x r]; cbn [append].
      * intros [= <-]. exact Ed.
      * intros [= _ H]. destruct r; discriminate H.
    + destruct r as [|x r]; cbn [append]; [discriminate|].
      intros [= _ H]. now apply (IH r).
Qed.

(** X23: a caption returned by greedy search neither begins nor ends with
    a white-space character. *)
Theorem X23_greedy_caption_is_stripped :
  forall self image_features caption,
    generate_caption_simple self image_features = Ok caption ->
    (forall c r, caption = String c r -> is_space c = false) /\
    (forall r c, caption = (r ++ String c "")%string -> is_space c = false).
Proof.
  intros self f caption H. unfold generate_caption_simple in H.
  destruct (model self) as [predict|]; [|discriminate H].
  destruct (tokenizer self) as [tok|]; [|discriminate H].
  destruct (greedy_loop _ _ _ _ _ _) as [t|e]; [|discriminate H].
  inversion H; subst. unfold strip. split.
  - intros c r E. apply rstrip_head in E. destruct E as [r' E].
    now apply lstrip_head in E.
  - intros r c E. now apply rstrip_last in E.
Qed.

Lemma X23_witness :
  generate_caption_simple (loaded 2 small_tokenizer always_a) []
  = Ok "a a" /\
  is_space "a"%char = false.
Proof.
  assert (H : generate_caption_simple (loaded 2 small_tokenizer always_a) []
              = Ok "a a") by (vm_compute; reflexivity).
  split; [exact H|].
  exact (proj1 (X23_greedy_caption_is_stripped
                  (loaded 2 small_tokenizer always_a) [] "a a" H)
               "a"%char " a" eq_refl).
Defined.
